(** * Voxel-space analysis of tractographies

    A shallow embedding of [tract_querier/tract_math/operations.py]:
    the voxelizer, the volume estimate, the rasterizers, the agreement
    measures and the smoothing pass, with the properties of their
    specification.

    Numbers.  A numpy [float64] is modelled by an exact rational extended
    with the two infinities and NaN, so that the difference between a
    numpy division (which yields inf or nan on a zero divisor) and a
    Python [float] division (which raises [ZeroDivisionError]) is kept.
    Rounding error and the sign of zero are not modelled; [int64] values
    are unbounded integers. *)

From Stdlib Require Import ZArith QArith Qcanon Qround Reals Lra Lia.
From stdpp Require Import base numbers option list sorting gmap sets.

Local Open Scope Z_scope.

(** ** Exceptions and outcomes *)

(** The exceptions the modelled paths can raise.  [InvalidResolutionError]
    is the error the specification names for a non-positive resolution. *)
Inductive exn : Set :=
  | ValueError
  | ZeroDivisionError
  | IndexError
  | LinAlgError
  | OverflowError
  | InvalidResolutionError.

Inductive outcome (A : Type) : Type :=
  | Returns (a : A)
  | Raises (e : exn).
Arguments Returns {A} a.
Arguments Raises {A} e.

#[global] Instance outcome_ret : MRet outcome := λ A a, Returns a.
#[global] Instance outcome_bind : MBind outcome := λ A B k m,
  match m with
  | Returns a => k a
  | Raises e => Raises e
  end.

Fixpoint omap {A B} (f : A → outcome B) (l : list A) : outcome (list B) :=
  match l with
  | [] => Returns []
  | a :: l' => b ← f a; bs ← omap f l'; Returns (b :: bs)
  end.

Definition returns {A} (m : outcome A) : Prop := ∃ a, m = Returns a.

Definition option_of {A} (m : outcome A) : option A :=
  match m with Returns a => Some a | Raises _ => None end.

(** ** Floating-point values *)

Inductive float64 : Set :=
  | Finite (q : Qc)
  | PInf
  | NInf
  | NaN.

#[global] Instance exn_eq_dec : EqDecision exn.
Proof. solve_decision. Defined.
#[global] Instance float64_eq_dec : EqDecision float64.
Proof. solve_decision. Defined.
#[global] Instance outcome_eq_dec {A} `{EqDecision A} : EqDecision (outcome A).
Proof. solve_decision. Defined.

(** Closed equations between computed values are decided by evaluation. *)
Ltac by_compute := apply (bool_decide_eq_true_1 _); vm_compute; reflexivity.

Definition of_int (n : Z) : float64 := Finite (Qc_of_Z n).
Definition of_len (n : nat) : float64 := of_int (Z.of_nat n).

Definition fneg (x : float64) : float64 :=
  match x with
  | Finite q => Finite (- q)%Qc
  | PInf => NInf
  | NInf => PInf
  | NaN => NaN
  end.

Definition fadd (x y : float64) : float64 :=
  match x, y with
  | NaN, _ | _, NaN => NaN
  | Finite a, Finite b => Finite (a + b)%Qc
  | PInf, NInf | NInf, PInf => NaN
  | PInf, _ | _, PInf => PInf
  | NInf, _ | _, NInf => NInf
  end.

Definition fsub (x y : float64) : float64 := fadd x (fneg y).

(** The sign of an infinity scaled by a finite factor. *)
Definition scale_inf (pos : bool) (q : Qc) : float64 :=
  if decide (q = 0%Qc) then NaN
  else if decide (0 < q)%Qc then (if pos then PInf else NInf)
  else (if pos then NInf else PInf).

Definition fmul (x y : float64) : float64 :=
  match x, y with
  | NaN, _ | _, NaN => NaN
  | Finite a, Finite b => Finite (a * b)%Qc
  | Finite a, PInf | PInf, Finite a => scale_inf true a
  | Finite a, NInf | NInf, Finite a => scale_inf false a
  | PInf, PInf | NInf, NInf => PInf
  | PInf, NInf | NInf, PInf => NInf
  end.

(** numpy's true division: a zero divisor gives an infinity of the sign of
    the dividend, or nan for [0/0]; no exception is raised. *)
Definition fdiv (x y : float64) : float64 :=
  match x, y with
  | NaN, _ | _, NaN => NaN
  | Finite a, Finite b =>
      if decide (b = 0%Qc) then scale_inf true a else Finite (a / b)%Qc
  | Finite _, (PInf | NInf) => Finite 0%Qc
  | PInf, Finite b => if decide (b < 0)%Qc then NInf else PInf
  | NInf, Finite b => if decide (b < 0)%Qc then PInf else NInf
  | (PInf | NInf), (PInf | NInf) => NaN
  end.

(** Python's [float / int]: a zero divisor raises. *)
Definition py_div (x : float64) (n : Z) : outcome float64 :=
  if decide (n = 0) then Raises ZeroDivisionError
  else Returns (fdiv x (of_int n)).

Definition is_finite (x : float64) : bool :=
  match x with Finite _ => true | _ => false end.

(** [numpy.nan_to_num], with the infinities sent to the largest finite
    doubles. *)
Definition DBL_MAX : Qc := Qc_of_Z ((2 ^ 53 - 1) * 2 ^ 971).
Definition nan_to_num (x : float64) : float64 :=
  match x with
  | NaN => Finite 0%Qc
  | PInf => Finite DBL_MAX
  | NInf => Finite (- DBL_MAX)%Qc
  | Finite q => Finite q
  end.

(** Python's [x ** 3] on a float: a finite result beyond the largest
    double raises [OverflowError]; the infinities and nan pass. *)
Definition qabs (q : Qc) : Qc := if decide (0 ≤ q)%Qc then q else (- q)%Qc.

Definition float_pow3 (x : float64) : outcome float64 :=
  match x with
  | Finite q =>
      if decide (DBL_MAX < qabs (q * (q * q)))%Qc then Raises OverflowError
      else Returns (Finite (q * (q * q))%Qc)
  | _ => Returns x
  end.

(** [ndarray.round(0)]: to the nearest integer, ties to the even one. *)
Definition half : Qc := Q2Qc (1 # 2).

Definition round_half_even (q : Qc) : Z :=
  let f := Qfloor q in
  let r := (q - Qc_of_Z f)%Qc in
  if decide (r < half)%Qc then f
  else if decide (half < r)%Qc then f + 1
  else if Z.even f then f else f + 1.

Definition fround (x : float64) : float64 :=
  match x with
  | Finite q => of_int (round_half_even q)
  | _ => x
  end.

(** [ndarray.astype(int)]: truncation towards zero; nan and the infinities
    become the least [int64] (numpy on x86-64). *)
Definition INT64_MIN : Z := - 2 ^ 63.

(** The arithmetic of [int64] wraps around. *)
Definition wrap64 (z : Z) : Z := (z + 2 ^ 63) mod 2 ^ 64 - 2 ^ 63.
Definition sub64 (a b : Z) : Z := wrap64 (a - b).
Definition mul64 (a b : Z) : Z := wrap64 (a * b).

Definition trunc (q : Qc) : Z := Z.quot (Qnum q) (Zpos (Qden q)).

Definition astype_int (x : float64) : Z :=
  match x with
  | Finite q => trunc q
  | _ => INT64_MIN
  end.

(** ** Data model *)

(** A point of a streamline has finite coordinates. *)
Definition point : Type := Qc * Qc * Qc.
Definition tract : Type := list point.
Definition voxel : Type := Z * Z * Z.

(** [numpy.vstack]: an empty sequence of arrays is an error. *)
Definition vstack {A} (arrays : list (list A)) : outcome (list A) :=
  match arrays with
  | [] => Raises ValueError
  | _ => Returns (concat arrays)
  end.

(** ** Voxelizer *)

Definition voxel_of_point (resolution : float64) (p : point) : voxel :=
  let '(x, y, z) := p in
  let ix c := astype_int (fround (fdiv (Finite c) resolution)) in
  (ix x, ix y, ix z).

Definition voxelized_tract (tracts : list tract) (resolution : float64)
  : outcome (gset voxel) :=
  all_points ← vstack tracts;
  Returns (list_to_set (voxel_of_point resolution <$> all_points)).

(** ** Volume estimate *)

Definition neighbors : list voxel :=
  [(0, 1, 0); (0, -1, 0); (1, 0, 0); (-1, 0, 0); (0, 0, 1); (0, 0, -1)].

Definition voxel_add (d v : voxel) : voxel :=
  let '(a, b, c) := d in
  let '(x, y, z) := v in (a + x, b + y, c + z).

Definition neighbors_list (v : voxel) : list voxel :=
  (λ d, voxel_add d v) <$> neighbors.

(** One turn of the loop over the occupied voxels. *)
Definition volume_step (voxels : gset voxel)
    (st : gset voxel * gset voxel) (v : voxel) : gset voxel * gset voxel :=
  let '(dilated_voxels, eroded_voxels) := st in
  let nl := neighbors_list v in
  let dilated_voxels := dilated_voxels ∪ list_to_set nl in
  if decide (size (voxels ∩ list_to_set nl) = length neighbors)
  then (dilated_voxels, eroded_voxels ∪ {[ v ]})
  else (dilated_voxels, eroded_voxels).

Definition dilate_erode (voxels : gset voxel) : gset voxel * gset voxel :=
  foldl (volume_step voxels) (∅ ∪ voxels, ∅) (elements voxels).

Definition volume_of_voxels (voxels : gset voxel) (resolution : float64)
  : float64 :=
  let '(dilated_voxels, eroded_voxels) := dilate_erode voxels in
  let approx_voxels :=
    fdiv (of_int (Z.of_nat (size dilated_voxels)
                  - Z.of_nat (size eroded_voxels))) (of_int 2) in
  fmul approx_voxels (fmul resolution (fmul resolution resolution)).

(** The whole operation.  [resolution ** 3] is a power of Python floats
    and raises when its result is out of range; when it returns it is the
    product [volume_of_voxels] multiplies by. *)
Definition tract_volume (tracts : list tract) (resolution : float64)
  : outcome float64 :=
  voxels ← voxelized_tract tracts resolution;
  _ ← float_pow3 resolution;
  Returns (volume_of_voxels voxels resolution).

(** ** Agreement measures *)

(** *** Dice *)

(** The body of the loop of [tract_dice]: the coefficient of the reference
    voxels and the voxels of one other tract. *)
Definition dice_coefficient (voxels voxels1 : gset voxel) : outcome float64 :=
  py_div (fmul (of_int (2 * Z.of_nat (size (voxels ∩ voxels1))))
               (Finite 1%Qc))
         (Z.of_nat (size voxels) + Z.of_nat (size voxels1)).

Definition tract_dice (tracts : list tract) (resolution : float64)
    (other_tracts : list (list tract)) : outcome (list float64) :=
  voxels ← voxelized_tract tracts resolution;
  omap (λ other,
          voxels1 ← voxelized_tract other resolution;
          dice_coefficient voxels voxels1) other_tracts.

(** *** Kappa *)

(** [a.max(0)] and [a.min(0)] of an array of index triples; an empty array
    has neither. *)
Definition column_fold (f : Z → Z → Z) (l : list voxel) : outcome voxel :=
  match l with
  | [] => Raises ValueError
  | v :: l' =>
      Returns (foldl (λ '(a, b, c) '(x, y, z), (f a x, f b y, f c z)) v l')
  end.

Definition array_max := column_fold Z.max.
Definition array_min := column_fold Z.min.

(** [(a.max(0) - a.min(0)).prod()] on [int64]. *)
Definition prod3 (hi lo : voxel) : Z :=
  let '(a, b, c) := hi in
  let '(x, y, z) := lo in
  mul64 (mul64 (sub64 a x) (sub64 b y)) (sub64 c z).

(** The body of the loop of [tract_kappa].  [N] and [N * N] are [int64],
    the other quantities floats. *)
Definition kappa_value (voxels voxels1 : gset voxel) : outcome float64 :=
  let all_voxels := elements (voxels ∪ voxels1) in
  mx ← array_max all_voxels;
  mn ← array_min all_voxels;
  let N := prod3 mx mn in
  let pp := fmul (of_len (size (voxels ∩ voxels1))) (Finite 1%Qc) in
  let pn := fmul (of_len (size (voxels ∖ voxels1))) (Finite 1%Qc) in
  let np := fmul (of_len (size (voxels1 ∖ voxels))) (Finite 1%Qc) in
  let nn := fsub (fsub (fsub (of_int N) pp) pn) np in
  let observed_agreement := fdiv (fadd pp nn) (of_int N) in
  let chance_agreement :=
    fdiv (fadd (fmul (fadd pp pn) (fadd pp np))
               (fmul (fadd nn np) (fadd nn pn)))
         (of_int (mul64 N N)) in
  Returns (fdiv (fsub observed_agreement chance_agreement)
                (fsub (Finite 1%Qc) chance_agreement)).


(** *** Bhattacharyya: the shared histogram range *)

Definition qmin (a b : Qc) : Qc := if decide (a ≤ b)%Qc then a else b.
Definition qmax (a b : Qc) : Qc := if decide (a ≤ b)%Qc then b else a.

(** [numpy.minimum] and [numpy.maximum] on coordinate triples. *)
Definition minimum (p q : point) : point :=
  let '(a, b, c) := p in
  let '(x, y, z) := q in (qmin a x, qmin b y, qmin c z).
Definition maximum (p q : point) : point :=
  let '(a, b, c) := p in
  let '(x, y, z) := q in (qmax a x, qmax b y, qmax c z).

(** [pts.min(0)] and [pts.max(0)] of an array of points. *)
Definition points_min (pts : list point) : outcome point :=
  match pts with
  | [] => Raises ValueError
  | p :: l => Returns (foldl minimum p l)
  end.
Definition points_max (pts : list point) : outcome point :=
  match pts with
  | [] => Raises ValueError
  | p :: l => Returns (foldl maximum p l)
  end.

(** One turn of the loop over the point clouds of the other tracts; the
    state is the pair [(mn_, mx_)]. *)
Definition range_step (st : point * point) (pts : list point)
  : outcome (point * point) :=
  let '(mn_, mx_) := st in
  lo ← points_min pts;
  let mn_ := minimum mn_ lo in
  hi ← points_max pts;
  let mx_ := maximum mn_ hi in
  Returns (mn_, mx_).

Fixpoint ofoldl {A B} (f : A → B → outcome A) (a : A) (l : list B)
  : outcome A :=
  match l with
  | [] => Returns a
  | b :: l' => a' ← f a b; ofoldl f a' l'
  end.

(** The range of the histograms of [tract_bhattacharyya_coefficient]: the
    pair [(mn_, mx_)] after the loop. *)
Definition bhattacharyya_range (tracts : list tract)
    (other_tracts : list (list tract)) : outcome (point * point) :=
  tractography_points ← vstack tracts;
  other_tracts_points ← omap vstack other_tracts;
  mn_ ← points_min tractography_points;
  mx_ ← points_max tractography_points;
  ofoldl range_step (mn_, mx_) other_tracts_points.

Definition fceil (x : float64) : float64 :=
  match x with
  | Finite q => of_int (Qceiling q)
  | _ => x
  end.

(** The number of bins on each axis. *)
Definition bhattacharyya_bins (range : point * point) (resolution : float64)
  : float64 * float64 * float64 :=
  let '((a, b, c), (x, y, z)) := range in
  let n lo hi :=
    fceil (fdiv (fmul (Finite (hi - lo)%Qc) (Finite 1%Qc)) resolution) in
  (n a x, n b y, n c z).

(** ** Rasterizer *)

Definition vec4 : Type := Qc * Qc * Qc * Qc.
Definition mat4 : Type := vec4 * vec4 * vec4 * vec4.

Definition dot4 (u v : vec4) : Qc :=
  let '(a, b, c, d) := u in
  let '(x, y, z, w) := v in (a * x + b * y + c * z + d * w)%Qc.

Definition mat_vec (m : mat4) (v : vec4) : vec4 :=
  let '(r0, r1, r2, r3) := m in (dot4 r0 v, dot4 r1 v, dot4 r2 v, dot4 r3 v).

(** A row of [hstack((points, ones))], and of [[:, :-1]]. *)
Definition homogeneous (p : point) : vec4 := let '(x, y, z) := p in (x, y, z, 1%Qc).
Definition drop_last (v : vec4) : point := let '(x, y, z, _) := v in (x, y, z).

Record image : Type := Image {
  image_shape : nat * nat * nat;
  image_affine : mat4
}.

Record grid : Type := Grid {
  grid_shape : nat * nat * nat;
  grid_cells : gmap voxel float64
}.

#[global] Instance grid_eq_dec : EqDecision grid.
Proof. solve_decision. Defined.

Definition indices (shape : nat * nat * nat) : list voxel :=
  let '(nx, ny, nz) := shape in
  i ← seqZ 0 (Z.of_nat nx);
  j ← seqZ 0 (Z.of_nat ny);
  k ← seqZ 0 (Z.of_nat nz);
  [(i, j, k)].

(** [numpy.zeros_like(image_data, dtype=float)] *)
Definition zeros (shape : nat * nat * nat) : grid :=
  Grid shape (gset_to_gmap (Finite 0%Qc) (list_to_set (indices shape))).

(** An index along one axis: negative ones count from the end, and one
    outside [[-dim, dim)] is an [IndexError]. *)
Definition norm_index (dim : nat) (i : Z) : outcome Z :=
  if decide (0 ≤ i < Z.of_nat dim) then Returns i
  else if decide (- Z.of_nat dim ≤ i < 0) then Returns (i + Z.of_nat dim)
  else Raises IndexError.

Definition locate (shape : nat * nat * nat) (c : voxel) : outcome voxel :=
  let '(nx, ny, nz) := shape in
  let '(i, j, k) := c in
  i' ← norm_index nx i;
  j' ← norm_index ny j;
  k' ← norm_index nz k;
  Returns (i', j', k').

(** [a[tuple(idx.T)] = v] *)
Definition assign_at (g : grid) (idx : list voxel) (v : float64)
  : outcome grid :=
  cs ← omap (locate (grid_shape g)) idx;
  Returns (Grid (grid_shape g)
                (foldl (λ m c, <[c := v]> m) (grid_cells g) cs)).

(** [a[tuple(idx.T)] += 1]: the cells are read once, before any is
    written, so a repeated index is incremented once. *)
Definition increment_at (g : grid) (idx : list voxel) : outcome grid :=
  cs ← omap (locate (grid_shape g)) idx;
  Returns (Grid (grid_shape g)
                (foldl (λ m c,
                          <[c := fadd (default NaN (grid_cells g !! c))
                                      (Finite 1%Qc)]> m)
                       (grid_cells g) cs)).

Definition grid_map (f : float64 → float64) (g : grid) : grid :=
  Grid (grid_shape g) (f <$> grid_cells g).

Definition grid_zip (f : float64 → float64 → float64) (g h : grid) : grid :=
  Grid (grid_shape g) (map_zip_with f (grid_cells g) (grid_cells h)).

(** [ijk.clip((0, 0, 0), shape - 1).astype(int)] on one point. *)
Definition clip (lo hi x : Qc) : Qc := qmin (qmax x lo) hi.

Definition clip_index (shape : nat * nat * nat) (p : point) : voxel :=
  let '(nx, ny, nz) := shape in
  let '(x, y, z) := p in
  let ix (n : nat) c :=
    astype_int (Finite (clip 0%Qc (Qc_of_Z (Z.of_nat n - 1)) c)) in
  (ix nx x, ix ny y, ix nz z).

Section Rasterizer.

(** [numpy.linalg.solve a b] on a 4x4 matrix and the columns of [b], and
    [numpy.linalg.inv]; both raise [LinAlgError] on a singular matrix. *)
Variable linalg_solve : mat4 → list vec4 → outcome (list vec4).
Variable linalg_inv : mat4 → outcome mat4.

Definition tract_in_ijk (img : image) (tracts : list tract)
  : outcome (list point) :=
  ras_points ← vstack tracts;
  sol ← linalg_solve (image_affine img) (homogeneous <$> (ras_points : list point));
  Returns (drop_last <$> (sol : list vec4)).

Definition each_tract_in_ijk (img : image) (tracts : list tract)
  : outcome (list (list point)) :=
  omap (λ t : tract,
          inv ← linalg_inv (image_affine img);
          Returns ((λ p, drop_last (mat_vec inv (homogeneous p))) <$> t))
       tracts.

Definition tract_mask (img : image) (tracts : list tract) : outcome grid :=
  ijk_points ← tract_in_ijk img tracts;
  let ijk_clipped :=
    clip_index (image_shape img) <$> (ijk_points : list point) in
  assign_at (zeros (image_shape img)) ijk_clipped (Finite 1%Qc).

Definition tract_probability_map (img : image) (tracts : list tract)
  : outcome grid :=
  ijk_tracts ← each_tract_in_ijk img tracts;
  probability_map ←
    ofoldl (λ g ijk_points,
              increment_at g (clip_index (image_shape img)
                             <$> (ijk_points : list point)))
           (zeros (image_shape img)) ijk_tracts;
  Returns (grid_map (λ x, fdiv x (of_len (length ijk_tracts)))
                    probability_map).

(** One turn of the loop over the tractographies after the first. *)
Definition probability_step (img : image) (prob_map : grid)
    (tracts : list tract) : outcome grid :=
  if decide (length tracts = 0%nat) then Returns prob_map
  else
    new_prob_map ← tract_mask img tracts;
    Returns (grid_zip (λ p m, fsub (fadd p m) (fmul p m))
                      prob_map new_prob_map).

Definition tract_generate_probability_map
    (tractographies : list (list tract)) (img : image) : outcome grid :=
  match tractographies with
  | [] => Raises IndexError
  | first :: rest =>
      prob_map ← tract_probability_map img first;
      ofoldl (probability_step img) prob_map rest
  end.

End Rasterizer.

(** An exact [numpy.linalg.solve] and [numpy.linalg.inv] for 4x4 matrices,
    by Cramer's rule: the instance the examples below run the rasterizer
    with. *)
Definition det3 (r0 r1 r2 : point) : Qc :=
  let '(a, b, c) := r0 in
  let '(d, e, f) := r1 in
  let '(g, h, i) := r2 in
  (a * (e * i - f * h) - b * (d * i - f * g) + c * (d * h - e * g))%Qc.

Definition drop_col (k : nat) (v : vec4) : point :=
  let '(a, b, c, d) := v in
  match k with
  | 0%nat => (b, c, d)
  | 1%nat => (a, c, d)
  | 2%nat => (a, b, d)
  | _ => (a, b, c)
  end.

Definition det4 (m : mat4) : Qc :=
  let '(r0, r1, r2, r3) := m in
  let '(a, b, c, d) := r0 in
  let minor k := det3 (drop_col k r1) (drop_col k r2) (drop_col k r3) in
  (a * minor 0%nat - b * minor 1%nat + c * minor 2%nat - d * minor 3%nat)%Qc.

Definition set_entry (k : nat) (v : vec4) (x : Qc) : vec4 :=
  let '(a, b, c, d) := v in
  match k with
  | 0%nat => (x, b, c, d)
  | 1%nat => (a, x, c, d)
  | 2%nat => (a, b, x, d)
  | _ => (a, b, c, x)
  end.

Definition set_col (k : nat) (m : mat4) (b : vec4) : mat4 :=
  let '(r0, r1, r2, r3) := m in
  let '(b0, b1, b2, b3) := b in
  (set_entry k r0 b0, set_entry k r1 b1, set_entry k r2 b2, set_entry k r3 b3).

Definition cramer (a : mat4) (b : vec4) : vec4 :=
  let d := det4 a in
  let x k := (det4 (set_col k a b) / d)%Qc in
  (x 0%nat, x 1%nat, x 2%nat, x 3%nat).

Definition cramer_solve (a : mat4) (bs : list vec4) : outcome (list vec4) :=
  if decide (det4 a = 0%Qc) then Raises LinAlgError
  else Returns (cramer a <$> bs).

Definition transpose (m : mat4) : mat4 :=
  let '((a0, a1, a2, a3), (b0, b1, b2, b3),
        (c0, c1, c2, c3), (d0, d1, d2, d3)) := m in
  ((a0, b0, c0, d0), (a1, b1, c1, d1), (a2, b2, c2, d2), (a3, b3, c3, d3)).

Definition cramer_inv (a : mat4) : outcome mat4 :=
  if decide (det4 a = 0%Qc) then Raises LinAlgError
  else Returns (transpose (cramer a (1, 0, 0, 0)%Qc, cramer a (0, 1, 0, 0)%Qc,
                           cramer a (0, 0, 1, 0)%Qc, cramer a (0, 0, 0, 1)%Qc)).

(** ** The vocabulary of the specification *)

Inductive axis : Set := AxisX | AxisY | AxisZ.

Definition coord (a : axis) (v : voxel) : Z :=
  let '(x, y, z) := v in
  match a with AxisX => x | AxisY => y | AxisZ => z end.

(** [lo] and [hi] are the corners of the bounding box of a voxel set: on
    every axis they bound the set and are attained in it. *)
Definition is_bounding_box (S : gset voxel) (lo hi : voxel) : Prop :=
  ∀ a,
    (∀ v, v ∈ S → coord a lo ≤ coord a v ≤ coord a hi) ∧
    (∃ v, v ∈ S ∧ coord a v = coord a lo) ∧
    (∃ v, v ∈ S ∧ coord a v = coord a hi).

(** The product of the extents of a box, an extent being the distance
    between the two faces of an axis. *)
Definition extent_product (lo hi : voxel) : Z :=
  (coord AxisX hi - coord AxisX lo) * (coord AxisY hi - coord AxisY lo)
  * (coord AxisZ hi - coord AxisZ lo).

(** Kappa as the specification words it, from the normalizer and the three
    counts. *)
Definition kappa_formula (N pp pn np : float64) : float64 :=
  let nn := fsub (fsub (fsub N pp) pn) np in
  let observed := fdiv (fadd pp nn) N in
  let chance :=
    fdiv (fadd (fmul (fadd pp pn) (fadd pp np))
               (fmul (fadd nn np) (fadd nn pn)))
         (fmul N N) in
  fdiv (fsub observed chance) (fsub (Finite 1%Qc) chance).

(** The same arithmetic with the square of the normalizer given apart,
    as the code has it. *)
Definition kappa_float (N NN pp pn np : float64) : float64 :=
  let nn := fsub (fsub (fsub N pp) pn) np in
  let observed := fdiv (fadd pp nn) N in
  let chance :=
    fdiv (fadd (fmul (fadd pp pn) (fadd pp np))
               (fmul (fadd nn np) (fadd nn pn)))
         NN in
  fdiv (fsub observed chance) (fsub (Finite 1%Qc) chance).

(** The observed agreement, the chance agreement and kappa of the
    specification as rational numbers. *)
Definition observed_agreement (N pp pn np : Qc) : Qc :=
  let nn := (N - pp - pn - np)%Qc in ((pp + nn) / N)%Qc.

Definition chance_agreement (N pp pn np : Qc) : Qc :=
  let nn := (N - pp - pn - np)%Qc in
  (((pp + pn) * (pp + np) + (nn + np) * (nn + pn)) / (N * N))%Qc.

Definition kappa_rational (N pp pn np : Qc) : Qc :=
  ((observed_agreement N pp pn np - chance_agreement N pp pn np)
   / (1 - chance_agreement N pp pn np))%Qc.

(** The count of the elements of a voxel set as a rational number. *)
Definition card (S : gset voxel) : Qc := Qc_of_Z (Z.of_nat (size S)).


(** Two small voxel sets for the examples: their union spans the box from
    [(0, 0, 0)] to [(2, 3, 2)]. *)
Definition example_A : gset voxel := {[ (0, 0, 0); (2, 2, 2); (1, 1, 1) ]}.
Definition example_B : gset voxel := {[ (0, 0, 0); (1, 3, 1) ]}.

(** A reference tractography that reaches [x = 10] and a comparison one
    that stops at [x = 1]. *)
Definition reference_tracts : list tract :=
  [[(0, 0, 0)%Qc; (Qc_of_Z 10, 0, 0)%Qc]].
Definition comparison_tracts : list tract :=
  [[(0, 0, 0)%Qc; (1, 0, 0)%Qc]].

(** A 2x2x2 image whose voxel [(i, j, k)] sits at [(2i+1, 2j+1, 2k+1)], and
    a streamline with one point inside the grid and one outside. *)
Definition example_image : image :=
  Image (2%nat, 2%nat, 2%nat)
        ((Q2Qc 2, 0, 0, 1)%Qc, (0, Q2Qc 2, 0, 1)%Qc,
         (0, 0, Q2Qc 2, 1)%Qc, (0, 0, 0, 1)%Qc).
Definition example_tracts : list tract :=
  [[(1, 1, 1)%Qc; (Q2Qc 9, Q2Qc 3, - Q2Qc 5)%Qc]].

(** The cell the far point of the example streamline is clipped to. *)
Definition corner_cell : voxel := (1, 1, 0).

(** The same grid with an affine that cannot be inverted. *)
Definition singular_image : image :=
  Image (2%nat, 2%nat, 2%nat)
        ((Q2Qc 2, 0, 0, 1)%Qc, (0, 0, 0, 1)%Qc,
         (0, 0, Q2Qc 2, 1)%Qc, (0, 0, 0, 1)%Qc).

(** Two voxels far apart: the product of the extents of their box is
    [2^32], and its square is beyond [int64]. *)
Definition wide : gset voxel := {[ (0, 0, 0); (2048, 2048, 1024) ]}.

(** The index of a coordinate on an axis of [n] cells as the
    specification words it: the whole part of the coordinate, clamped into
    [[0, n - 1]]; and the cell of a point. *)
Definition clamped_index (n : nat) (x : Qc) : Z :=
  if decide (x < 0)%Qc then 0
  else if decide (Qc_of_Z (Z.of_nat n - 1) < x)%Qc then Z.of_nat n - 1
  else Qfloor x.

Definition clamped (shape : nat * nat * nat) (p : point) : voxel :=
  let '(nx, ny, nz) := shape in
  let '(x, y, z) := p in
  (clamped_index nx x, clamped_index ny y, clamped_index nz z).

(** Every axis of a grid has at least one cell. *)
Definition shape_positive (shape : nat * nat * nat) : Prop :=
  let '(nx, ny, nz) := shape in (0 < nx ∧ 0 < ny ∧ 0 < nz)%nat.

(** A cell index lies inside a grid of the given shape. *)
Definition in_bounds (shape : nat * nat * nat) (c : voxel) : Prop :=
  let '(nx, ny, nz) := shape in
  let '(i, j, k) := c in
  0 ≤ i < Z.of_nat nx ∧ 0 ≤ j < Z.of_nat ny ∧ 0 ≤ k < Z.of_nat nz.

(** ** Smoothing

    The smoothing pass takes square roots and exponentials, so its
    coordinates are real numbers; the model is meant where no division by
    zero occurs (no segment of length zero, a variance parameter other than
    zero), which the properties below assume. *)

Module Smoothing.

Local Open Scope R_scope.

Definition rpoint : Type := R * R * R.
(** The rows of a 3x3 matrix. *)
Definition mat3 : Type := rpoint * rpoint * rpoint.

#[global] Instance R_inhabited : Inhabited R := populate 0.
#[global] Instance Rle_decision : RelDecision Rle := Rle_dec.

Definition vadd (p q : rpoint) : rpoint :=
  let '(a, b, c) := p in let '(x, y, z) := q in (a + x, b + y, c + z).
Definition vsub (p q : rpoint) : rpoint :=
  let '(a, b, c) := p in let '(x, y, z) := q in (a - x, b - y, c - z).
Definition vscale (p : rpoint) (w : R) : rpoint :=
  let '(a, b, c) := p in (a * w, b * w, c * w).
Definition vdiv (p : rpoint) (w : R) : rpoint :=
  let '(a, b, c) := p in (a / w, b / w, c / w).
Definition vzero : rpoint := (0, 0, 0).
Definition vsum (l : list rpoint) : rpoint := foldr vadd vzero l.
Definition rsum (l : list R) : R := foldr Rplus 0 l.

(** [(v ** 2).sum()] *)
Definition sq_norm (v : rpoint) : R :=
  let '(a, b, c) := v in a ^ 2 + b ^ 2 + c ^ 2.

Definition dist (p q : rpoint) : R := sqrt (sq_norm (vsub q p)).

(** [t[None, :] * t[:, None]] *)
Definition outer (t : rpoint) : mat3 :=
  let '(a, b, c) := t in
  ((a * a, b * a, c * a), (a * b, b * b, c * b), (a * c, b * c, c * c)).

Definition eye3 : mat3 := ((1, 0, 0), (0, 1, 0), (0, 0, 1)).

Definition mat_sub (m n : mat3) : mat3 :=
  let '(r0, r1, r2) := m in
  let '(s0, s1, s2) := n in (vsub r0 s0, vsub r1 s1, vsub r2 s2).

(** [(m * d[:, None]).sum(-2)]: row [a] of [m] is scaled by [d[a]] and
    the rows are added. *)
Definition project (m : mat3) (d : rpoint) : rpoint :=
  let '(r0, r1, r2) := m in
  let '(a, b, c) := d in
  vadd (vadd (vscale r0 a) (vscale r1 b)) (vscale r2 c).

(** [numpy.diff(tract, axis=0)] *)
Fixpoint diff (tract : list rpoint) : list rpoint :=
  match tract with
  | p :: (q :: _) as rest => vsub q p :: diff rest
  | _ => []
  end.

(** [diff_norm]: the unit tangents, the last one repeated.  A segment of
    length zero is divided by its length here: numpy gives NaN in each
    coordinate of that row, a value the reals do not have, so the facts on
    the pass are stated for segments that have a length. *)
Definition tangents (tract : list rpoint) : outcome (list rpoint) :=
  let d := diff tract in
  match last d with
  | None => Raises IndexError
  | Some d_last =>
      let d := d ++ [d_last] in
      Returns ((λ v, vdiv v (sqrt (sq_norm v))) <$> d)
  end.

(** The two queries of [sklearn.neighbors.BallTree] used by the pass, on
    the points the tree was built from: the indices of the points within
    a radius of a query point, and the distances and indices of its [k]
    nearest points. *)
Class BallTree : Type := {
  query_radius : list rpoint → rpoint → R → list nat;
  query : list rpoint → rpoint → nat → list (R * nat)
}.

(** The points of the tree with their distances to a query point and
    their indices. *)
Definition indexed_distances (pts : list rpoint) (p : rpoint)
  : list (R * nat) := imap (λ i q, (dist p q, i)) pts.

(** What the pass may rely on. *)
Record lawful (bt : BallTree) : Prop := {
  query_radius_NoDup pts p r : NoDup (query_radius pts p r);
  query_radius_spec pts p r i :
    i ∈ query_radius pts p r ↔ ∃ q, pts !! i = Some q ∧ dist p q <= r;
  query_length pts p k :
    (k ≤ length pts)%nat → length (query pts p k) = k;
  query_spec pts p k :
    ∃ rest,
      query pts p k ++ rest ≡ₚ indexed_distances pts p ∧
      ∀ x y, x ∈ query pts p k → y ∈ rest → x.1 <= y.1
}.

(** [std = var ** 2] *)
Definition std_of (var : R) : R := var ^ 2.

(** The weights of the neighbours at the given distances. *)
Definition kernel (std d : R) : R := exp (- (1 / 2) * d ^ 2 / std).

Definition smooth_weights (std : R) (distances : list R) : list R :=
  let weights := kernel std <$> distances in
  (λ w, w / rsum weights) <$> weights.

(** The new position of one point [p], from its plane and its
    neighbours. *)
Definition smooth_point (all_points : list rpoint) (std : R)
    (p : rpoint) (normal_plane : mat3) (close : list (R * nat)) : rpoint :=
  let close_point_distances := fst <$> close in
  let close_points := (λ x, all_points !!! x.2) <$> close in
  let difference_vectors := (λ q, vsub q p) <$> close_points in
  let projected_vectors := project normal_plane <$> difference_vectors in
  let projected_points := (λ v, vadd v p) <$> projected_vectors in
  let weights := smooth_weights std close_point_distances in
  vsum (zip_with vscale projected_points weights).

Section Pass.
Context {bt : BallTree}.

(** The body of the loop: the new points of one tract. *)
Definition smooth_tract (all_points : list rpoint) (var : R)
    (tract : list rpoint) : outcome (list rpoint) :=
  let std := std_of var in
  diff_norm ← tangents tract;
  let normal_planes := (λ t, mat_sub eye3 (outer t)) <$> diff_norm in
  let N :=
    max_list ((λ p, length (query_radius all_points p (var * 3)))
              <$> tract) in
  let close := (λ p, query all_points p N) <$> tract in
  Returns (zip_with (λ '(p, m) c, smooth_point all_points std p m c)
                    (zip tract normal_planes) close).

(** [BallTree(all_points)]: no tree is built over no point. *)
Definition ball_tree_built (all_points : list rpoint) : outcome unit :=
  match all_points with
  | [] => Raises ValueError
  | _ => Returns ()
  end.

(** The arrays of the streamlines live in a store, and a tractography is
    the list of the references to its arrays.  The [Tractography] class is
    not among the sources: [original_tracts()] is taken to hand out the
    arrays the tractography holds, the same ones at every call, as the
    assignment [tract[:] = weighted_points] followed by a second call
    presupposes.  The tree is built from a copy of the points
    ([numpy.vstack]), so it keeps the positions of before the pass. *)
Definition tract_smooth (store : gmap nat (list rpoint))
    (original_tracts : list nat) (var : R)
  : outcome (gmap nat (list rpoint) * list nat) :=
  let points := (λ l, store !!! l) <$> original_tracts in
  all_points ← vstack points;
  _ ← ball_tree_built all_points;
  store' ←
    ofoldl (λ (st : gmap nat (list rpoint)) l,
              weighted_points ← smooth_tract all_points var (st !!! l);
              Returns (<[l := weighted_points]> st))
           store original_tracts;
  Returns (store', original_tracts).

End Pass.

(** A tree that searches all points: the neighbours come sorted by
    distance.  Neighbours are compared by their distance. *)
Definition closer (x y : R * nat) : Prop := x.1 <= y.1.

#[global] Instance closer_dec : RelDecision closer := λ x y, Rle_dec x.1 y.1.

Definition brute_force : BallTree := {|
  query_radius pts p r :=
    snd <$> filter (λ x, x.1 <= r) (indexed_distances pts p);
  query pts p k := take k (merge_sort closer (indexed_distances pts p))
|}.

(** The weights as the specification words them: a Gaussian kernel of
    variance [varianceParameter] on the distance, normalised over the
    neighbours. *)
Definition spec_kernel (varianceParameter d : R) : R :=
  exp (- d ^ 2 / (2 * varianceParameter)).

Definition spec_weights (varianceParameter : R) (distances : list R)
  : list R :=
  (λ d, spec_kernel varianceParameter d
        / rsum (spec_kernel varianceParameter <$> distances)) <$> distances.

(** A plane is flat along [u] when it sends every multiple of [u] to
    zero. *)
Definition flat (u : rpoint) (m : mat3) : Prop :=
  ∀ k, project m (vscale u k) = vzero.

Definition ycoord (p : rpoint) : R := p.1.2.

(** Two streamlines for the examples, one with a corner and a straight
    one, each alone in a store at address 0. *)
Definition bent : list rpoint := [(0, 0, 0); (1, 0, 0); (1, 1, 0)].
Definition bent_store : gmap nat (list rpoint) := {[ 0%nat := bent ]}.
Definition straight : list rpoint := [(0, 0, 0); (1, 0, 0); (2, 0, 0)].
Definition straight_store : gmap nat (list rpoint) := {[ 0%nat := straight ]}.

(** Two more streamlines on the same line: one of a single point, and one
    that stays at its first point for a step. *)
Definition lone : list rpoint := [(0, 0, 0)].
Definition lone_store : gmap nat (list rpoint) := {[ 0%nat := lone ]}.
Definition repeated : list rpoint := [(0, 0, 0); (0, 0, 0); (1, 0, 0)].

End Smoothing.

(** ** Further vocabulary *)

(** A voxel all of whose six neighbours are occupied. *)
Definition interior (voxels : gset voxel) (v : voxel) : Prop :=
  ∀ n, n ∈ neighbors_list v → n ∈ voxels.

(** A point lies at or above another on every axis. *)
Definition ple (p q : point) : Prop :=
  let '(a, b, c) := p in
  let '(x, y, z) := q in (a ≤ x)%Qc ∧ (b ≤ y)%Qc ∧ (c ≤ z)%Qc.

(** [tract_in_ras]: voxel coordinates to physical ones. *)
Definition tract_in_ras (img : image) (tract_ijk : list point) : list point :=
  (λ p, drop_last (mat_vec (image_affine img) (homogeneous p))) <$> tract_ijk.

(** What [numpy.linalg.solve] and [numpy.linalg.inv] do in exact
    arithmetic: a singular matrix is refused, and otherwise the columns of
    the result solve the system, or the result undoes the matrix. *)
Definition solves_exactly
    (linalg_solve : mat4 → list vec4 → outcome (list vec4)) : Prop :=
  ∀ a bs,
    if decide (det4 a = 0%Qc) then linalg_solve a bs = Raises LinAlgError
    else ∃ xs, linalg_solve a bs = Returns xs ∧ mat_vec a <$> xs = bs.

Definition inverts_exactly (linalg_inv : mat4 → outcome mat4) : Prop :=
  ∀ a,
    if decide (det4 a = 0%Qc) then linalg_inv a = Raises LinAlgError
    else ∃ inv, linalg_inv a = Returns inv ∧
                ∀ v, mat_vec inv (mat_vec a v) = v.

(** The last row of the matrix of an affine map. *)
Definition affine_matrix (a : mat4) : Prop :=
  let '(_, _, _, r3) := a in r3 = (0, 0, 0, 1)%Qc.

(** The number of streamlines, given in voxel coordinates, that touch a
    cell of a grid. *)
Definition touch_count (shape : nat * nat * nat)
    (ijk_tracts : list (list point)) (c : voxel) : nat :=
  length (filter (λ t : list point, c ∈ clip_index shape <$> t) ijk_tracts).

(** A cell is marked by the mask of one of the tractographies the union
    goes through after the first, an empty one apart. *)
Definition later_touch
    (linalg_solve : mat4 → list vec4 → outcome (list vec4))
    (img : image) (rest : list (list tract)) (c : voxel) : Prop :=
  ∃ tracts ijk_points,
    tracts ∈ rest ∧ tracts ≠ [] ∧
    tract_in_ijk linalg_solve img tracts = Returns ijk_points ∧
    c ∈ clip_index (image_shape img) <$> ijk_points.

(** ** Affine transform of a tractography *)

(** [nibabel.affines.apply_affine] on one point: the upper three rows of
    the matrix applied to the point, the translation added. *)
Definition apply_affine (aff : mat4) (p : point) : point :=
  drop_last (mat_vec aff (homogeneous p)).

(** The loop that cuts the stacked points back into streamlines:
    [new_points[start: start + len(tract)]] for every tract, a slice that
    reaches past the end being cut short. *)
Fixpoint split_tracts (start : nat) (new_points : list point)
    (original_tracts : list tract) : list tract :=
  match original_tracts with
  | [] => []
  | tract :: rest =>
      take (length tract) (drop start new_points)
      :: split_tracts (start + length tract) new_points rest
  end.

Section AffineTransform.
Variable linalg_inv : mat4 → outcome mat4.

(** The streamlines of the result, with the affine and the dimensions it
    is given, those of the reference image; the data are handed on as
    they are.  [tracts] are the streamlines the points are read from and
    [original_tracts] those that give the lengths of the slices. *)
Definition tract_affine_transform (tracts original_tracts : list tract)
    (transform : mat4) (ref_image : image) (invert : bool)
  : outcome (list tract * (mat4 * (nat * nat * nat))) :=
  transform ← (if invert then linalg_inv transform else Returns transform);
  orig_points ← vstack tracts;
  let new_points := apply_affine transform <$> (orig_points : list point) in
  Returns (split_tracts 0 new_points original_tracts,
           (image_affine ref_image, image_shape ref_image)).

End AffineTransform.

(** ** The table of endpoints *)

(** The columns ['tract #'], ['x'], ['y'] and ['z']. *)
Record endpoint_table : Type := EndpointTable {
  column_tract : list nat;
  column_x : list Qc;
  column_y : list Qc;
  column_z : list Qc
}.

(** [tract[(0, -1), c]]: the first and the last row. *)
Definition first_and_last (tract : tract) : outcome (point * point) :=
  match head tract, last tract with
  | Some a, Some b => Returns (a, b)
  | _, _ => Raises IndexError
  end.

Definition dump_endpoints_step (res : endpoint_table) (it : nat * tract)
  : outcome endpoint_table :=
  let '(i, tract) := it in
  ends ← first_and_last tract;
  let '((x0, y0, z0), (x1, y1, z1)) := (ends : point * point) in
  Returns (EndpointTable (column_tract res ++ [i; i])
                         (column_x res ++ [x0; x1])
                         (column_y res ++ [y0; y1])
                         (column_z res ++ [z0; z1])).

Definition tract_dump_endpoints (tracts : list tract)
  : outcome endpoint_table :=
  ofoldl dump_endpoints_step (EndpointTable [] [] [] [])
         (imap (λ i tract, (i, tract)) tracts).

(** The rows of a table. *)
Definition rows (res : endpoint_table) : list (nat * point) :=
  zip (column_tract res)
      (zip (zip (column_x res) (column_y res)) (column_z res)).

(** All the columns of a table have [n] entries. *)
Definition balanced (res : endpoint_table) (n : nat) : Prop :=
  length (column_tract res) = n ∧ length (column_x res) = n ∧
  length (column_y res) = n ∧ length (column_z res) = n.

(** The rows the streamlines [ts], numbered from [k], are to give: two for
    each, with its first and its last point. *)
Definition end_rows (k : nat) (ts : list tract) : list (nat * point) :=
  concat (imap (λ i t, [((k + i)%nat, default (0, 0, 0)%Qc (head t));
                        ((k + i)%nat, default (0, 0, 0)%Qc (last t))]) ts).

(** ** Lengths

    The length of a streamline takes square roots, so the coordinates are
    real numbers here, as for the smoothing. *)

Module Lengths.
Import Smoothing.
Local Open Scope R_scope.

#[global] Instance Rlt_decision : RelDecision Rlt := Rlt_dec.

(** [numpy.sqrt((numpy.diff(tract, axis=0) ** 2).sum(1)).sum()] *)
Definition tract_length (tract : list rpoint) : R :=
  rsum ((λ d, sqrt (sq_norm d)) <$> diff tract).

(** [a.min()] and [a.max()] of an array of numbers; an empty array has
    neither. *)
Definition array_rmin (a : list R) : outcome R :=
  match a with
  | [] => Raises ValueError
  | x :: l => Returns (foldl Rmin x l)
  end.
Definition array_rmax (a : list R) : outcome R :=
  match a with
  | [] => Raises ValueError
  | x :: l => Returns (foldl Rmax x l)
  end.

(** The two numbers [tract_point_distance_min_max] prints.  [dist] is the
    number [tract_length] returns, and the minimum and the maximum of a
    number are the number. *)
Definition tract_point_distance_min_max (tracts : list (list rpoint))
  : outcome (R * R) :=
  let dist_min := (λ tract, let dist := tract_length tract in dist) <$> tracts in
  let dist_max := (λ tract, let dist := tract_length tract in dist) <$> tracts in
  mn ← array_rmin dist_min;
  mx ← array_rmax dist_max;
  Returns (mn, mx).

(** [l[i]] for an index that is not negative. *)
Definition index {A} (l : list A) (i : nat) : outcome A :=
  match l !! i with
  | Some x => Returns x
  | None => Raises IndexError
  end.

Section Data.
(** The data of a tractography: a dictionary from the name of a quantity
    to the list of its items; [K] is the type of the names and [D] that of
    the items. *)
Context {K : Type} `{Countable K} {D : Type}.

Definition tract_ix_to_keep (tracts : list (list rpoint))
    (min_tract_length : R) : list nat :=
  fst <$> filter (λ it, min_tract_length < tract_length it.2)
                 (imap (λ i tract, (i, tract)) tracts).

(** One turn of the loop over [data.items()]. *)
Definition select_data (tracts : list (list rpoint)) (ix : list nat)
    (selected_data : gmap K (list D)) (entry : K * list D)
  : outcome (gmap K (list D)) :=
  let '(key, item) := entry in
  if decide (length item = length tracts) then
    selected_data_items ← omap (index item) ix;
    Returns (<[key := selected_data_items]> selected_data)
  else Returns (<[key := item]> selected_data).

(** The streamlines and the data of the result; the other arguments of
    the tractography are handed on as they are. *)
Definition tract_remove_short_tracts (tracts : list (list rpoint))
    (data : gmap K (list D)) (min_tract_length : R)
  : outcome (list (list rpoint) * gmap K (list D)) :=
  let tract_ix_to_keep := tract_ix_to_keep tracts min_tract_length in
  selected_tracts ← omap (index tracts) tract_ix_to_keep;
  selected_data ←
    ofoldl (select_data tracts tract_ix_to_keep) ∅ (map_to_list data);
  Returns (selected_tracts, selected_data).

(** What the operation is to keep of the items of one quantity: when
    there is one item for each tract, the items of the tracts longer than
    the threshold, and all the items otherwise. *)
Definition kept_items (tracts : list (list rpoint)) (min_tract_length : R)
    (item : list D) : list D :=
  if decide (length item = length tracts) then
    snd <$> filter (λ x, min_tract_length < tract_length x.1) (zip tracts item)
  else item.

End Data.

(** Two streamlines for the examples: a straight one of length 2 and a
    single point; and the data of one quantity for them. *)
Definition two_tracts : list (list rpoint) := [straight; [(0, 0, 0)]].
Definition two_data : gmap nat (list nat) := {[ 0%nat := [7%nat; 8%nat] ]}.
Definition short_store : gmap nat (list rpoint) :=
  {[ 0%nat := straight; 1%nat := [(0, 0, 0)] ]}.

End Lengths.

(** Further examples: two voxel sets that lie in one plane, and two
    tractographies with the same points. *)
Definition flat_A : gset voxel := {[ (0, 0, 0) ]}.
Definition flat_B : gset voxel := {[ (1, 1, 0) ]}.
Definition same_points_1 : list tract := [[(0, 0, 0)%Qc; (1, 0, 0)%Qc]].
Definition same_points_2 : list tract :=
  [[(1, 0, 0)%Qc]; [(0, 0, 0)%Qc; (1, 0, 0)%Qc]].

(** The union of the probability maps of the example tractography taken
    twice, and that of an empty tractography followed by the example. *)
Definition example_union : grid :=
  default (zeros (image_shape example_image))
    (option_of (tract_generate_probability_map cramer_solve cramer_inv
                  [example_tracts; example_tracts] example_image)).
Definition example_spoiled : grid :=
  default (zeros (image_shape example_image))
    (option_of (tract_generate_probability_map cramer_solve cramer_inv
                  [[]; example_tracts] example_image)).

(** * Properties *)

(** ** Outcomes and numbers *)

Lemma vstack_nonempty {A} (arrays : list (list A)) :
  arrays ≠ [] → vstack arrays = Returns (concat arrays).
Proof. destruct arrays; [done|reflexivity]. Qed.


Lemma omap_returns {A} (f : A → outcome A) (l : list A) :
  (∀ a, a ∈ l → f a = Returns a) → omap f l = Returns l.
Proof.
  induction l as [|a l IH]; intros H; [reflexivity|]. cbn [omap].
  rewrite H by left. cbn [mbind outcome_bind].
  rewrite IH by (intros; apply H; by right). reflexivity.
Qed.

Lemma ofoldl_app {A B} (f : A → B → outcome A) (a : A) (l1 l2 : list B) :
  ofoldl f a (l1 ++ l2) = (a' ← ofoldl f a l1; ofoldl f a' l2).
Proof.
  revert a. induction l1 as [|b l1 IH]; intros a; [reflexivity|].
  cbn [app ofoldl].
  destruct (f a b); cbn [mbind outcome_bind]; [apply IH|reflexivity].
Qed.

Lemma fmul_1_r (x : float64) : fmul x (Finite 1%Qc) = x.
Proof. destruct x; simpl; try reflexivity. by rewrite Qcmult_1_r. Qed.

Lemma Qc_of_Z_mult (a b : Z) : Qc_of_Z (a * b) = (Qc_of_Z a * Qc_of_Z b)%Qc.
Proof. apply Qc_is_canon. simpl. rewrite Qred_correct. reflexivity. Qed.

Lemma Qc_of_Z_le (a b : Z) : a ≤ b → (Qc_of_Z a ≤ Qc_of_Z b)%Qc.
Proof. intros H. unfold Qcle, Qle. simpl. lia. Qed.

Lemma Qc_of_Z_eq_0 (n : Z) : Qc_of_Z n = 0%Qc → n = 0.
Proof. intros H. apply (f_equal (λ q : Qc, Qnum q)) in H. exact H. Qed.

(** Rounding an integer and converting it back loses nothing. *)
Lemma astype_int_fround (q : Qc) :
  astype_int (fround (Finite q)) = round_half_even q.
Proof. unfold fround, of_int, astype_int, trunc. simpl. apply Z.quot_1_r. Qed.

Lemma Qc_of_Z_ne_0 (n : Z) : n ≠ 0 → Qc_of_Z n ≠ 0%Qc.
Proof. intros H E. by apply Qc_of_Z_eq_0 in E. Qed.

Lemma Qc_of_Z_plus (a b : Z) : Qc_of_Z (a + b) = (Qc_of_Z a + Qc_of_Z b)%Qc.
Proof.
  apply Qc_is_canon. simpl. rewrite Qred_correct.
  unfold Qeq, Qplus. simpl. lia.
Qed.

Lemma Qc_of_Z_0 : Qc_of_Z 0 = 0%Qc.
Proof. by apply Qc_is_canon. Qed.

Lemma Qc_of_Z_div_bounds (a b : Z) :
  0 ≤ a ≤ b → 0 < b → (0 ≤ Qc_of_Z a / Qc_of_Z b ≤ 1)%Qc.
Proof.
  intros Hab Hb. unfold Qcle, Qcdiv, Qcmult, Qcinv. simpl.
  rewrite !Qred_correct.
  destruct b as [|b|b]; try lia. unfold Qinv, Qmult, Qle. simpl.
  rewrite Pos.mul_1_l. lia.
Qed.

Lemma Qcmult_ne_0 (x y : Qc) : x ≠ 0%Qc → y ≠ 0%Qc → (x * y)%Qc ≠ 0%Qc.
Proof. intros Hx Hy [H|H]%Qcmult_integral; done. Qed.

Lemma fdiv_finite (x y : Qc) :
  y ≠ 0%Qc → fdiv (Finite x) (Finite y) = Finite (x / y)%Qc.
Proof. intros H. unfold fdiv. by rewrite decide_False. Qed.

Lemma omap_length {A B} (f : A → outcome B) (l : list A) (l' : list B) :
  omap f l = Returns l' → length l' = length l.
Proof.
  revert l'. induction l as [|a l IH]; intros l'; cbn [omap].
  - by intros [= <-].
  - destruct (f a); cbn [mbind outcome_bind]; [|discriminate].
    destruct (omap f l); cbn [mbind outcome_bind]; [|discriminate].
    intros [= <-]. cbn [length]. by rewrite (IH _ eq_refl).
Qed.

(** ** Volume estimate *)

Lemma neighbors_list_NoDup (v : voxel) : NoDup (v :: neighbors_list v).
Proof.
  destruct v as [[x y] z]. unfold neighbors_list, neighbors; simpl.
  repeat (apply NoDup_cons; split;
    [ rewrite ?elem_of_cons, elem_of_nil; intros H;
      repeat destruct H as [H|H]; try done; injection H; lia | ]).
  apply NoDup_nil_2.
Qed.


Lemma neighbors_list_size (v : voxel) :
  size (list_to_set (neighbors_list v) : gset voxel) = 6%nat.
Proof.
  rewrite size_list_to_set; [done|].
  pose proof (neighbors_list_NoDup v) as H. by apply NoDup_cons in H as [_ H].
Qed.

(** The test of the loop holds exactly when all six neighbours are
    occupied. *)
Lemma interior_test (voxels : gset voxel) (v : voxel) :
  size (voxels ∩ list_to_set (neighbors_list v)) = length neighbors
  ↔ interior voxels v.
Proof.
  change (length neighbors) with 6%nat. unfold interior. split.
  - intros Hsz n Hn.
    assert (Hsub : voxels ∩ list_to_set (neighbors_list v)
                   ⊆ list_to_set (neighbors_list v))
      by apply intersection_subseteq_r.
    assert (Hin : n ∈ voxels ∩ list_to_set (neighbors_list v)).
    { destruct (decide (n ∈ voxels ∩ list_to_set (neighbors_list v)))
        as [?|Hnot]; [done|exfalso].
      assert (Hlt : voxels ∩ list_to_set (neighbors_list v)
                    ⊂ list_to_set (neighbors_list v)).
      { split; [done|]. intros Hrev. apply Hnot, Hrev.
        by apply elem_of_list_to_set. }
      apply subset_size in Hlt. rewrite neighbors_list_size in Hlt. lia. }
    by apply elem_of_intersection in Hin as [? _].
  - intros Hall. rewrite <- (neighbors_list_size v). f_equal.
    apply set_eq. intros n.
    rewrite elem_of_intersection, elem_of_list_to_set.
    split; [by intros [_ ?]|]. intros Hn. split; [by apply Hall|done].
Qed.

Lemma volume_fold (voxels : gset voxel) (l : list voxel)
    (D E : gset voxel) (x : voxel) :
  (x ∈ (foldl (volume_step voxels) (D, E) l).1
     ↔ x ∈ D ∨ ∃ v, v ∈ l ∧ x ∈ neighbors_list v) ∧
  (x ∈ (foldl (volume_step voxels) (D, E) l).2
     ↔ x ∈ E ∨ (x ∈ l ∧ interior voxels x)).
Proof.
  revert D E. induction l as [|v l IH]; intros D E; cbn [foldl].
  - cbn [fst snd]. split; split; try tauto.
    + intros [?|(v & Hv%elem_of_nil & _)]; done.
    + intros [?|[Hv%elem_of_nil _]]; done.
  - assert (Hnb : ∀ D' : gset voxel,
      (x ∈ D' ∪ list_to_set (neighbors_list v)
         ∨ ∃ w, w ∈ l ∧ x ∈ neighbors_list w)
      ↔ x ∈ D' ∨ ∃ w, w ∈ v :: l ∧ x ∈ neighbors_list w).
    { intros D'. rewrite elem_of_union, elem_of_list_to_set. split.
      - intros [[?|?]|(w & Hw & Hx)];
          [by left|right; exists v|right; exists w];
          (split; [|done]); [left|by right].
      - intros [?|(w & [->|Hw]%elem_of_cons & Hx)];
          [by left; left|by left; right|right; by exists w]. }
    unfold volume_step at 2 4.
    destruct (decide (size (voxels ∩ list_to_set (neighbors_list v))
                      = length neighbors)) as [Hi|Hi];
      rewrite interior_test in Hi;
      match goal with |- context [foldl _ (?D', ?E') l] =>
        destruct (IH D' E') as [IH1 IH2]; rewrite IH1, IH2; clear IH1 IH2 end;
      (split; [apply Hnb|]).
    + rewrite elem_of_union, elem_of_singleton, elem_of_cons. split.
      * intros [[?| ->]|[? ?]];
          [by left|right; split; [by left|done]
          |right; split; [by right|done]].
      * intros [?|[[ ->|?] ?]]; [by left; left|by left; right|by right].
    + rewrite elem_of_cons. split.
      * intros [?|[? ?]]; [by left|right; split; [by right|done]].
      * intros [?|[[ ->|?] ?]]; [by left|done|by right].
Qed.

Lemma dilate_erode_elem (voxels : gset voxel) (x : voxel) :
  (x ∈ (dilate_erode voxels).1
     ↔ x ∈ voxels ∨ ∃ v, v ∈ voxels ∧ x ∈ neighbors_list v) ∧
  (x ∈ (dilate_erode voxels).2 ↔ x ∈ voxels ∧ interior voxels x).
Proof.
  unfold dilate_erode.
  destruct (volume_fold voxels (elements voxels) (∅ ∪ voxels) ∅ x)
    as [H1 H2]. rewrite H1, H2. clear H1 H2.
  rewrite (left_id_L ∅ (∪)). setoid_rewrite elem_of_elements.
  split; [done|]. rewrite elem_of_empty. tauto.
Qed.



(** The same through the whole operation: one point at resolution 2. *)
Example tract_volume_single_point :
  tract_volume [[(1, 1, 1)%Qc]] (Finite (Q2Qc 2)) = Returns (Finite (Q2Qc 28)).
Proof. by_compute. Qed.

(** ** Voxelizer *)



(** At resolution 0 numpy divides without raising and the cast of the
    infinities gives the least integer. *)
Example zero_resolution_voxelizes :
  voxelized_tract [[(1, 1, 1)%Qc]] (Finite 0%Qc)
    = Returns {[ (INT64_MIN, INT64_MIN, INT64_MIN) ]}.
Proof. by_compute. Qed.








(** Beyond the range of the doubles the cube of the resolution raises. *)
Example tract_volume_overflow :
  tract_volume [[(1, 1, 1)%Qc]] (Finite (Qc_of_Z (2 ^ 400)))
  = Raises OverflowError.
Proof. by_compute. Qed.

(** ** Dice *)

(** C6, as stated, fails: with two empty voxel sets the division raises
    [ZeroDivisionError]; no NaN is returned. *)
Lemma dice_of_empty_sets :
  dice_coefficient ∅ ∅ = Raises ZeroDivisionError ∧
  dice_coefficient ∅ ∅ ≠ Returns NaN ∧
  tract_dice [[]] (Finite 1%Qc) [[[]]] = Raises ZeroDivisionError.
Proof. split; [|split]; [by_compute|discriminate|by_compute]. Qed.

(** C6, amended: for two voxel sets that are not both empty Dice returns
    [2|A∩B| / (|A|+|B|)]; when both are empty it raises
    [ZeroDivisionError]. *)
Theorem dice_coefficient_formula (A B : gset voxel) :
  (A ≠ ∅ ∨ B ≠ ∅ →
   dice_coefficient A B =
     Returns (Finite (Qc_of_Z (2 * Z.of_nat (size (A ∩ B)))
                      / Qc_of_Z (Z.of_nat (size A) + Z.of_nat (size B)))%Qc)) ∧
  (A = ∅ → B = ∅ → dice_coefficient A B = Raises ZeroDivisionError).
Proof.
  split.
  - intros Hne. unfold dice_coefficient, py_div.
    assert (Z.of_nat (size A) + Z.of_nat (size B) ≠ 0).
    { assert (size A ≠ 0%nat ∨ size B ≠ 0%nat) as [?|?]; [|lia..].
      destruct Hne as [H|H]; [left|right]; apply size_non_empty_iff;
        by intros ?%leibniz_equiv. }
    case_decide; [done|]. rewrite fmul_1_r. unfold fdiv, of_int.
    case_decide as Hz; [|done]. by apply Qc_of_Z_eq_0 in Hz.
  - intros -> ->. reflexivity.
Qed.

Lemma dice_coefficient_formula_witness :
  dice_coefficient example_A example_B =
    Returns (Finite (Qc_of_Z (2 * Z.of_nat (size (example_A ∩ example_B)))
                     / Qc_of_Z (Z.of_nat (size example_A)
                                + Z.of_nat (size example_B)))%Qc).
Proof.
  apply (proj1 (dice_coefficient_formula _ _)). right.
  intros H. apply (f_equal size) in H. vm_compute in H. discriminate H.
Defined.

(** The value of that example: two fifths. *)
Example dice_two_thirds :
  dice_coefficient example_A example_B = Returns (Finite (Q2Qc (2 # 5))).
Proof. by_compute. Qed.

(** ** Kappa *)

Lemma voxel_ext (u v : voxel) : (∀ a, coord a u = coord a v) → u = v.
Proof.
  destruct u as [[a b] c], v as [[x y] z]. intros H.
  pose proof (H AxisX). pose proof (H AxisY). pose proof (H AxisZ).
  simpl in *. congruence.
Qed.

Section ColumnFold.
Variable f : Z → Z → Z.

Lemma coord_step a (u v : voxel) :
  coord a ((λ '(a, b, c) '(x, y, z), (f a x, f b y, f c z)) u v)
  = f (coord a u) (coord a v).
Proof. destruct u as [[? ?] ?], v as [[? ?] ?], a; reflexivity. Qed.

Lemma coord_foldl a l (v : voxel) :
  coord a (foldl (λ '(a, b, c) '(x, y, z), (f a x, f b y, f c z)) v l)
  = foldl f (coord a v) (coord a <$> l).
Proof.
  revert v. induction l as [|w l IH]; intros v; [reflexivity|].
  cbn [foldl fmap list_fmap]. rewrite IH, coord_step. reflexivity.
Qed.
End ColumnFold.

Lemma foldl_max_bound (l : list Z) (m : Z) :
  (∀ x, x ∈ m :: l → x ≤ foldl Z.max m l) ∧ foldl Z.max m l ∈ m :: l.
Proof.
  revert m. induction l as [|y l IH]; intros m; cbn [foldl].
  - split; [|left]. intros x ->%list_elem_of_singleton. lia.
  - destruct (IH (Z.max m y)) as [Hb Hin]. split.
    + intros x Hx. assert (Z.max m y ≤ foldl Z.max (Z.max m y) l)
        by (apply Hb; left).
      apply elem_of_cons in Hx as [->|Hx]; [lia|].
      apply elem_of_cons in Hx as [->|Hx]; [lia|].
      apply Hb. by right.
    + apply elem_of_cons in Hin as [Hin|Hin]; [|by do 2 right].
      rewrite Hin. destruct (Z.max_spec m y) as [[_ ->]|[_ ->]];
        [right; left|left].
Qed.

Lemma foldl_min_bound (l : list Z) (m : Z) :
  (∀ x, x ∈ m :: l → foldl Z.min m l ≤ x) ∧ foldl Z.min m l ∈ m :: l.
Proof.
  revert m. induction l as [|y l IH]; intros m; cbn [foldl].
  - split; [|left]. intros x ->%list_elem_of_singleton. lia.
  - destruct (IH (Z.min m y)) as [Hb Hin]. split.
    + intros x Hx. assert (foldl Z.min (Z.min m y) l ≤ Z.min m y)
        by (apply Hb; left).
      apply elem_of_cons in Hx as [->|Hx]; [lia|].
      apply elem_of_cons in Hx as [->|Hx]; [lia|].
      apply Hb. by right.
    + apply elem_of_cons in Hin as [Hin|Hin]; [|by do 2 right].
      rewrite Hin. destruct (Z.min_spec m y) as [[_ ->]|[_ ->]];
        [left|right; left].
Qed.

(** The column-wise maximum and minimum of the elements of a set are the
    corners of its bounding box. *)
Lemma bounding_box_elements (S : gset voxel) (lo hi : voxel) :
  is_bounding_box S lo hi →
  array_max (elements S) = Returns hi ∧ array_min (elements S) = Returns lo.
Proof.
  intros Hbox.
  destruct (elements S) as [|v l] eqn:Hel.
  { destruct (Hbox AxisX) as (_ & (w & Hw & _) & _).
    apply elem_of_elements in Hw. rewrite Hel in Hw.
    by apply elem_of_nil in Hw. }
  assert (Hmem : ∀ a x, x ∈ coord a v :: (coord a <$> l) ↔
                        ∃ w, w ∈ S ∧ coord a w = x).
  { intros a x. rewrite <- (fmap_cons (coord a)), list_elem_of_fmap.
    rewrite <- Hel. split; intros (w & H1 & H2); exists w;
      rewrite ?elem_of_elements in *; auto. }
  unfold array_max, array_min, column_fold.
  split; f_equal; apply voxel_ext; intros a; rewrite coord_foldl;
    destruct (Hbox a) as (Hb & (wl & Hwl & El) & (wh & Hwh & Eh)).
  - destruct (foldl_max_bound (coord a <$> l) (coord a v)) as [Hmax Hin].
    apply Hmem in Hin as (w & Hw & Ew).
    pose proof (Hb w Hw). specialize (Hmax (coord a hi)).
    rewrite Hmem in Hmax. specialize (Hmax (ex_intro _ wh (conj Hwh Eh))).
    lia.
  - destruct (foldl_min_bound (coord a <$> l) (coord a v)) as [Hmin Hin].
    apply Hmem in Hin as (w & Hw & Ew).
    pose proof (Hb w Hw). specialize (Hmin (coord a lo)).
    rewrite Hmem in Hmin. specialize (Hmin (ex_intro _ wl (conj Hwl El))).
    lia.
Qed.

(** [int64] arithmetic: a number in the range is kept, and wrapping
    commutes with the product. *)
Lemma wrap64_small (z : Z) : - 2 ^ 63 ≤ z < 2 ^ 63 → wrap64 z = z.
Proof. intros H. unfold wrap64. rewrite Z.mod_small; lia. Qed.

Lemma wrap64_mod (z : Z) : wrap64 z mod 2 ^ 64 = z mod 2 ^ 64.
Proof.
  unfold wrap64. rewrite Zminus_mod_idemp_l. f_equal. lia.
Qed.

Lemma wrap64_mod_eq (a b : Z) :
  a mod 2 ^ 64 = b mod 2 ^ 64 → wrap64 a = wrap64 b.
Proof.
  intros H. unfold wrap64.
  by rewrite <- (Zplus_mod_idemp_l a), <- (Zplus_mod_idemp_l b), H.
Qed.

Lemma mul64_wrap (a b : Z) : mul64 (wrap64 a) (wrap64 b) = wrap64 (a * b).
Proof.
  apply wrap64_mod_eq.
  by rewrite Zmult_mod, !wrap64_mod, <- Zmult_mod.
Qed.

Lemma prod3_extent (lo hi : voxel) :
  prod3 hi lo = wrap64 (extent_product lo hi).
Proof.
  destruct lo as [[? ?] ?], hi as [[? ?] ?].
  unfold prod3, extent_product, sub64. cbn [coord].
  by rewrite !mul64_wrap.
Qed.

Lemma prod3_square (lo hi : voxel) :
  mul64 (prod3 hi lo) (prod3 hi lo)
  = wrap64 (extent_product lo hi * extent_product lo hi).
Proof. rewrite prod3_extent. apply mul64_wrap. Qed.

(** The kappa of two voxel sets through the arithmetic on floats. *)
Lemma kappa_value_unfold (A B : gset voxel) :
  kappa_value A B =
    (mx ← array_max (elements (A ∪ B));
     mn ← array_min (elements (A ∪ B));
     Returns (kappa_float (of_int (prod3 mx mn))
                (of_int (mul64 (prod3 mx mn) (prod3 mx mn)))
                (of_len (size (A ∩ B))) (of_len (size (A ∖ B)))
                (of_len (size (B ∖ A))))).
Proof.
  unfold kappa_value.
  destruct (array_max _) as [mx|]; [|done].
  destruct (array_min _) as [mn|]; [|done].
  cbn [mbind outcome_bind]. by rewrite !fmul_1_r.
Qed.

Lemma kappa_value_box (A B : gset voxel) (lo hi : voxel) :
  is_bounding_box (A ∪ B) lo hi →
  kappa_value A B =
    Returns (kappa_float
               (of_int (wrap64 (extent_product lo hi)))
               (of_int (wrap64 (extent_product lo hi
                                * extent_product lo hi)))
               (of_len (size (A ∩ B))) (of_len (size (A ∖ B)))
               (of_len (size (B ∖ A)))).
Proof.
  intros [Hmx Hmn]%bounding_box_elements.
  rewrite kappa_value_unfold, Hmx, Hmn. cbn [mbind outcome_bind].
  by rewrite prod3_square, prod3_extent.
Qed.

Lemma kappa_float_finite (n a b c : Qc) :
  n ≠ 0%Qc → chance_agreement n a b c ≠ 1%Qc →
  kappa_float (Finite n) (Finite (n * n)) (Finite a) (Finite b) (Finite c)
  = Finite (kappa_rational n a b c).
Proof.
  intros Hn Hch. unfold kappa_float. cbn [fsub fadd fneg fmul].
  rewrite !fdiv_finite by (done || by apply Qcmult_ne_0).
  cbn [fsub fadd fneg].
  rewrite fdiv_finite; [reflexivity|].
  intros H. apply Hch. unfold chance_agreement, Qcminus.
  set (ch := (_ / (n * n))%Qc) in *.
  rewrite <- (Qcplus_0_r ch), <- H. ring.
Qed.

(** C1, amended: for voxel sets [A] and [B] that are not both empty, with
    [N] the product of the extents of the bounding box of their union,
    [pp = |A∩B|], [pn = |A\B|] and [np = |B\A|]: when [N] is not zero, its
    square is within [int64] and the chance agreement is not 1, kappa is
    the number [(observed - chance) / (1 - chance)] of the specification.
    For two empty sets the operation raises [ValueError]. *)
Theorem kappa_value_formula (A B : gset voxel) (lo hi : voxel) :
  (is_bounding_box (A ∪ B) lo hi →
   extent_product lo hi ≠ 0 →
   extent_product lo hi * extent_product lo hi < 2 ^ 63 →
   chance_agreement (Qc_of_Z (extent_product lo hi))
     (card (A ∩ B)) (card (A ∖ B)) (card (B ∖ A)) ≠ 1%Qc →
   kappa_value A B =
     Returns (Finite (kappa_rational (Qc_of_Z (extent_product lo hi))
                        (card (A ∩ B)) (card (A ∖ B)) (card (B ∖ A))))) ∧
  (A = ∅ → B = ∅ → kappa_value A B = Raises ValueError).
Proof.
  split.
  - intros Hbox HN Hsq Hch. rewrite (kappa_value_box A B lo hi Hbox).
    set (N := extent_product lo hi) in *.
    rewrite !wrap64_small by nia. f_equal.
    unfold of_int, of_len. rewrite Qc_of_Z_mult.
    apply kappa_float_finite; [by apply Qc_of_Z_ne_0|done].
  - intros -> ->. reflexivity.
Qed.

Lemma example_bounding_box :
  is_bounding_box (example_A ∪ example_B) (0, 0, 0) (2, 3, 2).
Proof.
  unfold example_A, example_B. intros a. split; [|split].
  - intros v Hv. rewrite !elem_of_union, !elem_of_singleton in Hv.
    destruct Hv as [[[->| ->]| ->]|[->| ->]]; destruct a; simpl; lia.
  - exists (0, 0, 0). split; [set_solver|by destruct a].
  - destruct a; [exists (2, 2, 2)|exists (1, 3, 1)|exists (2, 2, 2)];
      (split; [set_solver|reflexivity]).
Defined.

Lemma kappa_value_formula_witness :
  kappa_value example_A example_B =
    Returns (Finite (kappa_rational
                       (Qc_of_Z (extent_product (0, 0, 0) (2, 3, 2)))
                       (card (example_A ∩ example_B))
                       (card (example_A ∖ example_B))
                       (card (example_B ∖ example_A)))).
Proof.
  apply (proj1 (kappa_value_formula example_A example_B
                  (0, 0, 0) (2, 3, 2))).
  - exact example_bounding_box.
  - by_compute.
  - reflexivity.
  - by_compute.
Defined.

(** C1, as stated, fails.  Two empty voxel sets have no bounding box and
    the operation raises.  And for the two voxels of [wide], compared with
    themselves, [N] is [2^32]: the formula of the specification gives 1,
    but [N * N] wraps around to 0 in [int64] and the operation returns
    NaN. *)
Lemma kappa_outside_the_formula :
  kappa_value ∅ ∅ = Raises ValueError ∧
  extent_product (0, 0, 0) (2048, 2048, 1024) = 2 ^ 32 ∧
  kappa_formula (of_int (2 ^ 32)) (of_len (size (wide ∩ wide)))
                (of_len (size (wide ∖ wide))) (of_len (size (wide ∖ wide)))
  = Finite 1%Qc ∧
  kappa_value wide wide = Returns NaN.
Proof. repeat split; by_compute. Qed.

(** The value there: [N = 12], [pp = 1], [pn = 2], [np = 1], so the observed
    agreement is 3/4, the chance agreement 2/3 and kappa 1/4. *)
Example kappa_one_quarter :
  kappa_value example_A example_B = Returns (Finite (Q2Qc (1 # 4))).
Proof. by_compute. Qed.

(** A voxel set that lies in a plane has a box of volume zero; numpy then
    divides by zero without raising and kappa is NaN. *)
Example kappa_flat_box :
  kappa_value {[ (0, 0, 0); (1, 1, 0) ]} {[ (0, 0, 0) ]} = Returns NaN.
Proof. by_compute. Qed.

(** ** Bhattacharyya *)

(** The running maximum does not enter the next one: the loop takes the
    maximum of the running minimum and the maxima of the new points. *)
Lemma range_step_forgets_maximum (mn_ mx1 mx2 : point) (pts : list point) :
  range_step (mn_, mx1) pts = range_step (mn_, mx2) pts.
Proof. reflexivity. Qed.

(** C2: the reference reaches [x = 10] and the comparison tract [x = 1];
    the range the histograms share ends at [x = 1], not at the maximum of
    the maxima. *)
Theorem bhattacharyya_range_drops_reference_maximum :
  points_max (concat reference_tracts) = Returns (Qc_of_Z 10, 0, 0)%Qc ∧
  points_max (concat comparison_tracts) = Returns (1, 0, 0)%Qc ∧
  bhattacharyya_range reference_tracts [comparison_tracts]
    = Returns ((0, 0, 0)%Qc, (1, 0, 0)%Qc).
Proof. repeat split; by_compute. Qed.

(** At resolution 1 that range gets one bin on the first axis and none on
    the other two. *)
Example bhattacharyya_bins_example :
  bhattacharyya_bins ((0, 0, 0)%Qc, (1, 0, 0)%Qc) (Finite 1%Qc)
  = (of_int 1, of_int 0, of_int 0).
Proof. by_compute. Qed.

(** [nan_to_num] sends NaN to 0 and an infinity to a finite double. *)
Example nan_to_num_values :
  nan_to_num NaN = Finite 0%Qc ∧ nan_to_num PInf = Finite DBL_MAX.
Proof. split; reflexivity. Qed.

(** ** Rasterizer *)

Lemma elem_of_indices shape c : c ∈ indices shape ↔ in_bounds shape c.
Proof.
  destruct shape as [[nx ny] nz], c as [[i j] k]. unfold indices, in_bounds.
  rewrite list_elem_of_bind. split.
  - intros (i' & Hc & Hi). apply list_elem_of_bind in Hc as (j' & Hc & Hj).
    apply list_elem_of_bind in Hc as (k' & Hc & Hk).
    apply list_elem_of_singleton in Hc. injection Hc as -> -> ->.
    rewrite !elem_of_seqZ in *. lia.
  - intros (Hi & Hj & Hk). exists i. split; [|apply elem_of_seqZ; lia].
    apply list_elem_of_bind. exists j. split; [|apply elem_of_seqZ; lia].
    apply list_elem_of_bind. exists k. split; [|apply elem_of_seqZ; lia].
    by apply list_elem_of_singleton.
Qed.

Lemma zeros_lookup shape c :
  grid_cells (zeros shape) !! c
  = if decide (c ∈ indices shape) then Some (Finite 0%Qc) else None.
Proof.
  unfold zeros. cbn [grid_cells]. rewrite lookup_gset_to_gmap.
  case_decide as H.
  - rewrite option_guard_True; [done|]. by apply elem_of_list_to_set.
  - rewrite option_guard_False; [done|]. by rewrite elem_of_list_to_set.
Qed.

Lemma foldl_insert_lookup (m : gmap voxel float64) (cs : list voxel)
    (v : float64) (c : voxel) :
  foldl (λ m c, <[c := v]> m) m cs !! c
  = if decide (c ∈ cs) then Some v else m !! c.
Proof.
  revert m. induction cs as [|c' cs IH]; intros m; cbn [foldl].
  - case_decide as H; [by apply elem_of_nil in H|done].
  - rewrite IH. destruct (decide (c ∈ cs)) as [Hin|Hnin].
    + rewrite decide_True; [done|by right].
    + destruct (decide (c = c')) as [->|Hne].
      * rewrite decide_True by left. apply lookup_insert_eq.
      * rewrite decide_False by (rewrite elem_of_cons; tauto).
        by apply lookup_insert_ne.
Qed.

Lemma qmax_le_r a b : (b ≤ qmax a b)%Qc.
Proof.
  unfold qmax. case_decide as H; [apply Qcle_refl|].
  apply Qclt_le_weak. by apply Qcnot_le_lt.
Qed.

Lemma qmin_le_r a b : (qmin a b ≤ b)%Qc.
Proof. unfold qmin. case_decide as H; [done|apply Qcle_refl]. Qed.

Lemma qmin_glb a b c : (c ≤ a)%Qc → (c ≤ b)%Qc → (c ≤ qmin a b)%Qc.
Proof. unfold qmin. by case_decide. Qed.

Lemma clip_bounds (lo hi x : Qc) : (lo ≤ hi)%Qc → (lo ≤ clip lo hi x ≤ hi)%Qc.
Proof.
  intros H. unfold clip. split; [|apply qmin_le_r].
  apply qmin_glb; [apply qmax_le_r|done].
Qed.

Lemma qmin_l a b : (a ≤ b)%Qc → qmin a b = a.
Proof. intros H. unfold qmin. by rewrite decide_True. Qed.

Lemma qmin_r a b : (b ≤ a)%Qc → qmin a b = b.
Proof.
  intros H. unfold qmin. case_decide; [by apply Qcle_antisym|done].
Qed.

Lemma qmax_l a b : (b ≤ a)%Qc → qmax a b = a.
Proof.
  intros H. unfold qmax. case_decide; [by apply Qcle_antisym|done].
Qed.

Lemma qmax_r a b : (a ≤ b)%Qc → qmax a b = b.
Proof. intros H. unfold qmax. by rewrite decide_True. Qed.

(** Clipping is a clamp: a value inside the interval stays, one below
    becomes the lower end and one above the upper end. *)
Lemma clip_spec (lo hi x : Qc) :
  (lo ≤ hi)%Qc →
  ((lo ≤ x ≤ hi)%Qc → clip lo hi x = x) ∧
  ((x < lo)%Qc → clip lo hi x = lo) ∧
  ((hi < x)%Qc → clip lo hi x = hi).
Proof.
  intros Hlh. unfold clip. repeat split.
  - intros [H1 H2]. by rewrite qmax_l, qmin_l.
  - intros H%Qclt_le_weak. by rewrite qmax_r, qmin_l.
  - intros H. rewrite qmax_l.
    + apply qmin_r. by apply Qclt_le_weak.
    + apply Qclt_le_weak. by eapply Qcle_lt_trans.
Qed.

Lemma trunc_bounds (q : Qc) (m : Z) :
  (0 ≤ q)%Qc → (q ≤ Qc_of_Z m)%Qc → 0 ≤ trunc q ≤ m.
Proof.
  unfold trunc, Qcle, Qle. destruct q as [[n d] Hc]. simpl.
  intros H0 Hm. rewrite Z.mul_1_r in *.
  rewrite Z.quot_div_nonneg by lia. split.
  - apply Z.div_pos; lia.
  - apply Z.div_le_upper_bound; lia.
Qed.

Lemma clip_index_in_bounds shape p :
  shape_positive shape → in_bounds shape (clip_index shape p).
Proof.
  destruct shape as [[nx ny] nz], p as [[x y] z].
  intros (Hi & Hj & Hk). unfold clip_index, in_bounds, astype_int.
  assert (H : ∀ (n : nat) c, (0 < n)%nat →
    0 ≤ trunc (clip 0%Qc (Qc_of_Z (Z.of_nat n - 1)) c) < Z.of_nat n).
  { intros n c Hn.
    destruct (clip_bounds 0%Qc (Qc_of_Z (Z.of_nat n - 1)) c) as [H1 H2].
    { apply (Qc_of_Z_le 0). lia. }
    pose proof (trunc_bounds _ _ H1 H2). lia. }
  repeat split; apply H; lia.
Qed.

Lemma locate_in_bounds shape c :
  in_bounds shape c → locate shape c = Returns c.
Proof.
  destruct shape as [[nx ny] nz], c as [[i j] k]. intros (Hi & Hj & Hk).
  unfold locate, norm_index. rewrite !decide_True by done. reflexivity.
Qed.

(** On a coordinate that is not negative the cast to an integer takes
    the whole part. *)
Lemma trunc_floor (q : Qc) : (0 ≤ q)%Qc → trunc q = Qfloor q.
Proof.
  unfold trunc, Qfloor, Qcle, Qle. destruct q as [[n d] Hc]. simpl.
  intros H. rewrite Z.mul_1_r in H. by apply Z.quot_div_nonneg.
Qed.

Lemma trunc_of_Z (m : Z) : trunc (Qc_of_Z m) = m.
Proof. unfold trunc. simpl. apply Z.quot_1_r. Qed.

(** What the code computes, clipping and then casting, is the clamped
    index of the specification. *)
Lemma clip_clamped_index (n : nat) (x : Qc) :
  (0 < n)%nat →
  astype_int (Finite (clip 0%Qc (Qc_of_Z (Z.of_nat n - 1)) x))
  = clamped_index n x.
Proof.
  intros Hn. unfold astype_int, clamped_index.
  assert (Hlh : (0 ≤ Qc_of_Z (Z.of_nat n - 1))%Qc)
    by (apply (Qc_of_Z_le 0); lia).
  destruct (clip_spec 0%Qc (Qc_of_Z (Z.of_nat n - 1)) x Hlh)
    as (Hin & Hlo & Hhi).
  destruct (decide (x < 0)%Qc) as [H0|H0].
  { rewrite Hlo by done. reflexivity. }
  destruct (decide (Qc_of_Z (Z.of_nat n - 1) < x)%Qc) as [H1|H1].
  { rewrite Hhi by done. apply trunc_of_Z. }
  apply Qcnot_lt_le in H0, H1. rewrite Hin by done. by apply trunc_floor.
Qed.

Lemma clip_index_clamped shape p :
  shape_positive shape → clip_index shape p = clamped shape p.
Proof.
  destruct shape as [[nx ny] nz], p as [[x y] z]. intros (Hx & Hy & Hz).
  unfold clip_index, clamped. by rewrite !clip_clamped_index.
Qed.

Section RasterizerFacts.
Variable linalg_solve : mat4 → list vec4 → outcome (list vec4).
Variable linalg_inv : mat4 → outcome mat4.

(** C7, amended: without a streamline the mask rasterizer raises
    [ValueError].  On an image whose axes all have cells, whenever the
    points map to voxel space, it returns a grid of the shape of the
    image: the cell of every point, the whole parts of its voxel
    coordinates clamped on each axis into [[0, shape - 1]], lies in the
    grid and holds 1; a cell of the grid that is the cell of no point
    holds 0; and the grid has no other cell and no other value. *)
Theorem tract_mask_cells (img : image) (tracts : list tract)
    (ijk_points : list point) :
  tract_mask linalg_solve img [] = Raises ValueError ∧
  (shape_positive (image_shape img) →
   tract_in_ijk linalg_solve img tracts = Returns ijk_points →
   ∃ mask,
     tract_mask linalg_solve img tracts = Returns mask ∧
     grid_shape mask = image_shape img ∧
     (∀ p, p ∈ ijk_points →
        in_bounds (image_shape img) (clamped (image_shape img) p) ∧
        grid_cells mask !! clamped (image_shape img) p
        = Some (Finite 1%Qc)) ∧
     (∀ c, in_bounds (image_shape img) c →
        (∀ p, p ∈ ijk_points → clamped (image_shape img) p ≠ c) →
        grid_cells mask !! c = Some (Finite 0%Qc)) ∧
     (∀ c v, grid_cells mask !! c = Some v →
        in_bounds (image_shape img) c ∧
        (v = Finite 1%Qc ∨ v = Finite 0%Qc))).
Proof.
  split; [reflexivity|].
  intros Hshape Hijk. unfold tract_mask. rewrite Hijk.
  cbn [mbind outcome_bind]. unfold assign_at.
  rewrite omap_returns.
  2:{ intros c (p & -> & _)%list_elem_of_fmap. apply locate_in_bounds.
      by apply clip_index_in_bounds. }
  cbn [mbind outcome_bind]. eexists. split; [reflexivity|].
  cbn [grid_shape grid_cells]. split; [reflexivity|].
  split; [|split].
  - intros p Hp. rewrite <- clip_index_clamped by done.
    split; [by apply clip_index_in_bounds|].
    rewrite foldl_insert_lookup, decide_True; [done|].
    by apply list_elem_of_fmap_2.
  - intros c Hin Hc. rewrite foldl_insert_lookup, decide_False.
    + rewrite zeros_lookup, decide_True; [done|by apply elem_of_indices].
    + intros (p & -> & Hp)%list_elem_of_fmap. apply (Hc p Hp).
      by rewrite clip_index_clamped.
  - intros c v. rewrite foldl_insert_lookup. case_decide as Hc.
    + intros [= <-]. split; [|by left].
      apply list_elem_of_fmap in Hc as (p & -> & _).
      by apply clip_index_in_bounds.
    + rewrite zeros_lookup. case_decide as Hin; [|done].
      intros [= <-]. split; [by apply elem_of_indices|by right].
Qed.

(** C10: in the union-probability operation a member after the first with
    no streamline leaves the accumulated grid as it was, and the operation
    ends as it does without that member. *)
Theorem empty_member_is_skipped (img : image) (prob_map : grid)
    (first : list tract) (before after : list (list tract)) :
  probability_step linalg_solve img prob_map [] = Returns prob_map ∧
  tract_generate_probability_map linalg_solve linalg_inv
      (first :: before ++ [] :: after) img
  = tract_generate_probability_map linalg_solve linalg_inv
      (first :: before ++ after) img.
Proof.
  split; [reflexivity|].
  unfold tract_generate_probability_map.
  destruct (tract_probability_map linalg_inv img first) as [g|e];
    cbn [mbind outcome_bind]; [|reflexivity].
  rewrite !ofoldl_app.
  destruct (ofoldl _ g before); cbn [mbind outcome_bind]; reflexivity.
Qed.

End RasterizerFacts.

(** The exact solver on a matrix with no zero entry pattern to lean on:
    its solution satisfies the system, and its inverse undoes the
    matrix. *)
Example cramer_solves :
  let a := ((Q2Qc 2, 1, 0, 1)%Qc, (1, Q2Qc 3, 1, 0)%Qc,
            (0, 1, Q2Qc 4, Q2Qc 2)%Qc, (0, 0, 0, 1)%Qc) in
  let b := (Q2Qc 5, - Q2Qc 7, Q2Qc (1 # 3), 1)%Qc in
  (λ sol : list vec4, mat_vec a <$> sol) <$> option_of (cramer_solve a [b])
    = Some [b] ∧
  (λ inv, mat_vec inv (mat_vec a b)) <$> option_of (cramer_inv a) = Some b.
Proof. split; by_compute. Qed.

Lemma example_ijk :
  tract_in_ijk cramer_solve example_image example_tracts
  = Returns [(0, 0, 0)%Qc; (Q2Qc 4, 1, - Q2Qc 3)%Qc].
Proof. by_compute. Defined.

Lemma tract_mask_cells_witness :
  ∃ mask,
    tract_mask cramer_solve example_image example_tracts = Returns mask ∧
    grid_shape mask = image_shape example_image ∧
    (∀ p, p ∈ [(0, 0, 0)%Qc; (Q2Qc 4, 1, - Q2Qc 3)%Qc] →
       in_bounds (image_shape example_image)
                 (clamped (image_shape example_image) p) ∧
       grid_cells mask !! clamped (image_shape example_image) p
       = Some (Finite 1%Qc)) ∧
    (∀ c, in_bounds (image_shape example_image) c →
       (∀ p, p ∈ [(0, 0, 0)%Qc; (Q2Qc 4, 1, - Q2Qc 3)%Qc] →
             clamped (image_shape example_image) p ≠ c) →
       grid_cells mask !! c = Some (Finite 0%Qc)) ∧
    (∀ c v, grid_cells mask !! c = Some v →
       in_bounds (image_shape example_image) c ∧
       (v = Finite 1%Qc ∨ v = Finite 0%Qc)).
Proof.
  apply (proj2 (tract_mask_cells cramer_solve example_image example_tracts
                  [(0, 0, 0)%Qc; (Q2Qc 4, 1, - Q2Qc 3)%Qc])).
  - simpl. lia.
  - exact example_ijk.
Defined.

(** C7, as stated, fails: a streamline set without streamlines has no
    mask, the stacking of its points raises; and neither has an image with
    a singular affine. *)
Lemma mask_of_no_streamline :
  tract_mask cramer_solve example_image [] = Raises ValueError ∧
  tract_mask cramer_solve singular_image example_tracts = Raises LinAlgError.
Proof. split; by_compute. Qed.

(** The cells of the two points of the example: the point outside the
    grid is clamped to the boundary on every axis. *)
Example clamped_example :
  clamped (image_shape example_image) (0, 0, 0)%Qc = (0, 0, 0) ∧
  clamped (image_shape example_image) (Q2Qc 4, 1, - Q2Qc 3)%Qc = corner_cell.
Proof. split; by_compute. Qed.

(** The mask of that example: the point inside the grid marks its own
    cell, the point outside marks the boundary cell it is clamped to. *)
Example example_mask_cells :
  (λ g, (grid_cells g !! (0, 0, 0), grid_cells g !! (1, 1, 0),
         grid_cells g !! (1, 0, 0), grid_cells g !! (2, 1, 0)))
    <$> option_of (tract_mask cramer_solve example_image example_tracts)
  = Some (Some (Finite 1%Qc), Some (Finite 1%Qc), Some (Finite 0%Qc), None).
Proof. by_compute. Qed.

(** The union-probability operation on that image, with an exact solver:
    a member without streamlines between two others changes nothing, and
    the operation returns. *)
Example empty_member_example :
  tract_generate_probability_map cramer_solve cramer_inv
      [example_tracts; []; example_tracts] example_image
  = tract_generate_probability_map cramer_solve cramer_inv
      [example_tracts; example_tracts] example_image ∧
  (λ g, (grid_cells g !! (0, 0, 0), grid_cells g !! (1, 0, 0)))
    <$> option_of (tract_generate_probability_map cramer_solve cramer_inv
                     [example_tracts; []; example_tracts] example_image)
  = Some (Some (Finite 1%Qc), Some (Finite 0%Qc)).
Proof. split; by_compute. Qed.

(** ** Smoothing *)

Module SmoothingFacts.
Import Smoothing.
Local Open Scope R_scope.

Lemma rsum_fmap_div (ws : list R) (S : R) :
  rsum ((λ w, w / S) <$> ws) = rsum ws / S.
Proof.
  induction ws as [|w ws IH]; cbn [fmap list_fmap rsum foldr].
  - unfold Rdiv. by rewrite Rmult_0_l.
  - fold (rsum ((λ w, w / S) <$> ws)). fold (rsum ws). rewrite IH.
    unfold Rdiv. by rewrite Rmult_plus_distr_r.
Qed.

Lemma rsum_pos (ws : list R) :
  ws ≠ [] → Forall (λ w, 0 < w) ws → 0 < rsum ws.
Proof.
  intros Hne Hpos. destruct Hpos as [|w ws Hw Hws]; [done|]. clear Hne.
  revert w Hw. induction Hws as [|w' ws Hw' Hws IH]; intros w Hw.
  - unfold rsum. simpl. lra.
  - specialize (IH w' Hw'). unfold rsum in *. simpl in *. lra.
Qed.

Lemma kernel_pos (std d : R) : 0 < kernel std d.
Proof. apply exp_pos. Qed.

Lemma kernel_sum_pos (std : R) (ds : list R) :
  ds ≠ [] → 0 < rsum (kernel std <$> ds).
Proof.
  intros Hne. apply rsum_pos.
  - by destruct ds.
  - apply Forall_fmap, Forall_forall. intros d _. apply kernel_pos.
Qed.

Lemma smooth_weights_sum (std : R) (ds : list R) :
  ds ≠ [] → rsum (smooth_weights std ds) = 1.
Proof.
  intros Hne. unfold smooth_weights. rewrite rsum_fmap_div.
  pose proof (kernel_sum_pos std ds Hne). field. lra.
Qed.

Lemma kernel_gaussian (var d : R) :
  var ≠ 0 → kernel (std_of var) d = spec_kernel (var ^ 2) d.
Proof. intros Hv. unfold kernel, spec_kernel, std_of. f_equal. by field. Qed.

Lemma smooth_weights_gaussian (var : R) (ds : list R) :
  var ≠ 0 →
  smooth_weights (std_of var) ds = spec_weights (var ^ 2) ds.
Proof.
  intros Hv. unfold smooth_weights, spec_weights.
  rewrite <- list_fmap_compose.
  assert (Hk : kernel (std_of var) <$> ds = spec_kernel (var ^ 2) <$> ds).
  { apply list_fmap_ext. intros i d _. by apply kernel_gaussian. }
  rewrite Hk.
  apply list_fmap_ext. intros i d _. simpl. by rewrite kernel_gaussian.
Qed.

Lemma spec_kernel_0 (v : R) : spec_kernel v 0 = 1.
Proof.
  unfold spec_kernel. rewrite <- exp_0. f_equal.
  unfold Rdiv. rewrite pow_i by lia. by rewrite Ropp_0, Rmult_0_l.
Qed.

(** C3, as stated, fails: the kernel divides by the square of the
    parameter.  With parameter 2 and neighbours at distances 0 and 1 the
    weights are not those of a Gaussian of variance 2. *)
Lemma weights_differ_from_specification :
  smooth_weights (std_of 2) [0; 1] ≠ spec_weights 2 [0; 1].
Proof.
  rewrite smooth_weights_gaussian by lra. unfold spec_weights.
  cbn [fmap list_fmap rsum foldr]. rewrite !spec_kernel_0.
  intros H. injection H as H _.
  assert (Hlt : spec_kernel 2 1 < spec_kernel (2 ^ 2) 1).
  { unfold spec_kernel. apply exp_increasing. lra. }
  assert (0 < spec_kernel 2 1) by apply exp_pos.
  set (a := spec_kernel (2 ^ 2) 1) in *. set (b := spec_kernel 2 1) in *.
  assert (Hinv : / (1 + (a + 0)) < / (1 + (b + 0))).
  { apply Rinv_lt_contravar; [|lra].
    apply Rmult_lt_0_compat; lra. }
  change (2 * (2 * 1)) with (2 ^ 2) in H. fold a in H.
  unfold Rdiv in H. lra.
Qed.


(** *** What a lawful tree returns *)

Section Lawful.
Context {bt : BallTree} (Hlaw : lawful bt).

Lemma query_sound pts p k x :
  x ∈ query pts p k → ∃ q, pts !! x.2 = Some q ∧ x.1 = dist p q.
Proof.
  intros Hx. destruct (query_spec bt Hlaw pts p k) as (rest & Hperm & _).
  assert (Hin : x ∈ indexed_distances pts p).
  { rewrite <- Hperm. apply elem_of_app. by left. }
  apply elem_of_lookup_imap in Hin as (i & q & -> & Hq). by exists q.
Qed.

Lemma query_distances pts p k :
  fst <$> query pts p k = (λ x, dist p (pts !!! x.2)) <$> query pts p k.
Proof.
  apply list_fmap_ext. intros i x Hx.
  apply list_elem_of_lookup_2, query_sound in Hx as (q & Hq & ->).
  by rewrite (list_lookup_total_correct _ _ _ Hq).
Qed.

Lemma query_radius_length_le pts p r :
  (length (query_radius pts p r) ≤ length pts)%nat.
Proof.
  assert (Hsub : query_radius pts p r ⊆+ seq 0 (length pts)).
  { apply NoDup_submseteq; [apply (query_radius_NoDup bt Hlaw)|].
    intros i (q & Hq & _)%(query_radius_spec bt Hlaw).
    apply elem_of_seq. apply lookup_lt_Some in Hq. lia. }
  apply submseteq_length in Hsub. by rewrite length_seq in Hsub.
Qed.

Lemma dist_self p : dist p p = 0.
Proof.
  destruct p as [[a b] c]. unfold dist, vsub, sq_norm.
  rewrite <- sqrt_0. f_equal. ring.
Qed.

Lemma query_radius_self pts p r :
  p ∈ pts → 0 <= r → (1 ≤ length (query_radius pts p r))%nat.
Proof.
  intros (i & Hi)%list_elem_of_lookup_1 Hr.
  assert (Hin : i ∈ query_radius pts p r).
  { apply (query_radius_spec bt Hlaw). exists p.
    split; [done|]. by rewrite dist_self. }
  destruct (query_radius pts p r); [by apply elem_of_nil in Hin|simpl; lia].
Qed.

End Lawful.

Lemma zip_with_fmap_both {A B C D} (f : B → C → D) (g : A → B) (h : A → C)
    (l : list A) :
  zip_with f (g <$> l) (h <$> l) = (λ x, f (g x) (h x)) <$> l.
Proof.
  induction l as [|x l IH]; [done|].
  rewrite !fmap_cons. cbn [zip_with]. by rewrite IH.
Qed.

(** The new position of a point as a weighted sum, for any number [k] of
    neighbours the tree can give. *)
Lemma smooth_point_weights {bt : BallTree} (all_points : list rpoint)
    (var : R) (p : rpoint) (m : mat3) (k : nat) :
  lawful bt → var ≠ 0 → (0 < k ≤ length all_points)%nat →
  let close := query all_points p k in
  let kernel_of x := exp (- dist p (all_points !!! x.2) ^ 2 / (2 * var ^ 2)) in
  let weight x := kernel_of x / rsum (kernel_of <$> close) in
  smooth_point all_points (std_of var) p m close =
    vsum ((λ x, vscale (vadd (project m (vsub (all_points !!! x.2) p)) p)
                       (weight x)) <$> close) ∧
  rsum (weight <$> close) = 1.
Proof.
  intros Hlaw Hv Hk close kernel_of weight.
  assert (Hw : smooth_weights (std_of var) (fst <$> close) = weight <$> close).
  { unfold close.
    rewrite (query_distances Hlaw), smooth_weights_gaussian by done.
    unfold spec_weights. rewrite <- !list_fmap_compose. reflexivity. }
  split.
  - unfold smooth_point. fold close. rewrite Hw.
    rewrite <- !list_fmap_compose. by rewrite zip_with_fmap_both.
  - rewrite <- Hw. apply smooth_weights_sum.
    assert (Hlen : length close = k) by (apply (query_length bt Hlaw); lia).
    destruct close; [simpl in Hlen; lia|done].
Qed.

Lemma max_list_le (ns : list nat) (b : nat) :
  Forall (λ n, n ≤ b)%nat ns → (max_list ns ≤ b)%nat.
Proof. induction 1; simpl; lia. Qed.

(** The number of neighbours the pass asks for: at least one, since a
    point of the tree is within any non-negative radius of itself, and at
    most all the points of the tree. *)
Lemma neighbour_count_bounds {bt : BallTree} (all_points tract : list rpoint)
    (var : R) :
  lawful bt → 0 <= var →
  (∃ q, q ∈ tract ∧ q ∈ all_points) →
  (1 ≤ max_list ((λ p, length (query_radius all_points p (var * 3)))
                 <$> tract)
     ≤ length all_points)%nat.
Proof.
  intros Hlaw Hvar (q & Hq & Hall). split.
  - etrans; [apply (query_radius_self Hlaw all_points q (var * 3));
             [done|lra]|].
    apply max_list_elem_of_le.
    apply (list_elem_of_fmap_2
             (λ p, length (query_radius all_points p (var * 3)))).
    exact Hq.
  - apply max_list_le, Forall_fmap, Forall_forall. intros p _.
    apply (query_radius_length_le Hlaw).
Qed.

(** C3, amended: in the pass over a streamline, with a lawful tree and a
    positive parameter [var], the new position of a point [p] is the sum of
    its projected nearest neighbours, each weighted by
    [exp (- d^2 / (2 var^2))] of its distance [d] to [p] before projection,
    divided by the sum of these over the neighbours; the weights add up
    to 1. *)
Theorem smooth_point_gaussian {bt : BallTree}
    (all_points tract : list rpoint) (var : R) (p : rpoint) (m : mat3) :
  lawful bt → 0 < var →
  (∃ q, q ∈ tract ∧ q ∈ all_points) →
  let N := max_list ((λ p, length (query_radius all_points p (var * 3)))
                     <$> tract) in
  let close := query all_points p N in
  let kernel_of x := exp (- dist p (all_points !!! x.2) ^ 2 / (2 * var ^ 2)) in
  let weight x := kernel_of x / rsum (kernel_of <$> close) in
  smooth_point all_points (std_of var) p m close =
    vsum ((λ x, vscale (vadd (project m (vsub (all_points !!! x.2) p)) p)
                       (weight x)) <$> close) ∧
  rsum (weight <$> close) = 1.
Proof.
  intros Hlaw Hvar Hin N.
  apply smooth_point_weights; [done|lra|].
  pose proof (neighbour_count_bounds all_points tract var Hlaw
                (Rlt_le _ _ Hvar) Hin). lia.
Qed.


(** *** The exhaustive tree is lawful *)

Lemma indexed_distances_indices pts p :
  snd <$> indexed_distances pts p = seq 0 (length pts).
Proof.
  unfold indexed_distances. rewrite fmap_imap.
  rewrite (imap_ext _ (λ (i : nat) (_ : rpoint), i)) by done.
  rewrite (imap_seq_0 pts (λ i : nat, i)). apply list_fmap_id.
Qed.

Lemma elem_of_indexed_distances pts p x :
  x ∈ indexed_distances pts p ↔ ∃ q, pts !! x.2 = Some q ∧ x.1 = dist p q.
Proof.
  unfold indexed_distances. rewrite elem_of_lookup_imap. split.
  - intros (i & q & -> & Hq). by exists q.
  - intros (q & Hq & Hd). exists x.2, q. split; [|done].
    destruct x as [d i]. simpl in *. by subst.
Qed.

Lemma closer_total : Total closer.
Proof.
  intros x y. unfold closer.
  destruct (Rle_dec x.1 y.1); [by left|right; lra].
Qed.

Lemma closer_trans : Transitive closer.
Proof. intros x y z. unfold closer. lra. Qed.

Lemma brute_force_lawful : lawful brute_force.
Proof.
  split; cbn [query_radius query brute_force].
  - intros pts p r. eapply sublist_NoDup;
      [|apply fmap_sublist, sublist_filter].
    rewrite indexed_distances_indices. apply NoDup_seq.
  - intros pts p r i. rewrite list_elem_of_fmap. split.
    + intros (x & -> & Hx). apply list_elem_of_filter in Hx as [Hr Hx].
      apply elem_of_indexed_distances in Hx as (q & Hq & Hd).
      exists q. split; [done|]. by rewrite <- Hd.
    + intros (q & Hq & Hr). exists (dist p q, i). split; [done|].
      apply list_elem_of_filter. split; [done|].
      apply elem_of_indexed_distances. by exists q.
  - intros pts p k Hk. rewrite length_take.
    rewrite (Permutation_length (merge_sort_Permutation closer _)).
    unfold indexed_distances. rewrite length_imap. lia.
  - intros pts p k.
    exists (drop k (merge_sort closer (indexed_distances pts p))).
    rewrite take_drop. split; [apply merge_sort_Permutation|].
    intros x y Hx Hy.
    eapply (StronglySorted_app_1_elem_of closer); [|exact Hx|exact Hy].
    rewrite take_drop.
    apply (@StronglySorted_merge_sort _ closer _ closer_trans closer_total).
Qed.


(** *** Straight streamlines *)

Lemma sq_norm_nonneg (d : rpoint) : 0 <= sq_norm d.
Proof. destruct d as [[a b] c]. unfold sq_norm. nra. Qed.

(** The plane across a segment sends every multiple of the segment to
    zero. *)
Lemma project_parallel (d : rpoint) (k : R) :
  sq_norm d ≠ 0 →
  project (mat_sub eye3 (outer (vdiv d (sqrt (sq_norm d))))) (vscale d k)
  = vzero.
Proof.
  intros Hd. pose proof (sq_norm_nonneg d) as Hnn.
  assert (Hn : sqrt (sq_norm d) ≠ 0).
  { intros H0. apply sqrt_eq_0 in H0; [done|lra]. }
  assert (Hi : / sqrt (sq_norm d) * / sqrt (sq_norm d) * sq_norm d = 1).
  { rewrite <- (sqrt_sqrt (sq_norm d)) at 3 by lra. by field. }
  destruct d as [[a b] c].
  unfold project, mat_sub, eye3, outer, vdiv, vscale, vadd, vsub, vzero,
    sq_norm, Rdiv in *.
  set (i := / sqrt (a ^ 2 + b ^ 2 + c ^ 2)) in *. clearbody i.
  f_equal; [f_equal|].
  - replace (_ + _ + _) with (a * k * (1 - i * i * (a ^ 2 + b ^ 2 + c ^ 2)))
      by ring. rewrite Hi. ring.
  - replace (_ + _ + _) with (b * k * (1 - i * i * (a ^ 2 + b ^ 2 + c ^ 2)))
      by ring. rewrite Hi. ring.
  - replace (_ + _ + _) with (c * k * (1 - i * i * (a ^ 2 + b ^ 2 + c ^ 2)))
      by ring. rewrite Hi. ring.
Qed.

Lemma vscale_vscale (u : rpoint) (a b : R) :
  vscale (vscale u a) b = vscale u (a * b).
Proof. destruct u as [[x y] z]. unfold vscale. f_equal; [f_equal|]; ring. Qed.

Lemma sq_norm_vscale (u : rpoint) (a : R) :
  sq_norm (vscale u a) = a ^ 2 * sq_norm u.
Proof. destruct u as [[x y] z]. unfold vscale, sq_norm. ring. Qed.

Lemma flat_segment (u d : rpoint) (c : R) :
  d = vscale u c → sq_norm d ≠ 0 →
  flat u (mat_sub eye3 (outer (vdiv d (sqrt (sq_norm d))))).
Proof.
  intros Hd Hnz k.
  assert (Hc : c ≠ 0).
  { intros ->. apply Hnz. rewrite Hd, sq_norm_vscale. ring. }
  replace (vscale u k) with (vscale d (k / c)).
  - by apply project_parallel.
  - rewrite Hd, vscale_vscale. f_equal. by field.
Qed.

Lemma elem_of_diff (tract : list rpoint) (d : rpoint) :
  d ∈ diff tract → ∃ p q, p ∈ tract ∧ q ∈ tract ∧ d = vsub q p.
Proof.
  induction tract as [|p [|q tract] IH]; cbn [diff];
    [by intros ?%elem_of_nil..|].
  intros [->|Hd]%elem_of_cons.
  - exists p, q. split; [left|]. split; [right; left|done].
  - destruct (IH Hd) as (p' & q' & Hp & Hq & ->).
    exists p', q'. split; [by right|]. split; [by right|done].
Qed.

Lemma length_diff (tract : list rpoint) :
  length (diff tract) = pred (length tract).
Proof.
  induction tract as [|p [|q tract] IH]; [done..|].
  cbn [diff length] in *. by rewrite IH.
Qed.

Lemma tangents_returns (tract : list rpoint) :
  (2 ≤ length tract)%nat →
  ∃ ds, tangents tract
        = Returns ((λ v, vdiv v (sqrt (sq_norm v))) <$> ds) ∧
        length ds = length tract ∧ ∀ d, d ∈ ds → d ∈ diff tract.
Proof.
  intros Hlen. unfold tangents.
  pose proof (length_diff tract) as Hd.
  destruct (last (diff tract)) as [d_last|] eqn:Hlast.
  - exists (diff tract ++ [d_last]). split; [done|]. split.
    + rewrite length_app, Hd. simpl. lia.
    + intros d [Hin|Hin]%elem_of_app; [done|].
      apply list_elem_of_singleton in Hin as ->.
      rewrite last_lookup in Hlast. by apply list_elem_of_lookup_2 in Hlast.
  - apply last_None in Hlast. rewrite Hlast in Hd. simpl in Hd. lia.
Qed.

Lemma vsum_constant (p : rpoint) (pts : list rpoint) (ws : list R) :
  Forall (λ q, q = p) pts → length pts = length ws →
  vsum (zip_with vscale pts ws) = vscale p (rsum ws).
Proof.
  intros Hp. revert ws. induction Hp as [|q pts -> _ IH]; intros [|w ws] Hlen;
    simplify_eq/=.
  - destruct p as [[a b] c]. unfold vzero, vscale. f_equal; [f_equal|]; ring.
  - unfold vsum, rsum in *. cbn [foldr]. rewrite IH by done.
    destruct p as [[a b] c]. unfold vadd, vscale. f_equal; [f_equal|]; ring.
Qed.

Lemma length_smooth_weights std ds : length (smooth_weights std ds) = length ds.
Proof. unfold smooth_weights. by rewrite !length_fmap. Qed.

(** A point on a line whose neighbours all lie on that line stays where it
    is, whatever the plane flat along the line. *)
Lemma smooth_point_on_line (all_points : list rpoint) (std : R)
    (o u p : rpoint) (m : mat3) (close : list (R * nat)) :
  (∃ t, p = vadd o (vscale u t)) →
  flat u m →
  close ≠ [] →
  (∀ x, x ∈ close → ∃ t, all_points !!! x.2 = vadd o (vscale u t)) →
  smooth_point all_points std p m close = p.
Proof.
  intros [s ->] Hflat Hne Hclose. unfold smooth_point.
  rewrite vsum_constant with (p := vadd o (vscale u s)).
  - rewrite smooth_weights_sum by (by destruct close).
    destruct o as [[? ?] ?], u as [[? ?] ?].
    unfold vadd, vscale. f_equal; [f_equal|]; ring.
  - rewrite <- !list_fmap_compose. apply Forall_fmap, Forall_forall.
    intros x Hx. destruct (Hclose x Hx) as [t Ht].
    unfold compose. rewrite Ht.
    replace (vsub (vadd o (vscale u t)) (vadd o (vscale u s)))
      with (vscale u (t - s)).
    + rewrite Hflat. destruct o as [[? ?] ?], u as [[? ?] ?].
      unfold vadd, vscale, vzero. f_equal; [f_equal|]; ring.
    + destruct o as [[? ?] ?], u as [[? ?] ?].
      unfold vsub, vadd, vscale. f_equal; [f_equal|]; ring.
  - by rewrite length_smooth_weights, !length_fmap.
Qed.

Lemma zip_with_zip_fixed {A B C} (f : A * B → C → A) (g : A → C)
    (P : B → Prop) (l : list A) (ms : list B) :
  length ms = length l → Forall P ms →
  (∀ p m, p ∈ l → P m → f (p, m) (g p) = p) →
  zip_with f (zip l ms) (g <$> l) = l.
Proof.
  revert ms. induction l as [|p l IH]; intros [|m ms] Hlen HP Hf;
    simplify_eq/=; [done|].
  apply Forall_cons in HP as [Hm Hms]. f_equal.
  - apply Hf; [left|done].
  - apply IH; [done..|]. intros p' m' Hp'. apply Hf. by right.
Qed.

(** The body of the loop on a straight streamline, against a tree of its
    own points. *)
Lemma smooth_tract_straight {bt : BallTree} (var : R)
    (tract : list rpoint) (o u : rpoint) :
  lawful bt →
  0 < var →
  (2 ≤ length tract)%nat →
  (∀ p, p ∈ tract → ∃ t, p = vadd o (vscale u t)) →
  Forall (λ d, sq_norm d ≠ 0) (diff tract) →
  smooth_tract tract var tract = Returns tract.
Proof.
  intros Hlaw Hvar Hlen Hline Hseg. unfold smooth_tract.
  destruct (tangents_returns tract Hlen) as (ds & -> & Hds & Hin).
  cbn [mbind outcome_bind]. f_equal.
  set (N := max_list _).
  assert (HN : (1 ≤ N ≤ length tract)%nat).
  { apply (neighbour_count_bounds tract tract var Hlaw); [lra|].
    destruct tract as [|p tract]; [simpl in Hlen; lia|].
    exists p. split; left. }
  apply (zip_with_zip_fixed _ (λ p, query tract p N) (flat u)).
  - by rewrite !length_fmap.
  - rewrite <- list_fmap_compose. apply Forall_fmap, Forall_forall.
    intros d Hd. specialize (Hin d Hd).
    destruct (elem_of_diff _ _ Hin) as (p & q & Hp & Hq & Hpq).
    destruct (Hline p Hp) as [s Hs], (Hline q Hq) as [t Ht].
    apply (flat_segment u d (t - s)).
    + rewrite Hpq, Hs, Ht. destruct o as [[? ?] ?], u as [[? ?] ?].
      unfold vsub, vadd, vscale. f_equal; [f_equal|]; ring.
    + by eapply Forall_forall in Hseg.
  - intros p m Hp Hm. apply (smooth_point_on_line _ _ o u); [auto|done| |].
    + assert (Hl : length (query tract p N) = N)
        by (apply (query_length bt Hlaw); lia).
      destruct (query tract p N); [simpl in Hl; lia|done].
    + intros x (q & Hq & _)%(query_sound Hlaw).
      rewrite (list_lookup_total_correct _ _ _ Hq).
      apply Hline. by eapply list_elem_of_lookup_2.
Qed.


(** *** The pass writes into the arrays it is given *)

Section InPlace.
Context {bt : BallTree}.

Lemma smoothing_loop (all_points : list rpoint) (var : R)
    (refs : list nat) (st st' : gmap nat (list rpoint)) :
  NoDup refs →
  ofoldl (λ (st : gmap nat (list rpoint)) l,
            weighted_points ← smooth_tract all_points var (st !!! l);
            Returns (<[l := weighted_points]> st)) st refs = Returns st' →
  (∀ l, l ∉ refs → st' !! l = st !! l) ∧
  (∀ l, l ∈ refs →
     ∃ w, smooth_tract all_points var (st !!! l) = Returns w ∧
          st' !! l = Some w).
Proof.
  intros Hnd. revert st. induction Hnd as [|l refs Hl Hnd IH]; intros st.
  - intros [= ->]. split; [done|]. by intros l ?%elem_of_nil.
  - cbn [ofoldl].
    destruct (smooth_tract all_points var (st !!! l)) as [w|e] eqn:Hw;
      cbn [mbind outcome_bind]; [|discriminate].
    intros Hrest. destruct (IH _ Hrest) as [Hout Hin]. split.
    + intros l' Hl'. rewrite Hout by (rewrite elem_of_cons in Hl'; tauto).
      apply lookup_insert_ne. intros ->. apply Hl'. left.
    + intros l' [->|Hl']%elem_of_cons.
      * exists w. split; [done|]. rewrite Hout by done.
        apply lookup_insert_eq.
      * destruct (Hin l' Hl') as (w' & Hw' & Hs). exists w'. split; [|done].
        rewrite <- Hw'. f_equal. symmetry. apply lookup_total_insert_ne.
        by intros ->.
Qed.

(** C4, amended: smoothing writes into its input.  When a tractography of
    distinct arrays is smoothed, the result refers to the same arrays as
    the input; each of them holds the smoothed points of what it held
    before, computed against the points of all the input streamlines, and
    the arrays outside the tractography are left as they were. *)
Theorem tract_smooth_in_place (store store' : gmap nat (list rpoint))
    (refs refs' : list nat) (var : R) :
  NoDup refs →
  tract_smooth store refs var = Returns (store', refs') →
  refs' = refs ∧
  (∀ l, l ∉ refs → store' !! l = store !! l) ∧
  ∃ all_points,
    vstack ((λ l, store !!! l) <$> refs) = Returns all_points ∧
    ∀ l, l ∈ refs →
      ∃ w, smooth_tract all_points var (store !!! l) = Returns w ∧
           store' !! l = Some w.
Proof.
  intros Hnd. unfold tract_smooth.
  destruct (vstack _) as [all_points|e]; cbn [mbind outcome_bind];
    [|discriminate].
  destruct (ball_tree_built all_points) as [[]|e];
    cbn [mbind outcome_bind]; [|discriminate].
  destruct (ofoldl _ store refs) as [st|e] eqn:Hloop;
    cbn [mbind outcome_bind]; [|discriminate].
  intros [= <- <-]. split; [done|].
  destruct (smoothing_loop _ _ _ _ _ Hnd Hloop) as [Hout Hin].
  split; [done|]. by exists all_points.
Qed.

End InPlace.


Lemma smooth_point_sum (all_points : list rpoint) (std : R) (p : rpoint)
    (m : mat3) (close : list (R * nat)) :
  smooth_point all_points std p m close =
    vsum ((λ x, vscale (vadd (project m (vsub (all_points !!! x.2) p)) p)
                       (kernel std x.1
                        / rsum (kernel std <$> (fst <$> close)))) <$> close).
Proof.
  unfold smooth_point, smooth_weights.
  rewrite <- !list_fmap_compose. by rewrite zip_with_fmap_both.
Qed.

Lemma ycoord_vscale (p : rpoint) (w : R) :
  ycoord (vscale p w) = ycoord p * w.
Proof. by destruct p as [[a b] c]. Qed.

Lemma ycoord_vsum (l : list rpoint) : ycoord (vsum l) = rsum (ycoord <$> l).
Proof.
  induction l as [|[[a b] c] l IH]; [done|].
  rewrite fmap_cons. unfold vsum, rsum in *. cbn [foldr].
  rewrite <- IH. by destruct (foldr vadd vzero l) as [[? ?] ?].
Qed.

Lemma rsum_pos_elem {A} (f : A → R) (l : list A) (x : A) :
  (∀ y, y ∈ l → 0 <= f y) → x ∈ l → 0 < f x → 0 < rsum (f <$> l).
Proof.
  intros Hnn Hx Hpos. induction l as [|y l IH]; [by apply elem_of_nil in Hx|].
  rewrite fmap_cons. unfold rsum in *. cbn [foldr].
  assert (Hl : 0 <= foldr Rplus 0 (f <$> l)).
  { clear IH Hx. induction l as [|z l IH]; [simpl; lra|].
    rewrite fmap_cons. cbn [foldr].
    assert (0 <= f z) by (apply Hnn; right; left).
    assert (0 <= foldr Rplus 0 (f <$> l)); [|lra].
    apply IH. intros y' [->|Hy']%elem_of_cons; apply Hnn;
      [left|right; by right]. }
  apply elem_of_cons in Hx as [->|Hx]; [lra|].
  assert (0 <= f y) by (apply Hnn; left).
  assert (0 < foldr Rplus 0 (f <$> l)); [|lra].
  apply IH; [|done]. intros y' Hy'. apply Hnn. by right.
Qed.

Section LawfulAll.
Context {bt : BallTree} (Hlaw : lawful bt).

Lemma query_radius_all pts p r :
  (∀ q, q ∈ pts → dist p q <= r) →
  length (query_radius pts p r) = length pts.
Proof.
  intros Hall. apply Nat.le_antisymm; [apply (query_radius_length_le Hlaw)|].
  assert (Hsub : seq 0 (length pts) ⊆+ query_radius pts p r).
  { apply NoDup_submseteq; [apply NoDup_seq|].
    intros i Hi%elem_of_seq. apply (query_radius_spec bt Hlaw).
    destruct (lookup_lt_is_Some_2 pts i) as [q Hq]; [lia|].
    exists q. split; [done|]. apply Hall. by eapply list_elem_of_lookup_2. }
  apply submseteq_length in Hsub. by rewrite length_seq in Hsub.
Qed.

Lemma query_all pts p :
  query pts p (length pts) ≡ₚ indexed_distances pts p.
Proof.
  destruct (query_spec bt Hlaw pts p (length pts)) as (rest & Hperm & _).
  pose proof (Permutation_length Hperm) as Hlen.
  rewrite length_app, (query_length bt Hlaw) in Hlen by done.
  unfold indexed_distances in Hlen. rewrite length_imap in Hlen.
  destruct rest; [|simpl in Hlen; lia]. by rewrite app_nil_r in Hperm.
Qed.

End LawfulAll.

Lemma dist_le (p q : rpoint) (r : R) :
  0 <= r → sq_norm (vsub q p) <= r ^ 2 → dist p q <= r.
Proof.
  intros Hr Hsq. unfold dist.
  rewrite <- (sqrt_pow2 r) by done. by apply sqrt_le_1_alt.
Qed.

Lemma bent_close (p q : rpoint) : p ∈ bent → q ∈ bent → dist p q <= 1 * 3.
Proof.
  unfold bent. intros Hp Hq. apply dist_le; [lra|].
  rewrite !elem_of_cons, elem_of_nil in Hp, Hq.
  destruct Hp as [->|[->|[->|[]]]], Hq as [->|[->|[->|[]]]];
    unfold sq_norm, vsub; lra.
Qed.

Lemma tract_smooth_single {bt : BallTree} (store : gmap nat (list rpoint))
    (l : nat) (tract w : list rpoint) (var : R) :
  store !! l = Some tract →
  smooth_tract tract var tract = Returns w →
  tract_smooth store [l] var = Returns (<[l := w]> store, [l]).
Proof.
  intros Hl Hw. unfold tract_smooth.
  cbn [fmap list_fmap vstack concat mbind outcome_bind ofoldl].
  rewrite (lookup_total_correct _ _ _ Hl), app_nil_r.
  destruct tract as [|p tract]; [discriminate Hw|].
  cbn [ball_tree_built mbind outcome_bind]. rewrite Hw. reflexivity.
Qed.

Lemma smooth_tract_head {bt : BallTree} (all_points : list rpoint) (var : R)
    (p q : rpoint) (rest w : list rpoint) :
  smooth_tract all_points var (p :: q :: rest) = Returns w →
  head w =
    Some (smooth_point all_points (std_of var) p
            (mat_sub eye3
               (outer (vdiv (vsub q p) (sqrt (sq_norm (vsub q p))))))
            (query all_points p
               (max_list ((λ p, length (query_radius all_points p (var * 3)))
                          <$> p :: q :: rest)))).
Proof.
  unfold smooth_tract, tangents.
  change (diff (p :: q :: rest)) with (vsub q p :: diff (q :: rest)).
  generalize (diff (q :: rest)). intros ds.
  destruct (last (vsub q p :: ds)) as [d_last|];
    cbn [mbind outcome_bind]; [|discriminate].
  intros [= <-]. reflexivity.
Qed.

(** C4, as stated, fails: smoothing a streamline with a corner moves its
    first point off the axis, inside the array of the input, and the
    result refers to that array. *)
Lemma smoothing_overwrites_its_input :
  ∃ store',
    tract_smooth (bt := brute_force) bent_store [0%nat] 1
      = Returns (store', [0%nat]) ∧
    store' !! 0%nat ≠ bent_store !! 0%nat.
Proof.
  pose proof brute_force_lawful as Hlaw.
  destruct (smooth_tract (bt := brute_force) bent 1 bent) as [w|e] eqn:Hw.
  2:{ unfold smooth_tract in Hw.
      destruct (tangents_returns bent) as (ds & Ht & _); [simpl; lia|].
      rewrite Ht in Hw. discriminate Hw. }
  exists (<[0%nat := w]> bent_store). split.
  { apply (tract_smooth_single _ _ bent); [apply lookup_singleton_eq|done]. }
  rewrite lookup_insert_eq. unfold bent_store. rewrite lookup_singleton_eq.
  intros [= ->].
  apply smooth_tract_head in Hw. fold bent in Hw.
  match type of Hw with context [max_list ?l] =>
    assert (HN : max_list l = length bent) end.
  { cbn [fmap list_fmap max_list].
    rewrite !(query_radius_all Hlaw);
      try (intros q Hq; apply bent_close; [|done]; unfold bent;
           rewrite !elem_of_cons; auto).
    reflexivity. }
  rewrite HN in Hw.
  remember (mat_sub eye3 (outer _)) as m0 eqn:Hm0 in Hw.
  apply (inj Some) in Hw.
  apply (f_equal ycoord) in Hw.
  rewrite smooth_point_sum, ycoord_vsum, <- list_fmap_compose in Hw.
  pose proof (query_all Hlaw bent (0, 0, 0)) as Hperm.
  set (close := query bent (0, 0, 0) (length bent)) in *.
  match type of Hw with _ = ?r => assert (Hpos : 0 < r) end;
    [|rewrite <- Hw in Hpos; unfold ycoord in Hpos; simpl in Hpos; lra].
  assert (HS : 0 < rsum (kernel (std_of 1) <$> (fst <$> close))).
  { apply kernel_sum_pos. intros Hnil. apply fmap_nil_inv in Hnil.
    rewrite Hnil in Hperm. by apply Permutation_nil_l in Hperm. }
  assert (Hy : ∀ x, x ∈ close →
    ycoord (vadd (project m0 (vsub (bent !!! x.2) (0, 0, 0))) (0, 0, 0))
    = ycoord (bent !!! x.2)).
  { intros x _. destruct (bent !!! x.2) as [[a b] c]. rewrite Hm0.
    cbv [ycoord vadd project mat_sub eye3 outer vdiv vsub vscale fst snd].
    unfold Rdiv. ring. }
  assert (Hw_pos : ∀ x : R * nat,
    0 < kernel (std_of 1) x.1 / rsum (kernel (std_of 1) <$> (fst <$> close))).
  { intros x. apply Rdiv_lt_0_compat; [apply kernel_pos|done]. }
  assert (Hmem : (dist (0, 0, 0) (1, 1, 0), 2%nat) ∈ close).
  { rewrite Hperm. apply elem_of_indexed_distances. by exists (1, 1, 0). }
  apply (rsum_pos_elem _ close (dist (0, 0, 0) (1, 1, 0), 2%nat)); [|done|].
  - intros x Hx. unfold compose. rewrite ycoord_vscale, (Hy x Hx).
    apply Rmult_le_pos; [|apply Rlt_le, Hw_pos].
    rewrite Hperm in Hx.
    apply elem_of_indexed_distances in Hx as (q & Hq & _).
    rewrite (list_lookup_total_correct _ _ _ Hq).
    apply list_elem_of_lookup_2 in Hq. unfold bent in Hq.
    rewrite !elem_of_cons, elem_of_nil in Hq.
    destruct Hq as [->|[->|[->|[]]]]; unfold ycoord; simpl; lra.
  - unfold compose. rewrite ycoord_vscale, (Hy _ Hmem).
    apply Rmult_lt_0_compat; [|apply Hw_pos].
    unfold ycoord. simpl. lra.
Qed.

Lemma smooth_point_gaussian_witness :
  let N := max_list ((λ p, length (query_radius (BallTree := brute_force)
                                     bent p (1 * 3))) <$> bent) in
  let close := query (BallTree := brute_force) bent (0, 0, 0) N in
  let kernel_of x :=
    exp (- dist (0, 0, 0) (bent !!! x.2) ^ 2 / (2 * 1 ^ 2)) in
  let weight x := kernel_of x / rsum (kernel_of <$> close) in
  smooth_point bent (std_of 1) (0, 0, 0) eye3 close =
    vsum ((λ x, vscale (vadd (project eye3 (vsub (bent !!! x.2) (0, 0, 0)))
                             (0, 0, 0))
                       (weight x)) <$> close) ∧
  rsum (weight <$> close) = 1.
Proof.
  apply (smooth_point_gaussian (bt := brute_force) bent bent 1 (0, 0, 0) eye3).
  - exact brute_force_lawful.
  - lra.
  - exists (0, 0, 0). split; left.
Defined.

Lemma straight_on_line (p : rpoint) :
  p ∈ straight → ∃ t, p = vadd (0, 0, 0) (vscale (1, 0, 0) t).
Proof.
  unfold straight. rewrite !elem_of_cons, elem_of_nil.
  intros [->|[->|[->|[]]]]; [exists 0|exists 1|exists 2];
    unfold vadd, vscale; (f_equal; [f_equal|]); lra.
Defined.

Lemma straight_segments : Forall (λ d, sq_norm d ≠ 0) (diff straight).
Proof.
  unfold straight. cbn [diff]. repeat apply Forall_cons_2;
    [..|apply Forall_nil_2]; unfold sq_norm, vsub; lra.
Defined.

(** C9, amended: a streamline of at least two points that lie on one line
    and whose segments all have a length, smoothed with a positive
    parameter against a tree that holds its own points only: every point
    keeps its position, in the body of the loop and in the array the
    operation leaves behind. *)
Theorem straight_streamline_unchanged {bt : BallTree} (var : R)
    (tract : list rpoint) (o u : rpoint)
    (store : gmap nat (list rpoint)) (l : nat) :
  lawful bt →
  0 < var →
  (2 ≤ length tract)%nat →
  (∀ p, p ∈ tract → ∃ t, p = vadd o (vscale u t)) →
  Forall (λ d, sq_norm d ≠ 0) (diff tract) →
  store !! l = Some tract →
  smooth_tract tract var tract = Returns tract ∧
  tract_smooth store [l] var = Returns (store, [l]).
Proof.
  intros Hlaw Hvar Hlen Hline Hseg Hl.
  pose proof (smooth_tract_straight var tract o u Hlaw Hvar Hlen Hline Hseg)
    as Hfix.
  split; [done|].
  rewrite (tract_smooth_single store l tract tract var Hl Hfix).
  by rewrite insert_id.
Qed.

Lemma straight_streamline_unchanged_witness :
  smooth_tract (bt := brute_force) straight 1 straight = Returns straight ∧
  tract_smooth (bt := brute_force) straight_store [0%nat] 1
    = Returns (straight_store, [0%nat]).
Proof.
  apply (straight_streamline_unchanged (bt := brute_force) 1 straight
           (0, 0, 0) (1, 0, 0) straight_store 0%nat).
  - exact brute_force_lawful.
  - lra.
  - simpl. lia.
  - exact straight_on_line.
  - exact straight_segments.
  - apply lookup_singleton_eq.
Defined.

(** C9, as stated, fails: points on one line, alone in the tree, are not
    enough.  A streamline of a single point has no segment: [diff] is
    empty, [diff[-1]] raises [IndexError] and nothing is returned.  A
    streamline that repeats a point has a segment of length zero, by which
    its tangent is divided. *)
Lemma collinear_streamline_not_returned :
  (∀ p, p ∈ lone → ∃ t, p = vadd (0, 0, 0) (vscale (1, 0, 0) t)) ∧
  vstack ((λ l, lone_store !!! l) <$> [0%nat]) = Returns lone ∧
  tract_smooth (bt := brute_force) lone_store [0%nat] 1 = Raises IndexError ∧
  (∀ p, p ∈ repeated → ∃ t, p = vadd (0, 0, 0) (vscale (1, 0, 0) t)) ∧
  Exists (λ d, sqrt (sq_norm d) = 0) (diff repeated).
Proof.
  assert (Hlone : lone_store !!! 0%nat = lone)
    by apply lookup_total_singleton_eq.
  split; [|split; [|split; [|split]]].
  - unfold lone. intros p ->%list_elem_of_singleton. exists 0.
    unfold vadd, vscale. (f_equal; [f_equal|]); lra.
  - cbn [fmap list_fmap]. by rewrite Hlone.
  - unfold tract_smooth. cbn [fmap list_fmap]. rewrite Hlone.
    reflexivity.
  - intros p. unfold repeated. rewrite !elem_of_cons, elem_of_nil.
    intros [->|[->|[->|[]]]]; [exists 0|exists 0|exists 1];
      unfold vadd, vscale; (f_equal; [f_equal|]); lra.
  - unfold repeated. cbn [diff]. apply Exists_cons_hd.
    unfold sq_norm, vsub.
    replace ((0 - 0) ^ 2 + (0 - 0) ^ 2 + (0 - 0) ^ 2) with 0 by lra.
    apply sqrt_0.
Qed.

Lemma straight_smoothed :
  tract_smooth (bt := brute_force) straight_store [0%nat] 1
    = Returns (<[0%nat := straight]> straight_store, [0%nat]).
Proof.
  apply (tract_smooth_single _ _ straight); [apply lookup_singleton_eq|].
  apply (smooth_tract_straight 1 straight (0, 0, 0) (1, 0, 0)).
  - exact brute_force_lawful.
  - lra.
  - simpl. lia.
  - exact straight_on_line.
  - exact straight_segments.
Qed.

Lemma tract_smooth_in_place_witness :
  [0%nat] = [0%nat] ∧
  (∀ l, l ∉ [0%nat] →
     (<[0%nat := straight]> straight_store) !! l = straight_store !! l) ∧
  ∃ all_points,
    vstack ((λ l, straight_store !!! l) <$> [0%nat]) = Returns all_points ∧
    ∀ l, l ∈ [0%nat] →
      ∃ w, smooth_tract (bt := brute_force) all_points 1
             (straight_store !!! l) = Returns w ∧
           (<[0%nat := straight]> straight_store) !! l = Some w.
Proof.
  apply (tract_smooth_in_place (bt := brute_force) straight_store
           (<[0%nat := straight]> straight_store) [0%nat] [0%nat] 1).
  - apply NoDup_singleton.
  - exact straight_smoothed.
Defined.

End SmoothingFacts.

(** * Further properties *)

(** ** Dice and kappa *)

Lemma dice_coefficient_value (A B : gset voxel) :
  A ≠ ∅ ∨ B ≠ ∅ →
  dice_coefficient A B =
    Returns (Finite (Qc_of_Z (2 * Z.of_nat (size (A ∩ B)))
                     / Qc_of_Z (Z.of_nat (size A) + Z.of_nat (size B)))%Qc).
Proof.
  intros Hne. unfold dice_coefficient, py_div.
  assert (Z.of_nat (size A) + Z.of_nat (size B) ≠ 0).
  { assert (size A ≠ 0%nat ∨ size B ≠ 0%nat) as [?|?]; [|lia..].
    destruct Hne as [H|H]; [left|right]; apply size_non_empty_iff;
      by intros ?%leibniz_equiv. }
  case_decide; [done|]. rewrite fmul_1_r. unfold fdiv, of_int.
  case_decide as Hz; [|done]. by apply Qc_of_Z_eq_0 in Hz.
Qed.

Lemma kappa_float_swap (n m a b c : Qc) :
  kappa_float (Finite n) (Finite m) (Finite a) (Finite b) (Finite c)
  = kappa_float (Finite n) (Finite m) (Finite a) (Finite c) (Finite b).
Proof.
  unfold kappa_float. cbn [fsub fadd fneg fmul].
  replace (n + - a + - c + - b)%Qc with (n + - a + - b + - c)%Qc by ring.
  replace ((a + c) * (a + b)
           + (n + - a + - b + - c + b) * (n + - a + - b + - c + c))%Qc
    with ((a + b) * (a + c)
          + (n + - a + - b + - c + c) * (n + - a + - b + - c + b))%Qc by ring.
  reflexivity.
Qed.

(** X1: both agreement measures are symmetric: exchanging the two voxel
    sets changes neither the Dice coefficient nor kappa, the raised
    exception included. *)
Theorem agreement_symmetric (A B : gset voxel) :
  dice_coefficient A B = dice_coefficient B A ∧
  kappa_value A B = kappa_value B A.
Proof.
  split.
  - unfold dice_coefficient.
    assert (B ∩ A = A ∩ B) as -> by apply intersection_comm_L.
    by rewrite (Z.add_comm (Z.of_nat (size A))).
  - rewrite !kappa_value_unfold.
    assert (B ∪ A = A ∪ B) as -> by apply union_comm_L.
    assert (B ∩ A = A ∩ B) as -> by apply intersection_comm_L.
    destruct (array_max _) as [mx|]; [|done].
    destruct (array_min _) as [mn|]; [|done].
    cbn [mbind outcome_bind]. f_equal. apply kappa_float_swap.
Qed.

(** X2: a Dice coefficient that is returned is a number between 0 and 1,
    and it is 0 exactly when the two voxel sets share no voxel. *)
Theorem dice_range (A B : gset voxel) (d : float64) :
  dice_coefficient A B = Returns d →
  ∃ q, d = Finite q ∧ (0 ≤ q ≤ 1)%Qc ∧ (q = 0%Qc ↔ A ∩ B = ∅).
Proof.
  intros Hd.
  assert (Hne : A ≠ ∅ ∨ B ≠ ∅).
  { destruct (decide (A = ∅)) as [->|?]; [|by left].
    destruct (decide (B = ∅)) as [->|?]; [|by right]. discriminate Hd. }
  assert (Hz : Z.of_nat (size A) + Z.of_nat (size B) ≠ 0).
  { assert (size A ≠ 0%nat ∨ size B ≠ 0%nat) as [?|?]; [|lia..].
    destruct Hne as [H|H]; [left|right]; apply size_non_empty_iff;
      by intros ?%leibniz_equiv. }
  rewrite dice_coefficient_value in Hd by done. injection Hd as <-.
  eexists. split; [reflexivity|].
  assert (HA : (size (A ∩ B) ≤ size A)%nat)
    by apply subseteq_size, intersection_subseteq_l.
  assert (HB : (size (A ∩ B) ≤ size B)%nat)
    by apply subseteq_size, intersection_subseteq_r.
  split; [apply Qc_of_Z_div_bounds; lia|].
  split.
  - intros Hq. apply leibniz_equiv, size_empty_iff.
    assert (Qc_of_Z (2 * Z.of_nat (size (A ∩ B))) = 0%Qc)
      as H0%Qc_of_Z_eq_0; [|lia].
    rewrite <- (Qcmult_div_r _
                  (Qc_of_Z (Z.of_nat (size A) + Z.of_nat (size B))))
      by (by apply Qc_of_Z_ne_0).
    rewrite Hq. ring.
  - intros ->. rewrite size_empty. simpl. unfold Qcdiv. apply Qcmult_0_l.
Qed.

Lemma dice_range_witness :
  ∃ q, Finite (Q2Qc (2 # 5)) = Finite q ∧ (0 ≤ q ≤ 1)%Qc ∧
       (q = 0%Qc ↔ example_A ∩ example_B = ∅).
Proof. apply (dice_range example_A example_B). by_compute. Defined.

(** X3: the Dice coefficient of a voxel set that is not empty with itself
    is 1. *)
Theorem dice_identical (A : gset voxel) :
  A ≠ ∅ → dice_coefficient A A = Returns (Finite 1%Qc).
Proof.
  intros HA. rewrite dice_coefficient_value by (by left).
  assert (A ∩ A = A) as -> by apply intersection_idemp_L. do 2 f_equal.
  replace (Z.of_nat (size A) + Z.of_nat (size A))
    with (2 * Z.of_nat (size A)) by lia.
  apply Qcmult_inv_r, Qc_of_Z_ne_0.
  assert (size A ≠ 0%nat); [|lia].
  apply size_non_empty_iff. by intros ?%leibniz_equiv.
Qed.

Lemma dice_identical_witness :
  dice_coefficient example_A example_A = Returns (Finite 1%Qc).
Proof. apply dice_identical. by_compute. Defined.

Lemma fdiv_zero_not_finite (x : float64) :
  is_finite (fdiv x (Finite 0%Qc)) = false.
Proof.
  destruct x as [q| | |]; cbn; try done.
  unfold scale_inf. repeat case_decide; done.
Qed.

Lemma fsub_not_finite_r (x y : float64) :
  is_finite y = false → is_finite (fsub x y) = false.
Proof. destruct x, y; done. Qed.

Lemma fsub_not_finite_l (x y : float64) :
  is_finite x = false → is_finite (fsub x y) = false.
Proof. destruct x, y; done. Qed.

Lemma fdiv_not_finite (x y : float64) :
  is_finite x = false → is_finite y = false → fdiv x y = NaN.
Proof. destruct x, y; done. Qed.

Lemma kappa_float_zero_box (pp pn np : float64) :
  kappa_float (Finite 0%Qc) (Finite 0%Qc) pp pn np = NaN.
Proof.
  unfold kappa_float.
  apply fdiv_not_finite.
  - apply fsub_not_finite_l, fdiv_zero_not_finite.
  - apply fsub_not_finite_r, fdiv_zero_not_finite.
Qed.

Lemma kappa_float_identical (n a : Qc) :
  n ≠ 0%Qc → a ≠ 0%Qc → n ≠ a →
  kappa_float (Finite n) (Finite (n * n)) (Finite a) (Finite 0%Qc)
              (Finite 0%Qc)
  = Finite 1%Qc.
Proof.
  intros Hn Ha Hna. unfold kappa_float. cbn [fsub fadd fneg fmul].
  assert (Hnn : (n * n)%Qc ≠ 0%Qc) by (by apply Qcmult_ne_0).
  rewrite !fdiv_finite by done. cbn [fsub fadd fneg].
  set (ch := (((a + 0) * (a + 0) +
               (n + - a + - 0 + - 0 + 0) * (n + - a + - 0 + - 0 + 0))
              / (n * n))%Qc).
  assert (Hch : (1 + - ch)%Qc = ((1 + 1) * a * (n - a) / (n * n))%Qc).
  { unfold ch. by field. }
  assert (Hnz : (1 + - ch)%Qc ≠ 0%Qc).
  { rewrite Hch. unfold Qcdiv. apply Qcmult_ne_0.
    - repeat apply Qcmult_ne_0; [done|done|].
      intros H. apply Hna. rewrite <- (Qcplus_0_l a), <- H. ring.
    - intros H. pose proof (Qcmult_inv_r (n * n) Hnn) as E.
      rewrite H, Qcmult_0_r in E. discriminate E. }
  rewrite fdiv_finite by done. f_equal.
  replace ((a + (n + - a + - 0 + - 0)) / n + - ch)%Qc with (1 + - ch)%Qc
    by (by field).
  by apply Qcmult_inv_r.
Qed.

(** X4: the kappa of a voxel set with itself is 1, provided the product
    [N] of the extents of its bounding box, which the code takes for the
    number of voxels of the box, is neither 0 nor the number of voxels of
    the set, and the square of [N] is within [int64]. *)
Theorem kappa_identical (A : gset voxel) (lo hi : voxel) :
  is_bounding_box A lo hi →
  extent_product lo hi ≠ 0 →
  extent_product lo hi ≠ Z.of_nat (size A) →
  extent_product lo hi * extent_product lo hi < 2 ^ 63 →
  kappa_value A A = Returns (Finite 1%Qc).
Proof.
  intros Hbox HN Hne Hsq.
  assert (HA : size A ≠ 0%nat).
  { destruct (Hbox AxisX) as (_ & (v & Hv & _) & _).
    apply size_non_empty_iff. intros HE. apply (HE v) in Hv.
    by apply not_elem_of_empty in Hv. }
  assert (A ∪ A = A) as HAA by apply union_idemp_L.
  rewrite <- HAA in Hbox.
  rewrite (kappa_value_box A A lo hi Hbox). f_equal.
  set (N := extent_product lo hi) in *.
  rewrite !wrap64_small by nia.
  assert (A ∩ A = A) as -> by apply intersection_idemp_L.
  rewrite difference_diag_L, size_empty.
  unfold of_len, of_int. change (Z.of_nat 0) with 0.
  rewrite Qc_of_Z_0, Qc_of_Z_mult.
  apply kappa_float_identical.
  - by apply Qc_of_Z_ne_0.
  - apply Qc_of_Z_ne_0. lia.
  - intros H. apply Hne.
    apply (f_equal (λ q : Qc, Qnum q)) in H. exact H.
Qed.

Lemma example_A_box : is_bounding_box example_A (0, 0, 0) (2, 2, 2).
Proof.
  unfold example_A. intros a. split; [|split].
  - intros v Hv. rewrite !elem_of_union, !elem_of_singleton in Hv.
    destruct Hv as [[->| ->]| ->]; destruct a; simpl; lia.
  - exists (0, 0, 0). split; [set_solver|by destruct a].
  - exists (2, 2, 2). split; [set_solver|by destruct a].
Defined.

Lemma kappa_identical_witness :
  kappa_value example_A example_A = Returns (Finite 1%Qc).
Proof.
  apply (kappa_identical example_A (0, 0, 0) (2, 2, 2)).
  - exact example_A_box.
  - by_compute.
  - by_compute.
  - reflexivity.
Defined.

(** With the two voxels of [wide] the square of [N] is beyond [int64]
    and kappa is NaN instead. *)
Example kappa_identical_wraps : kappa_value wide wide = Returns NaN.
Proof. by_compute. Qed.

(** X5: when the bounding box of the two voxel sets has an extent of zero
    on some axis, as for voxels that lie in one plane, kappa is NaN and no
    exception is raised: numpy divides by the zero. *)
Theorem kappa_flat_box_nan (A B : gset voxel) (lo hi : voxel) :
  is_bounding_box (A ∪ B) lo hi →
  extent_product lo hi = 0 →
  kappa_value A B = Returns NaN.
Proof.
  intros Hbox H0. rewrite (kappa_value_box A B lo hi Hbox), H0. f_equal.
  change (wrap64 (0 * 0)) with 0. change (wrap64 0) with 0.
  replace (of_int 0) with (Finite 0%Qc)
    by (unfold of_int; by rewrite Qc_of_Z_0).
  apply kappa_float_zero_box.
Qed.

Lemma flat_box : is_bounding_box (flat_A ∪ flat_B) (0, 0, 0) (1, 1, 0).
Proof.
  unfold flat_A, flat_B. intros a. split; [|split].
  - intros v Hv. rewrite !elem_of_union, !elem_of_singleton in Hv.
    destruct Hv as [->| ->]; destruct a; simpl; lia.
  - exists (0, 0, 0). split; [set_solver|by destruct a].
  - destruct a; [exists (1, 1, 0)|exists (1, 1, 0)|exists (0, 0, 0)];
      (split; [set_solver|reflexivity]).
Defined.

Lemma kappa_flat_box_nan_witness : kappa_value flat_A flat_B = Returns NaN.
Proof.
  apply (kappa_flat_box_nan flat_A flat_B (0, 0, 0) (1, 1, 0)).
  - exact flat_box.
  - reflexivity.
Defined.

(** ** Volume estimate *)

(** X6: the two voxel sets behind the volume estimate.  The dilated set
    holds the occupied voxels and their six face neighbours, and nothing
    else; the eroded set holds the occupied voxels all six face neighbours
    of which are occupied, and nothing else. *)
Theorem dilate_erode_spec (voxels : gset voxel) :
  (∀ x, x ∈ (dilate_erode voxels).1
        ↔ x ∈ voxels ∨ ∃ v, v ∈ voxels ∧ x ∈ neighbors_list v) ∧
  (∀ x, x ∈ (dilate_erode voxels).2 ↔ x ∈ voxels ∧ interior voxels x).
Proof.
  unfold dilate_erode. split; intros x.
  - rewrite (proj1 (volume_fold voxels (elements voxels) (∅ ∪ voxels) ∅ x)).
    rewrite (left_id_L ∅ (∪)). by setoid_rewrite elem_of_elements.
  - rewrite (proj2 (volume_fold voxels (elements voxels) (∅ ∪ voxels) ∅ x)).
    rewrite elem_of_empty, elem_of_elements. tauto.
Qed.

(** X7: the eroded set lies inside the occupied voxels and these inside
    the dilated set, so the difference of the counts that the estimate
    halves is never negative. *)
Theorem dilate_erode_nested (voxels : gset voxel) :
  (dilate_erode voxels).2 ⊆ voxels ∧
  voxels ⊆ (dilate_erode voxels).1 ∧
  0 ≤ Z.of_nat (size (dilate_erode voxels).1)
      - Z.of_nat (size (dilate_erode voxels).2).
Proof.
  assert (H1 : (dilate_erode voxels).2 ⊆ voxels).
  { intros x Hx.
    by apply (proj2 (dilate_erode_elem voxels x)) in Hx as [? _]. }
  assert (H2 : voxels ⊆ (dilate_erode voxels).1).
  { intros x Hx. apply (proj1 (dilate_erode_elem voxels x)). by left. }
  split; [done|]. split; [done|].
  apply subseteq_size in H1, H2. lia.
Qed.

(** ** Voxelizer *)

(** X8: the voxel set of a tractography depends on its points only, not
    on how they are spread over streamlines, on their order or on how
    often one occurs. *)
Theorem voxelized_tract_points (ts1 ts2 : list tract) (r : float64) :
  ts1 ≠ [] → ts2 ≠ [] →
  (∀ p, p ∈ concat ts1 ↔ p ∈ concat ts2) →
  voxelized_tract ts1 r = voxelized_tract ts2 r.
Proof.
  intros H1 H2 Hp. unfold voxelized_tract.
  rewrite !vstack_nonempty by done. cbn [mbind outcome_bind]. f_equal.
  apply set_eq. intros v. rewrite !elem_of_list_to_set, !list_elem_of_fmap.
  split; intros (p & -> & Hin); exists p; (split; [done|]); by apply Hp.
Qed.

Lemma voxelized_tract_points_witness :
  voxelized_tract same_points_1 (Finite 1%Qc)
  = voxelized_tract same_points_2 (Finite 1%Qc).
Proof.
  apply voxelized_tract_points; [done..|].
  intros p. unfold same_points_1, same_points_2. cbn [concat app].
  rewrite !elem_of_cons, !elem_of_nil. tauto.
Defined.

(** X9: when two tractographies are voxelized at the same resolution, the
    tractography made of the streamlines of both gets the union of the two
    voxel sets. *)
Theorem voxelized_tract_app (ts1 ts2 : list tract) (r : float64)
    (A B : gset voxel) :
  voxelized_tract ts1 r = Returns A →
  voxelized_tract ts2 r = Returns B →
  voxelized_tract (ts1 ++ ts2) r = Returns (A ∪ B).
Proof.
  unfold voxelized_tract. intros HA HB.
  destruct ts1 as [|t1 ts1]; [discriminate|].
  destruct ts2 as [|t2 ts2]; [discriminate|].
  cbn [vstack mbind outcome_bind app] in *.
  injection HA as <-. injection HB as <-. f_equal.
  change (t1 :: ts1 ++ t2 :: ts2) with ((t1 :: ts1) ++ (t2 :: ts2)).
  by rewrite concat_app, fmap_app, list_to_set_app_L.
Qed.

Lemma voxelized_tract_app_witness :
  voxelized_tract (reference_tracts ++ comparison_tracts) (Finite 1%Qc)
  = Returns ({[ (0, 0, 0); (10, 0, 0) ]} ∪ {[ (0, 0, 0); (1, 0, 0) ]}).
Proof. apply voxelized_tract_app; by_compute. Defined.

(** ** Bhattacharyya: the range of the histograms *)

Lemma qmin_le_l a b : (qmin a b ≤ a)%Qc.
Proof.
  unfold qmin. case_decide as H; [apply Qcle_refl|].
  apply Qclt_le_weak. by apply Qcnot_le_lt.
Qed.

Lemma ple_refl p : ple p p.
Proof. destruct p as [[a b] c]. repeat split; apply Qcle_refl. Qed.

Lemma ple_trans p q r : ple p q → ple q r → ple p r.
Proof.
  destruct p as [[a b] c], q as [[a' b'] c'], r as [[x y] z].
  intros (?&?&?) (?&?&?). repeat split; by eapply Qcle_trans.
Qed.

Lemma minimum_ple_l p q : ple (minimum p q) p.
Proof.
  destruct p as [[a b] c], q as [[x y] z]. repeat split; apply qmin_le_l.
Qed.

Lemma minimum_ple_r p q : ple (minimum p q) q.
Proof.
  destruct p as [[a b] c], q as [[x y] z]. repeat split; apply qmin_le_r.
Qed.

Lemma foldl_minimum_ple (l : list point) (p q : point) :
  q ∈ p :: l → ple (foldl minimum p l) q.
Proof.
  revert p q. induction l as [|r l IH]; intros p q; cbn [foldl].
  - intros ->%list_elem_of_singleton. apply ple_refl.
  - intros [->|[->|Hq]%elem_of_cons]%elem_of_cons.
    + eapply ple_trans; [apply (IH _ (minimum p r)); left|].
      apply minimum_ple_l.
    + eapply ple_trans; [apply (IH _ (minimum p r)); left|].
      apply minimum_ple_r.
    + apply IH. by right.
Qed.

Lemma points_min_ple (pts : list point) (lo p : point) :
  points_min pts = Returns lo → p ∈ pts → ple lo p.
Proof.
  destruct pts as [|p0 l]; [discriminate|]. intros [= <-].
  apply foldl_minimum_ple.
Qed.

Lemma range_loop_lower (clouds : list (list point)) (m M mn mx : point) :
  ofoldl range_step (m, M) clouds = Returns (mn, mx) →
  ple mn m ∧ ∀ c p, c ∈ clouds → p ∈ c → ple mn p.
Proof.
  revert m M. induction clouds as [|c clouds IH]; intros m M; cbn [ofoldl].
  - intros [= <- <-]. split; [apply ple_refl|]. by intros c p ?%elem_of_nil.
  - destruct (range_step (m, M) c) as [[m' M']|] eqn:Hstep;
      cbn [mbind outcome_bind]; [|discriminate].
    unfold range_step in Hstep.
    destruct (points_min c) as [lo|] eqn:Hlo;
      cbn [mbind outcome_bind] in Hstep; [|discriminate].
    destruct (points_max c) as [hi|] eqn:Hhi;
      cbn [mbind outcome_bind] in Hstep; [|discriminate].
    injection Hstep as <- <-. intros Hrest.
    destruct (IH _ _ Hrest) as [Hm Hc]. split.
    + eapply ple_trans; [exact Hm|apply minimum_ple_l].
    + intros c' p [->|Hc']%elem_of_cons Hp; [|by eapply Hc].
      eapply ple_trans; [exact Hm|].
      eapply ple_trans; [apply minimum_ple_r|]. by eapply points_min_ple.
Qed.

Lemma range_loop_upper (clouds : list (list point)) (last : list point)
    (m M mn mx : point) :
  ofoldl range_step (m, M) (clouds ++ [last]) = Returns (mn, mx) →
  ∃ hi, points_max last = Returns hi ∧ mx = maximum mn hi.
Proof.
  rewrite ofoldl_app.
  destruct (ofoldl range_step (m, M) clouds) as [[m' M']|];
    cbn [mbind outcome_bind ofoldl]; [|discriminate].
  unfold range_step.
  destruct (points_min last) as [lo|]; cbn [mbind outcome_bind];
    [|discriminate].
  destruct (points_max last) as [hi|]; cbn [mbind outcome_bind];
    [|discriminate].
  intros [= <- <-]. by exists hi.
Qed.

Lemma omap_vstack {A} (ls : list (list (list A))) (clouds : list (list A)) :
  omap vstack ls = Returns clouds →
  clouds = (λ l : list (list A), concat l) <$> ls.
Proof.
  revert clouds. induction ls as [|l ls IH]; intros clouds; cbn [omap].
  - by intros [= <-].
  - destruct l as [|a l]; cbn [vstack mbind outcome_bind]; [discriminate|].
    destruct (omap vstack ls) as [cs|]; cbn [mbind outcome_bind];
      [|discriminate].
    intros [= <-]. rewrite fmap_cons.
    by rewrite (IH cs).
Qed.

(** X11: the lower corner of the range the histograms share is right: on
    every axis it lies at or below every point of the reference
    tractography and of every tractography compared with it. *)
Theorem bhattacharyya_lower_bound (tracts : list tract)
    (other_tracts : list (list tract)) (mn mx : point) :
  bhattacharyya_range tracts other_tracts = Returns (mn, mx) →
  (∀ p, p ∈ concat tracts → ple mn p) ∧
  (∀ ts p, ts ∈ other_tracts → p ∈ concat ts → ple mn p).
Proof.
  unfold bhattacharyya_range.
  destruct (vstack tracts) as [pts|] eqn:Hpts; cbn [mbind outcome_bind];
    [|discriminate].
  destruct (omap vstack other_tracts) as [clouds|] eqn:Hcl;
    cbn [mbind outcome_bind]; [|discriminate].
  destruct (points_min pts) as [m0|] eqn:Hm0; cbn [mbind outcome_bind];
    [|discriminate].
  destruct (points_max pts) as [M0|]; cbn [mbind outcome_bind];
    [|discriminate].
  intros [Hm Hc]%range_loop_lower.
  apply omap_vstack in Hcl as ->.
  assert (pts = concat tracts) as ->.
  { destruct tracts; [discriminate|]. by injection Hpts. }
  split.
  - intros p Hp. eapply ple_trans; [exact Hm|]. by eapply points_min_ple.
  - intros ts p Hts Hp. apply (Hc (concat ts)); [|done].
    by apply list_elem_of_fmap_2.
Qed.

Lemma bhattacharyya_lower_bound_witness :
  (∀ p, p ∈ concat reference_tracts → ple (0, 0, 0)%Qc p) ∧
  (∀ ts p, ts ∈ [comparison_tracts] → p ∈ concat ts → ple (0, 0, 0)%Qc p).
Proof.
  apply (bhattacharyya_lower_bound reference_tracts [comparison_tracts]
           (0, 0, 0)%Qc (1, 0, 0)%Qc).
  by_compute.
Defined.

(** X12: the upper corner of that range is taken from the last
    tractography compared alone: it is the larger, on every axis, of the
    lower corner and the largest coordinate of the points of that
    tractography, whatever the points of the reference and of the
    tractographies before it. *)
Theorem bhattacharyya_upper_bound (tracts : list tract)
    (front : list (list tract)) (last : list tract) (mn mx : point) :
  bhattacharyya_range tracts (front ++ [last]) = Returns (mn, mx) →
  ∃ hi, points_max (concat last) = Returns hi ∧ mx = maximum mn hi.
Proof.
  unfold bhattacharyya_range.
  destruct (vstack tracts) as [pts|]; cbn [mbind outcome_bind];
    [|discriminate].
  destruct (omap vstack (front ++ [last])) as [clouds|] eqn:Hcl;
    cbn [mbind outcome_bind]; [|discriminate].
  destruct (points_min pts) as [m0|]; cbn [mbind outcome_bind];
    [|discriminate].
  destruct (points_max pts) as [M0|]; cbn [mbind outcome_bind];
    [|discriminate].
  apply omap_vstack in Hcl as ->. rewrite fmap_app. cbn [fmap list_fmap].
  apply range_loop_upper.
Qed.

Lemma bhattacharyya_upper_bound_witness :
  ∃ hi, points_max (concat comparison_tracts) = Returns hi ∧
        (1, 0, 0)%Qc = maximum (0, 0, 0)%Qc hi.
Proof.
  apply (bhattacharyya_upper_bound reference_tracts [] comparison_tracts).
  by_compute.
Defined.

(** ** Between physical and voxel coordinates *)

(** Cramer's rule solves the system, and only the solution does. *)
Lemma cramer_solves_system (a : mat4) (b : vec4) :
  det4 a ≠ 0%Qc → mat_vec a (cramer a b) = b.
Proof.
  intros Hd.
  destruct a as [[[[[[a00 a01] a02] a03] [[[a10 a11] a12] a13]]
                   [[[a20 a21] a22] a23]] [[[a30 a31] a32] a33]].
  destruct b as [[[b0 b1] b2] b3].
  unfold cramer, mat_vec, dot4, set_col, set_entry, det4, det3, drop_col in *.
  repeat f_equal; field; exact Hd.
Qed.

Lemma cramer_unique (a : mat4) (x : vec4) :
  det4 a ≠ 0%Qc → cramer a (mat_vec a x) = x.
Proof.
  intros Hd.
  destruct a as [[[[[[a00 a01] a02] a03] [[[a10 a11] a12] a13]]
                   [[[a20 a21] a22] a23]] [[[a30 a31] a32] a33]].
  destruct x as [[[x0 x1] x2] x3].
  unfold cramer, mat_vec, dot4, set_col, set_entry, det4, det3, drop_col in *.
  repeat f_equal; field; exact Hd.
Qed.

Lemma cramer_columns (a : mat4) (w : vec4) :
  det4 a ≠ 0%Qc →
  mat_vec (transpose (cramer a (1, 0, 0, 0)%Qc, cramer a (0, 1, 0, 0)%Qc,
                      cramer a (0, 0, 1, 0)%Qc, cramer a (0, 0, 0, 1)%Qc)) w
  = cramer a w.
Proof.
  intros Hd.
  destruct a as [[[[[[a00 a01] a02] a03] [[[a10 a11] a12] a13]]
                   [[[a20 a21] a22] a23]] [[[a30 a31] a32] a33]].
  destruct w as [[[w0 w1] w2] w3].
  unfold cramer, transpose, mat_vec, dot4, set_col, set_entry, det4, det3,
    drop_col in *.
  repeat f_equal; field; exact Hd.
Qed.

Lemma mat_vec_inj (a : mat4) (x y : vec4) :
  det4 a ≠ 0%Qc → mat_vec a x = mat_vec a y → x = y.
Proof.
  intros Hd H. rewrite <- (cramer_unique a x), <- (cramer_unique a y) by done.
  by rewrite H.
Qed.

Lemma cramer_solve_exact : solves_exactly cramer_solve.
Proof.
  intros a bs. unfold cramer_solve. case_decide as Hd; [done|].
  eexists. split; [reflexivity|]. rewrite <- list_fmap_compose.
  rewrite <- (list_fmap_id bs) at 2. apply list_fmap_ext.
  intros i b _. by apply cramer_solves_system.
Qed.

Lemma cramer_inv_exact : inverts_exactly cramer_inv.
Proof.
  intros a. unfold cramer_inv. case_decide as Hd; [done|].
  eexists. split; [reflexivity|]. intros v.
  rewrite cramer_columns by done. by apply cramer_unique.
Qed.

Lemma homogeneous_drop_last (a : mat4) (x : vec4) (p : point) :
  affine_matrix a → mat_vec a x = homogeneous p →
  homogeneous (drop_last x) = x.
Proof.
  destruct a as [[[r0 r1] r2] r3], x as [[[x0 x1] x2] x3], p as [[p0 p1] p2].
  unfold affine_matrix, mat_vec, homogeneous, drop_last.
  intros -> H. apply (f_equal snd) in H. cbn [snd] in H. f_equal.
  rewrite <- H. unfold dot4. ring.
Qed.

Lemma affine_last (a : mat4) (p : point) :
  affine_matrix a →
  homogeneous (drop_last (mat_vec a (homogeneous p)))
  = mat_vec a (homogeneous p).
Proof.
  destruct a as [[[r0 r1] r2] r3], p as [[p0 p1] p2].
  unfold affine_matrix, mat_vec, homogeneous, drop_last.
  intros ->. f_equal; unfold dot4; ring.
Qed.

Lemma drop_last_homogeneous (l : list point) :
  drop_last <$> (homogeneous <$> l) = l.
Proof.
  rewrite <- list_fmap_compose. rewrite <- (list_fmap_id l) at 2.
  apply list_fmap_ext. by intros i [[x y] z] _.
Qed.

Section Mapper.
Variable linalg_solve : mat4 → list vec4 → outcome (list vec4).
Variable linalg_inv : mat4 → outcome mat4.
Hypothesis solve_exact : solves_exactly linalg_solve.
Hypothesis inv_exact : inverts_exactly linalg_inv.

Lemma solve_returns (a : mat4) (bs xs : list vec4) :
  linalg_solve a bs = Returns xs → det4 a ≠ 0%Qc ∧ mat_vec a <$> xs = bs.
Proof.
  intros H. pose proof (solve_exact a bs) as Hs. case_decide as Hd.
  - rewrite H in Hs. discriminate.
  - destruct Hs as (xs' & Hs & ?). rewrite H in Hs. by injection Hs as ->.
Qed.

Lemma solve_unique (a : mat4) (xs : list vec4) :
  det4 a ≠ 0%Qc → linalg_solve a (mat_vec a <$> xs) = Returns xs.
Proof.
  intros Hd. pose proof (solve_exact a (mat_vec a <$> xs)) as Hs.
  rewrite decide_False in Hs by done. destruct Hs as (xs' & -> & Hs).
  f_equal. revert xs' Hs.
  induction xs as [|x xs IH]; intros [|x' xs']; try done.
  rewrite !fmap_cons. intros [= Hx Hs]. f_equal; [|by apply IH].
  by eapply mat_vec_inj.
Qed.

(** X13: from voxel to physical coordinates and back.  For an image the
    affine of which is invertible and has the last row [0 0 0 1], and an
    exact solver, mapping voxel coordinates to physical ones and these
    back to voxel coordinates returns the coordinates one started from. *)
Theorem ijk_of_ras (img : image) (tract_ijk : list point) :
  det4 (image_affine img) ≠ 0%Qc →
  affine_matrix (image_affine img) →
  tract_in_ijk linalg_solve img [tract_in_ras img tract_ijk]
  = Returns tract_ijk.
Proof.
  intros Hd Ha. unfold tract_in_ijk, tract_in_ras.
  cbn [vstack concat mbind outcome_bind]. rewrite app_nil_r.
  rewrite <- list_fmap_compose.
  rewrite (list_fmap_ext _ (mat_vec (image_affine img) ∘ homogeneous)
             tract_ijk)
    by (intros i p _; by apply affine_last).
  rewrite list_fmap_compose, solve_unique by done.
  cbn [mbind outcome_bind]. f_equal. apply drop_last_homogeneous.
Qed.

(** X14: from physical to voxel coordinates and back.  When the points of
    a tractography map to voxel space, with an exact solver and an affine
    with the last row [0 0 0 1], mapping the result to physical space
    gives the points of the tractography, in the order of the
    streamlines. *)
Theorem ras_of_ijk (img : image) (tracts : list tract)
    (ijk_points : list point) :
  affine_matrix (image_affine img) →
  tract_in_ijk linalg_solve img tracts = Returns ijk_points →
  tract_in_ras img ijk_points = concat tracts.
Proof.
  intros Ha. unfold tract_in_ijk, tract_in_ras.
  destruct tracts as [|t ts]; [discriminate|].
  cbn [vstack mbind outcome_bind].
  destruct (linalg_solve _ _) as [xs|] eqn:Hs; cbn [mbind outcome_bind];
    [|discriminate].
  intros [= <-]. apply solve_returns in Hs as [Hd Hs].
  rewrite <- (drop_last_homogeneous (concat (t :: ts))), <- Hs.
  rewrite <- !list_fmap_compose. apply list_fmap_ext.
  intros i x Hx. cbn [compose].
  assert (∃ p, mat_vec (image_affine img) x = homogeneous p) as [p Hp].
  { apply (f_equal (λ l, l !! i)) in Hs. rewrite !list_lookup_fmap, Hx in Hs.
    destruct (concat (t :: ts) !! i) as [p|]; [|done].
    exists p. by apply (inj Some) in Hs. }
  by rewrite (homogeneous_drop_last _ _ _ Ha Hp).
Qed.

(** X15: the two mappers to voxel space agree.  With an exact solver and
    an exact inverse, and at least one streamline, mapping all the points
    at once gives the points that mapping streamline by streamline gives,
    one streamline after the other; and when the latter raises, on a
    singular affine, so does the former, with the same exception. *)
Theorem each_tract_agrees (img : image) (tracts : list tract) :
  tracts ≠ [] →
  match each_tract_in_ijk linalg_inv img tracts with
  | Returns ijk_tracts =>
      tract_in_ijk linalg_solve img tracts = Returns (concat ijk_tracts)
  | Raises e => tract_in_ijk linalg_solve img tracts = Raises e
  end.
Proof.
  intros Hne. unfold each_tract_in_ijk, tract_in_ijk.
  rewrite vstack_nonempty by done. cbn [mbind outcome_bind].
  pose proof (solve_exact (image_affine img) (homogeneous <$> concat tracts))
    as Hs.
  pose proof (inv_exact (image_affine img)) as Hi.
  case_decide as Hd.
  - rewrite Hs. destruct tracts as [|t ts]; [done|].
    cbn [omap]. rewrite Hi. reflexivity.
  - destruct Hi as (inv & Hi & Hinv). destruct Hs as (xs & -> & Hs).
    cbn [mbind outcome_bind].
    assert (omap (λ t : tract,
                inv ← linalg_inv (image_affine img);
                Returns ((λ p, drop_last (mat_vec inv (homogeneous p)))
                           <$> t))
              tracts
            = Returns ((λ t : tract,
                (λ p, drop_last (mat_vec inv (homogeneous p))) <$> t)
                         <$> tracts))
      as ->.
    { clear -Hi. induction tracts as [|t ts IH]; [done|].
      cbn [omap]. rewrite IH, Hi. reflexivity. }
    f_equal.
    assert (xs = mat_vec inv <$> (homogeneous <$> concat tracts)) as ->.
    { rewrite <- Hs, <- list_fmap_compose. rewrite <- (list_fmap_id xs) at 1.
      apply list_fmap_ext. intros i x _. cbn. by rewrite Hinv. }
    rewrite <- !list_fmap_compose. clear.
    induction tracts as [|t ts IH]; [done|].
    cbn [concat fmap list_fmap]. rewrite fmap_app. f_equal. apply IH.
Qed.

End Mapper.

Lemma example_affine_regular : det4 (image_affine example_image) ≠ 0%Qc.
Proof. by_compute. Qed.

Lemma ijk_of_ras_witness :
  tract_in_ijk cramer_solve example_image
    [tract_in_ras example_image [(0, 0, 0)%Qc; (1, 1, 0)%Qc]]
  = Returns [(0, 0, 0)%Qc; (1, 1, 0)%Qc].
Proof.
  apply (ijk_of_ras cramer_solve cramer_solve_exact).
  - exact example_affine_regular.
  - reflexivity.
Defined.

Lemma ras_of_ijk_witness :
  tract_in_ras example_image [(0, 0, 0)%Qc; (Q2Qc 4, 1, - Q2Qc 3)%Qc]
  = concat example_tracts.
Proof.
  apply (ras_of_ijk cramer_solve cramer_solve_exact example_image
           example_tracts).
  - reflexivity.
  - exact example_ijk.
Defined.

Lemma each_tract_agrees_witness :
  match each_tract_in_ijk cramer_inv example_image example_tracts with
  | Returns ijk_tracts =>
      tract_in_ijk cramer_solve example_image example_tracts
      = Returns (concat ijk_tracts)
  | Raises e =>
      tract_in_ijk cramer_solve example_image example_tracts = Raises e
  end.
Proof.
  apply (each_tract_agrees cramer_solve cramer_inv cramer_solve_exact
           cramer_inv_exact example_image example_tracts).
  done.
Defined.

(** ** Probability maps *)

Lemma foldl_insert_fun_lookup (f : voxel → float64) (m : gmap voxel float64)
    (cs : list voxel) (c : voxel) :
  foldl (λ m c, <[c := f c]> m) m cs !! c
  = if decide (c ∈ cs) then Some (f c) else m !! c.
Proof.
  revert m. induction cs as [|c' cs IH]; intros m; cbn [foldl].
  - case_decide as H; [by apply elem_of_nil in H|done].
  - rewrite IH. destruct (decide (c ∈ cs)) as [Hin|Hnin].
    + rewrite decide_True; [done|by right].
    + destruct (decide (c = c')) as [->|Hne].
      * rewrite decide_True by left. apply lookup_insert_eq.
      * rewrite decide_False by (rewrite elem_of_cons; tauto).
        by apply lookup_insert_ne.
Qed.

Lemma touch_count_cons shape (t : list point) ts c :
  touch_count shape (t :: ts) c
  = ((if decide (c ∈ clip_index shape <$> t) then 1 else 0)
     + touch_count shape ts c)%nat.
Proof. unfold touch_count. rewrite filter_cons. by case_decide. Qed.

Lemma touch_count_le shape ts c : (touch_count shape ts c ≤ length ts)%nat.
Proof. apply length_filter. Qed.

Lemma increment_at_clipped shape (g : grid) (pts : list point) :
  shape_positive shape →
  grid_shape g = shape →
  increment_at g (clip_index shape <$> pts)
  = Returns (Grid shape
      (foldl (λ m c, <[c := fadd (default NaN (grid_cells g !! c))
                                  (Finite 1%Qc)]> m)
             (grid_cells g) (clip_index shape <$> pts))).
Proof.
  intros Hs <-. unfold increment_at. rewrite omap_returns; [done|].
  intros c (p & -> & _)%list_elem_of_fmap. apply locate_in_bounds.
  by apply clip_index_in_bounds.
Qed.

(** The counting loop: a cell that holds the number [k c] before holds
    that number plus the number of streamlines that touch it after. *)
Lemma probability_loop shape (ijk_tracts : list (list point)) (g : grid)
    (k : voxel → nat) :
  shape_positive shape →
  grid_shape g = shape →
  (∀ c, in_bounds shape c → grid_cells g !! c = Some (of_len (k c))) →
  (∀ c, ¬ in_bounds shape c → grid_cells g !! c = None) →
  ∃ g',
    ofoldl (λ g ijk_points,
              increment_at g (clip_index shape <$> (ijk_points : list point)))
           g ijk_tracts = Returns g' ∧
    grid_shape g' = shape ∧
    (∀ c, in_bounds shape c →
       grid_cells g' !! c
       = Some (of_len (k c + touch_count shape ijk_tracts c))) ∧
    (∀ c, ¬ in_bounds shape c → grid_cells g' !! c = None).
Proof.
  intros Hpos. revert g k.
  induction ijk_tracts as [|t ts IH]; intros g k Hg Hin Hout; cbn [ofoldl].
  - exists g. split; [done|]. split; [done|]. split; [|done].
    intros c Hc. rewrite Hin by done. do 2 f_equal.
    unfold touch_count. cbn. lia.
  - rewrite increment_at_clipped by done. cbn [mbind outcome_bind].
    destruct (IH (Grid shape
      (foldl (λ m c, <[c := fadd (default NaN (grid_cells g !! c))
                                  (Finite 1%Qc)]> m)
             (grid_cells g) (clip_index shape <$> t)))
      (λ c, (k c + if decide (c ∈ clip_index shape <$> t) then 1 else 0)%nat))
      as (g' & Hg' & Hs' & Hin' & Hout').
    + done.
    + intros c Hc. cbn [grid_cells].
      rewrite (foldl_insert_fun_lookup
        (λ c, fadd (default NaN (grid_cells g !! c)) (Finite 1%Qc))).
      rewrite Hin by done. case_decide.
      * cbn [default]. unfold of_len, of_int. cbn [fadd]. do 2 f_equal.
        rewrite Nat2Z.inj_add, Qc_of_Z_plus. reflexivity.
      * by rewrite Nat.add_0_r.
    + intros c Hc. cbn [grid_cells].
      rewrite (foldl_insert_fun_lookup
        (λ c, fadd (default NaN (grid_cells g !! c)) (Finite 1%Qc))).
      rewrite decide_False; [by apply Hout|].
      intros (p & -> & _)%list_elem_of_fmap. apply Hc.
      by apply clip_index_in_bounds.
    + exists g'. split; [done|]. split; [done|]. split; [|done].
      intros c Hc. rewrite Hin', touch_count_cons by done.
      f_equal. unfold of_len. f_equal. lia.
Qed.

Lemma zeros_cells shape c :
  (in_bounds shape c → grid_cells (zeros shape) !! c = Some (Finite 0%Qc)) ∧
  (¬ in_bounds shape c → grid_cells (zeros shape) !! c = None).
Proof.
  rewrite zeros_lookup. split; intros H.
  - rewrite decide_True; [done|by apply elem_of_indices].
  - rewrite decide_False; [done|by rewrite elem_of_indices].
Qed.

Lemma in_bounds_shape_positive shape c :
  in_bounds shape c → shape_positive shape.
Proof.
  destruct shape as [[nx ny] nz], c as [[i j] k].
  unfold in_bounds, shape_positive. lia.
Qed.

(** The map of a tractography without streamlines: zero divided by
    zero. *)
Lemma nan_grid_lookup shape c :
  (in_bounds shape c →
   grid_cells (grid_map (λ x, fdiv x (of_len 0)) (zeros shape)) !! c
   = Some NaN) ∧
  (¬ in_bounds shape c →
   grid_cells (grid_map (λ x, fdiv x (of_len 0)) (zeros shape)) !! c = None).
Proof.
  cbn [grid_map grid_cells]. rewrite lookup_fmap.
  split; intros Hc.
  - rewrite (proj1 (zeros_cells _ _)) by done.
    cbn [fmap option_fmap option_map]. f_equal; by_compute.
  - by rewrite (proj2 (zeros_cells _ _)).
Qed.

Lemma union_one (p : Qc) :
  fsub (fadd (Finite p) (Finite 1%Qc)) (fmul (Finite p) (Finite 1%Qc))
  = Finite 1%Qc.
Proof. cbn [fsub fadd fmul fneg]. f_equal. ring. Qed.

Lemma union_zero (p : Qc) :
  fsub (fadd (Finite p) (Finite 0%Qc)) (fmul (Finite p) (Finite 0%Qc))
  = Finite p.
Proof. cbn [fsub fadd fmul fneg]. f_equal. ring. Qed.

Lemma union_nan (m : float64) : fsub (fadd NaN m) (fmul NaN m) = NaN.
Proof. by destruct m. Qed.

Section ProbabilityFacts.
Variable linalg_solve : mat4 → list vec4 → outcome (list vec4).
Variable linalg_inv : mat4 → outcome mat4.

Lemma probability_map_lookup (img : image) (tracts : list tract)
    (ijk_tracts : list (list point)) :
  shape_positive (image_shape img) →
  tracts ≠ [] →
  each_tract_in_ijk linalg_inv img tracts = Returns ijk_tracts →
  ∃ g,
    tract_probability_map linalg_inv img tracts = Returns g ∧
    grid_shape g = image_shape img ∧
    (∀ c, in_bounds (image_shape img) c →
       grid_cells g !! c
       = Some (Finite (Qc_of_Z (Z.of_nat (touch_count (image_shape img)
                                             ijk_tracts c))
                       / Qc_of_Z (Z.of_nat (length tracts)))%Qc)) ∧
    (∀ c, ¬ in_bounds (image_shape img) c → grid_cells g !! c = None).
Proof.
  intros Hpos Hne Hijk. unfold tract_probability_map. rewrite Hijk.
  cbn [mbind outcome_bind].
  destruct (probability_loop (image_shape img) ijk_tracts
              (zeros (image_shape img)) (λ _, 0%nat))
    as (g & -> & Hs & Hin & Hout); [done|done|..].
  { intros c Hc. rewrite (proj1 (zeros_cells _ _)) by done.
    unfold of_len, of_int. by rewrite Nat2Z.inj_0, Qc_of_Z_0. }
  { intros c Hc. by apply zeros_cells. }
  cbn [mbind outcome_bind]. eexists. split; [reflexivity|].
  cbn [grid_map grid_shape grid_cells]. split; [done|].
  rewrite (omap_length _ _ _ Hijk).
  split; intros c Hc; rewrite lookup_fmap.
  - rewrite Hin by done. cbn [fmap option_fmap option_map].
    unfold of_len, of_int, fdiv. rewrite decide_False; [done|].
    apply Qc_of_Z_ne_0. destruct tracts; [done|]. cbn [length]. lia.
  - by rewrite Hout.
Qed.

(** X16: the probability map of a tractography.  On an image all axes of
    which have cells, when the streamlines, at least one, map to voxel
    space, the map is returned with the shape of the image; every cell of
    it holds the number of streamlines with a point clipped to the cell,
    each counted once, divided by the number of streamlines, a number
    between 0 and 1; and the map has no cell outside the shape. *)
Theorem tract_probability_map_cells (img : image) (tracts : list tract)
    (ijk_tracts : list (list point)) :
  shape_positive (image_shape img) →
  tracts ≠ [] →
  each_tract_in_ijk linalg_inv img tracts = Returns ijk_tracts →
  ∃ g,
    tract_probability_map linalg_inv img tracts = Returns g ∧
    grid_shape g = image_shape img ∧
    (∀ c, in_bounds (image_shape img) c →
       ∃ q, grid_cells g !! c = Some (Finite q) ∧
            q = (Qc_of_Z (Z.of_nat (touch_count (image_shape img)
                                      ijk_tracts c))
                 / Qc_of_Z (Z.of_nat (length tracts)))%Qc ∧
            (0 ≤ q ≤ 1)%Qc) ∧
    (∀ c, ¬ in_bounds (image_shape img) c → grid_cells g !! c = None).
Proof.
  intros Hpos Hne Hijk.
  destruct (probability_map_lookup img tracts ijk_tracts Hpos Hne Hijk)
    as (g & Hg & Hs & Hin & Hout).
  exists g. split; [done|]. split; [done|]. split; [|done].
  intros c Hc. eexists. split; [by apply Hin|]. split; [done|].
  apply Qc_of_Z_div_bounds.
  - pose proof (touch_count_le (image_shape img) ijk_tracts c) as Hle.
    apply omap_length in Hijk. lia.
  - destruct tracts; [done|]. cbn [length]. lia.
Qed.

(** X17: the probability map of a tractography without streamlines is
    returned, no exception is raised, and every cell of it holds NaN: the
    zero counts are divided by the zero number of streamlines. *)
Theorem empty_probability_map (img : image) :
  ∃ g,
    tract_probability_map linalg_inv img [] = Returns g ∧
    grid_shape g = image_shape img ∧
    (∀ c, in_bounds (image_shape img) c → grid_cells g !! c = Some NaN) ∧
    (∀ c, ¬ in_bounds (image_shape img) c → grid_cells g !! c = None).
Proof.
  eexists. split; [reflexivity|]. split; [done|].
  split; intros c Hc; by apply nan_grid_lookup.
Qed.

Lemma tract_mask_lookup (img : image) (tracts : list tract)
    (ijk_points : list point) :
  shape_positive (image_shape img) →
  tract_in_ijk linalg_solve img tracts = Returns ijk_points →
  ∃ mask,
    tract_mask linalg_solve img tracts = Returns mask ∧
    ∀ c, in_bounds (image_shape img) c →
      grid_cells mask !! c
      = Some (Finite (if decide (c ∈ clip_index (image_shape img)
                                       <$> ijk_points)
                      then 1 else 0)%Qc).
Proof.
  intros Hshape Hijk. unfold tract_mask. rewrite Hijk.
  cbn [mbind outcome_bind]. unfold assign_at.
  rewrite omap_returns.
  2:{ intros c (p & -> & _)%list_elem_of_fmap. apply locate_in_bounds.
      by apply clip_index_in_bounds. }
  cbn [mbind outcome_bind]. eexists. split; [reflexivity|].
  cbn [grid_shape grid_cells]. intros c Hc.
  rewrite foldl_insert_lookup. case_decide; [done|].
  by rewrite (proj1 (zeros_cells _ _)).
Qed.

Lemma tract_mask_returns_ijk (img : image) (tracts : list tract)
    (mask : grid) :
  tract_mask linalg_solve img tracts = Returns mask →
  ∃ ijk_points, tract_in_ijk linalg_solve img tracts = Returns ijk_points.
Proof.
  unfold tract_mask. destruct (tract_in_ijk _ _ _) as [ijk|]; [|discriminate].
  by exists ijk.
Qed.

Lemma probability_step_lookup (img : image) (prob_map : grid)
    (tracts : list tract) (ijk_points : list point) (c : voxel) (p : Qc) :
  tracts ≠ [] →
  tract_in_ijk linalg_solve img tracts = Returns ijk_points →
  in_bounds (image_shape img) c →
  grid_cells prob_map !! c = Some (Finite p) →
  ∃ g,
    probability_step linalg_solve img prob_map tracts = Returns g ∧
    grid_cells g !! c
    = Some (Finite (if decide (c ∈ clip_index (image_shape img)
                                     <$> ijk_points)
                    then 1%Qc else p)).
Proof.
  intros Hne Hijk Hc Hp. unfold probability_step.
  rewrite decide_False by (by destruct tracts).
  destruct (tract_mask_lookup img tracts ijk_points) as (mask & -> & Hm);
    [by eapply in_bounds_shape_positive|done|].
  cbn [mbind outcome_bind]. eexists. split; [reflexivity|].
  cbn [grid_zip grid_cells]. rewrite map_lookup_zip_with, Hp, Hm by done.
  cbn [mbind option_bind]. f_equal.
  case_decide; [apply union_one|apply union_zero].
Qed.

(** X18: one turn of the union.  When a tractography with streamlines
    maps to voxel space, the turn is returned; a cell inside the image
    that held the number [p] holds 1 after it if a point of the
    tractography is clipped to the cell, and [p] as before if none is. *)
Theorem probability_step_cells (img : image) (prob_map : grid)
    (tracts : list tract) (ijk_points : list point) (c : voxel) (p : Qc) :
  tracts ≠ [] →
  tract_in_ijk linalg_solve img tracts = Returns ijk_points →
  in_bounds (image_shape img) c →
  grid_cells prob_map !! c = Some (Finite p) →
  ∃ g,
    probability_step linalg_solve img prob_map tracts = Returns g ∧
    (c ∈ clip_index (image_shape img) <$> ijk_points →
     grid_cells g !! c = Some (Finite 1%Qc)) ∧
    (c ∉ clip_index (image_shape img) <$> ijk_points →
     grid_cells g !! c = Some (Finite p)).
Proof.
  intros Hne Hijk Hc Hp.
  destruct (probability_step_lookup img prob_map tracts ijk_points c p)
    as (g & Hg & Hcell); [done..|].
  exists g. split; [done|].
  split; intros Hin; rewrite Hcell; by case_decide.
Qed.

Lemma union_loop (img : image) (rest : list (list tract)) (g0 g : grid)
    (c : voxel) (p : Qc) :
  in_bounds (image_shape img) c →
  ofoldl (probability_step linalg_solve img) g0 rest = Returns g →
  grid_cells g0 !! c = Some (Finite p) →
  ∃ q, grid_cells g !! c = Some (Finite q) ∧
       (q = 1%Qc ∨ q = p) ∧
       (later_touch linalg_solve img rest c → q = 1%Qc) ∧
       (¬ later_touch linalg_solve img rest c → q = p).
Proof.
  intros Hc. revert g0 p. induction rest as [|ts rest IH]; intros g0 p;
    cbn [ofoldl].
  - intros [= <-] Hp. exists p. split; [done|]. split; [by right|].
    split; [|done]. by intros (? & ? & ?%elem_of_nil & _).
  - destruct (probability_step linalg_solve img g0 ts) as [g1|] eqn:Hstep;
      cbn [mbind outcome_bind]; [|discriminate].
    intros Hrest Hp. destruct (decide (ts = [])) as [->|Hne].
    + injection Hstep as <-.
      destruct (IH _ _ Hrest Hp) as (q & Hq & Hor & H1 & H2).
      exists q. split; [done|]. split; [done|]. split.
      * intros (ts & ijk & [->|Hin]%elem_of_cons & Hts & Hijk & Hcl); [done|].
        apply H1. by exists ts, ijk.
      * intros Hno. apply H2. intros (ts & ijk & Hin & ?).
        apply Hno. exists ts, ijk. split; [by right|done].
    + assert (∃ ijk, tract_in_ijk linalg_solve img ts = Returns ijk)
        as [ijk Hijk].
      { unfold probability_step in Hstep.
        rewrite decide_False in Hstep by (by destruct ts).
        destruct (tract_mask linalg_solve img ts) as [mask|] eqn:Hmask;
          [|discriminate]. by eapply tract_mask_returns_ijk. }
      destruct (probability_step_lookup img g0 ts ijk c p Hne Hijk Hc Hp)
        as (g1' & Hstep' & Hg1).
      rewrite Hstep in Hstep'. injection Hstep' as <-.
      destruct (IH _ _ Hrest Hg1) as (q & Hq & Hor & H1 & H2).
      exists q. split; [done|]. case_decide as Hin.
      * assert (q = 1%Qc) as -> by (by destruct Hor).
        split; [by left|]. split; [done|].
        intros []. exists ts, ijk. split; [left|done].
      * split; [done|]. split.
        -- intros (ts' & ijk' & [->|Hin']%elem_of_cons & Hts & Hijk' & Hcl).
           ++ rewrite Hijk in Hijk'. by injection Hijk' as <-.
           ++ apply H1. by exists ts', ijk'.
        -- intros Hno. apply H2. intros (ts' & ijk' & Hin' & ?).
           apply Hno. exists ts', ijk'. split; [by right|done].
Qed.

(** X19: the union of probability maps.  When the operation returns on
    tractographies the first of which has streamlines, every cell inside
    the image holds a number between 0 and 1: it is 1 when the mask of a
    later tractography marks the cell, and otherwise the fraction of the
    streamlines of the first tractography that touch the cell.  The first
    tractography enters by its fractions, the later ones as masks. *)
Theorem union_probability_cells (img : image) (first : list tract)
    (rest : list (list tract)) (ijk_tracts : list (list point)) (g : grid)
    (c : voxel) :
  first ≠ [] →
  each_tract_in_ijk linalg_inv img first = Returns ijk_tracts →
  tract_generate_probability_map linalg_solve linalg_inv (first :: rest) img
    = Returns g →
  in_bounds (image_shape img) c →
  ∃ q, grid_cells g !! c = Some (Finite q) ∧
       (0 ≤ q ≤ 1)%Qc ∧
       (later_touch linalg_solve img rest c → q = 1%Qc) ∧
       (¬ later_touch linalg_solve img rest c →
        q = (Qc_of_Z (Z.of_nat (touch_count (image_shape img) ijk_tracts c))
             / Qc_of_Z (Z.of_nat (length first)))%Qc).
Proof.
  intros Hne Hijk Hg Hc. unfold tract_generate_probability_map in Hg.
  destruct (probability_map_lookup img first ijk_tracts)
    as (g0 & Hg0 & _ & Hin & _);
    [by eapply in_bounds_shape_positive|done..|].
  rewrite Hg0 in Hg. cbn [mbind outcome_bind] in Hg.
  destruct (union_loop img rest g0 g c _ Hc Hg (Hin c Hc))
    as (q & Hq & Hor & H1 & H2).
  exists q. split; [done|]. split; [|done].
  destruct Hor as [->| ->]; [done|].
  apply Qc_of_Z_div_bounds.
  - pose proof (touch_count_le (image_shape img) ijk_tracts c) as Hle.
    apply omap_length in Hijk. lia.
  - destruct first; [done|]. cbn [length]. lia.
Qed.

Lemma nan_loop (img : image) (rest : list (list tract)) (g0 g : grid)
    (c : voxel) :
  in_bounds (image_shape img) c →
  ofoldl (probability_step linalg_solve img) g0 rest = Returns g →
  grid_cells g0 !! c = Some NaN →
  grid_cells g !! c = Some NaN.
Proof.
  intros Hc. revert g0. induction rest as [|ts rest IH]; intros g0;
    cbn [ofoldl].
  - by intros [= <-].
  - destruct (probability_step linalg_solve img g0 ts) as [g1|] eqn:Hstep;
      cbn [mbind outcome_bind]; [|discriminate].
    intros Hrest Hp. apply (IH g1 Hrest).
    unfold probability_step in Hstep. case_decide.
    { by injection Hstep as <-. }
    destruct (tract_mask linalg_solve img ts) as [mask|] eqn:Hmask;
      [|discriminate].
    cbn [mbind outcome_bind] in Hstep. injection Hstep as <-.
    destruct (tract_mask_returns_ijk _ _ _ Hmask) as [ijk Hijk].
    destruct (tract_mask_lookup img ts ijk) as (mask' & Hm' & Hm);
      [by eapply in_bounds_shape_positive|done|].
    rewrite Hmask in Hm'. injection Hm' as <-.
    cbn [grid_zip grid_cells]. rewrite map_lookup_zip_with, Hp, Hm by done.
    cbn [mbind option_bind]. f_equal; apply union_nan.
Qed.

(** X20: a first tractography without streamlines spoils the union: its
    map holds NaN in every cell, the later masks do not change that, and
    when the operation returns every cell inside the image holds NaN.  An
    empty tractography is skipped only after the first. *)
Theorem empty_first_member_spoils (img : image) (rest : list (list tract))
    (g : grid) (c : voxel) :
  tract_generate_probability_map linalg_solve linalg_inv ([] :: rest) img
    = Returns g →
  in_bounds (image_shape img) c →
  grid_cells g !! c = Some NaN.
Proof.
  intros Hg Hc. unfold tract_generate_probability_map in Hg.
  change (tract_probability_map linalg_inv img [])
    with (Returns (grid_map (λ x, fdiv x (of_len 0))
                            (zeros (image_shape img)))) in Hg.
  cbn [mbind outcome_bind] in Hg.
  eapply nan_loop; [done..|]. by apply nan_grid_lookup.
Qed.

End ProbabilityFacts.

Lemma example_each_ijk :
  each_tract_in_ijk cramer_inv example_image example_tracts
  = Returns [[(0, 0, 0)%Qc; (Q2Qc 4, 1, - Q2Qc 3)%Qc]].
Proof. by_compute. Qed.

Lemma tract_probability_map_cells_witness :
  ∃ g,
    tract_probability_map cramer_inv example_image example_tracts
    = Returns g ∧
    grid_shape g = image_shape example_image ∧
    (∀ c, in_bounds (image_shape example_image) c →
       ∃ q, grid_cells g !! c = Some (Finite q) ∧
            q = (Qc_of_Z (Z.of_nat (touch_count (image_shape example_image)
                             [[(0, 0, 0)%Qc; (Q2Qc 4, 1, - Q2Qc 3)%Qc]] c))
                 / Qc_of_Z (Z.of_nat (length example_tracts)))%Qc ∧
            (0 ≤ q ≤ 1)%Qc) ∧
    (∀ c, ¬ in_bounds (image_shape example_image) c →
       grid_cells g !! c = None).
Proof.
  apply (tract_probability_map_cells cramer_inv example_image example_tracts).
  - simpl. lia.
  - done.
  - exact example_each_ijk.
Defined.

Lemma probability_step_cells_witness :
  ∃ g,
    probability_step cramer_solve example_image
      (zeros (image_shape example_image)) example_tracts = Returns g ∧
    ((0, 0, 0) ∈ clip_index (image_shape example_image)
                   <$> [(0, 0, 0)%Qc; (Q2Qc 4, 1, - Q2Qc 3)%Qc] →
     grid_cells g !! (0, 0, 0) = Some (Finite 1%Qc)) ∧
    ((0, 0, 0) ∉ clip_index (image_shape example_image)
                   <$> [(0, 0, 0)%Qc; (Q2Qc 4, 1, - Q2Qc 3)%Qc] →
     grid_cells g !! (0, 0, 0) = Some (Finite 0%Qc)).
Proof.
  apply (probability_step_cells cramer_solve example_image
           (zeros (image_shape example_image)) example_tracts).
  - done.
  - exact example_ijk.
  - simpl. lia.
  - by_compute.
Defined.

Lemma example_union_returns :
  tract_generate_probability_map cramer_solve cramer_inv
    [example_tracts; example_tracts] example_image = Returns example_union.
Proof. by_compute. Qed.

Lemma union_probability_cells_witness :
  ∃ q, grid_cells example_union !! corner_cell = Some (Finite q) ∧
       (0 ≤ q ≤ 1)%Qc ∧
       (later_touch cramer_solve example_image [example_tracts] corner_cell →
        q = 1%Qc) ∧
       (¬ later_touch cramer_solve example_image [example_tracts]
            corner_cell →
        q = (Qc_of_Z (Z.of_nat (touch_count (image_shape example_image)
                         [[(0, 0, 0)%Qc; (Q2Qc 4, 1, - Q2Qc 3)%Qc]]
                         corner_cell))
             / Qc_of_Z (Z.of_nat (length example_tracts)))%Qc).
Proof.
  apply (union_probability_cells cramer_solve cramer_inv example_image
           example_tracts [example_tracts]).
  - done.
  - exact example_each_ijk.
  - exact example_union_returns.
  - simpl. lia.
Defined.

Lemma example_spoiled_returns :
  tract_generate_probability_map cramer_solve cramer_inv
    [[]; example_tracts] example_image = Returns example_spoiled.
Proof. by_compute. Qed.

Lemma empty_first_member_spoils_witness :
  grid_cells example_spoiled !! (0, 0, 0) = Some NaN.
Proof.
  apply (empty_first_member_spoils cramer_solve cramer_inv example_image
           [example_tracts]).
  - exact example_spoiled_returns.
  - simpl. lia.
Defined.

(** ** Affine transform of a tractography *)

(** Cutting the stacked points of some streamlines by their own lengths
    gives the streamlines back. *)
Lemma split_tracts_concat (pre : list point) (ts : list tract) :
  split_tracts (length pre) (pre ++ concat ts) ts = ts.
Proof.
  revert pre. induction ts as [|t ts IH]; intros pre; [done|].
  cbn [split_tracts concat]. rewrite drop_app_length, take_app_length. f_equal.
  rewrite <- length_app, (assoc_L (++)). apply IH.
Qed.

Lemma split_tracts_fmap (f : point → point) (ts : list tract) :
  split_tracts 0 (f <$> concat ts : list point)
               ((λ t : tract, f <$> t) <$> (ts : list tract))
  = (λ t : tract, f <$> t) <$> (ts : list tract).
Proof.
  assert (f <$> concat ts
          = concat ((λ t : tract, f <$> t) <$> (ts : list tract))) as ->.
  { induction ts as [|t ts IH]; [done|].
    cbn [concat fmap list_fmap]. by rewrite fmap_app, IH. }
  apply (split_tracts_concat []).
Qed.

Lemma split_tracts_lengths (start : nat) (pts : list point)
    (ts1 ts2 : list tract) :
  length <$> ts1 = length <$> ts2 →
  split_tracts start pts ts1 = split_tracts start pts ts2.
Proof.
  revert start ts2. induction ts1 as [|t1 ts1 IH]; intros start [|t2 ts2];
    try done.
  rewrite !fmap_cons. intros [= Ht Hts]. cbn [split_tracts].
  rewrite Ht. f_equal. by apply IH.
Qed.

Section AffineFacts.
Variable linalg_inv : mat4 → outcome mat4.

Lemma affine_transform_pointwise (tracts : list tract) (transform : mat4)
    (ref_image : image) :
  tracts ≠ [] →
  tract_affine_transform linalg_inv tracts tracts transform ref_image false
  = Returns ((λ t : tract, apply_affine transform <$> t)
               <$> (tracts : list tract),
             (image_affine ref_image, image_shape ref_image)).
Proof.
  intros Hne. unfold tract_affine_transform. cbn [mbind outcome_bind].
  rewrite vstack_nonempty by done. cbn [mbind outcome_bind]. do 2 f_equal.
  rewrite <- (split_tracts_fmap (apply_affine transform) tracts).
  apply split_tracts_lengths. rewrite <- list_fmap_compose.
  apply list_fmap_ext. intros i t _. cbn. by rewrite length_fmap.
Qed.

Lemma apply_affine_inverse (a inv : mat4) (p : point) :
  affine_matrix a →
  (∀ v, mat_vec inv (mat_vec a v) = v) →
  apply_affine inv (apply_affine a p) = p.
Proof.
  intros Ha Hinv. unfold apply_affine.
  rewrite affine_last, Hinv by done. by destruct p as [[??]?].
Qed.

(** X28: transforming and transforming back.  With an exact inverse, an
    invertible transform with the last row [0 0 0 1] and a tractography
    with streamlines, none of them subsampled, the operation moves every
    point by the transform and keeps the streamlines as they are cut; and
    applying it to the result with the inversion asked for gives the
    streamlines one started from. *)
Theorem affine_transform_round_trip (tracts : list tract) (transform : mat4)
    (ref_image : image) :
  inverts_exactly linalg_inv →
  det4 transform ≠ 0%Qc →
  affine_matrix transform →
  tracts ≠ [] →
  ∃ moved,
    tract_affine_transform linalg_inv tracts tracts transform ref_image false
    = Returns (moved, (image_affine ref_image, image_shape ref_image)) ∧
    moved = (λ t : tract, apply_affine transform <$> t)
              <$> (tracts : list tract) ∧
    tract_affine_transform linalg_inv moved moved transform ref_image true
    = Returns (tracts, (image_affine ref_image, image_shape ref_image)).
Proof.
  intros Hinv Hd Ha Hne. eexists.
  split; [by apply affine_transform_pointwise|].
  split; [done|]. unfold tract_affine_transform.
  pose proof (Hinv transform) as Hi. rewrite decide_False in Hi by done.
  destruct Hi as (inv & -> & Hi). cbn [mbind outcome_bind].
  rewrite vstack_nonempty by (by destruct tracts). cbn [mbind outcome_bind].
  do 2 f_equal.
  set (moved := (λ t : tract, apply_affine transform <$> t)
                  <$> (tracts : list tract)).
  rewrite (split_tracts_lengths 0 _ moved
             ((λ t : tract, apply_affine inv <$> t) <$> (moved : list tract))).
  2:{ rewrite <- list_fmap_compose. apply list_fmap_ext. intros i t _. cbn.
      by rewrite length_fmap. }
  rewrite split_tracts_fmap. unfold moved. rewrite <- list_fmap_compose.
  rewrite <- (list_fmap_id tracts) at 2. apply list_fmap_ext. intros i t _.
  cbn. rewrite <- list_fmap_compose. rewrite <- (list_fmap_id t) at 2.
  apply list_fmap_ext. intros j p _. cbn. by apply apply_affine_inverse.
Qed.

End AffineFacts.


Lemma affine_transform_round_trip_witness :
  ∃ moved,
    tract_affine_transform cramer_inv example_tracts example_tracts
      (image_affine example_image) example_image false
    = Returns (moved, (image_affine example_image,
                       image_shape example_image)) ∧
    moved = (λ t : tract, apply_affine (image_affine example_image) <$> t)
              <$> example_tracts ∧
    tract_affine_transform cramer_inv moved moved
      (image_affine example_image) example_image true
    = Returns (example_tracts, (image_affine example_image,
                                image_shape example_image)).
Proof.
  apply (affine_transform_round_trip cramer_inv example_tracts
           (image_affine example_image) example_image).
  - exact cramer_inv_exact.
  - exact example_affine_regular.
  - reflexivity.
  - done.
Defined.

(** ** The table of endpoints *)

Lemma dump_endpoints_step_returns (res : endpoint_table) (i : nat) (t : tract)
    (x0 y0 z0 x1 y1 z1 : Qc) :
  head t = Some (x0, y0, z0) → last t = Some (x1, y1, z1) →
  dump_endpoints_step res (i, t)
  = Returns (EndpointTable (column_tract res ++ [i; i])
               (column_x res ++ [x0; x1]) (column_y res ++ [y0; y1])
               (column_z res ++ [z0; z1])).
Proof.
  unfold dump_endpoints_step, first_and_last. by intros -> ->.
Qed.

Lemma dump_endpoints_loop (ts : list tract) (k n : nat)
    (res : endpoint_table) :
  Forall (λ t, t ≠ []) ts →
  balanced res n →
  ∃ res',
    ofoldl dump_endpoints_step res (imap (λ i tract, ((k + i)%nat, tract)) ts)
    = Returns res' ∧
    balanced res' (n + 2 * length ts) ∧
    rows res' = rows res ++ end_rows k ts.
Proof.
  intros Hts. revert k n res.
  induction Hts as [|t ts Ht Hts IH]; intros k n res Hres.
  - exists res. split; [done|]. rewrite Nat.add_0_r.
    split; [done|]. unfold end_rows. cbn. by rewrite app_nil_r.
  - cbn [imap ofoldl].
    destruct (head t) as [[[x0 y0] z0]|] eqn:Hhead; [|by destruct t].
    destruct (last t) as [[[x1 y1] z1]|] eqn:Hlast;
      [|by apply last_None in Hlast].
    rewrite (dump_endpoints_step_returns _ _ _ _ _ _ _ _ _ Hhead Hlast).
    cbn [mbind outcome_bind].
    destruct Hres as (H1 & H2 & H3 & H4).
    destruct (IH (S k) (n + 2)%nat
                (EndpointTable (column_tract res ++ [(k + 0)%nat; (k + 0)%nat])
                   (column_x res ++ [x0; x1]) (column_y res ++ [y0; y1])
                   (column_z res ++ [z0; z1])))
      as (res' & Hres' & Hbal & Hrows).
    { unfold balanced. cbn [column_tract column_x column_y column_z].
      rewrite !length_app. cbn [length]. lia. }
    exists res'. split.
    { rewrite <- Hres'. f_equal. apply imap_ext. intros i t' _. cbn.
      f_equal. lia. }
    split.
    { unfold balanced in *. cbn [length]. lia. }
    rewrite Hrows. unfold rows, end_rows.
    cbn [column_tract column_x column_y column_z imap concat].
    change (@head (Qc * Qc * Qc) t = Some (x0, y0, z0)) in Hhead.
    change (@last (Qc * Qc * Qc) t = Some (x1, y1, z1)) in Hlast.
    rewrite Hhead, Hlast. cbn [default from_option]. unfold Datatypes.id.
    rewrite !zip_with_app by (rewrite ?length_zip_with; lia).
    cbn [zip_with]. rewrite <- (assoc_L (++)). do 3 f_equal.
    apply imap_ext. intros i t' _. cbn. repeat f_equal; lia.
Qed.

Lemma dump_endpoints_raises (ts : list tract) (k : nat)
    (res : endpoint_table) :
  Exists (λ t, t = []) ts →
  ofoldl dump_endpoints_step res (imap (λ i tract, ((k + i)%nat, tract)) ts)
  = Raises IndexError.
Proof.
  intros Hts. revert k res.
  induction ts as [|t ts IH]; intros k res; [by apply Exists_nil in Hts|].
  cbn [imap ofoldl].
  destruct t as [|[[x0 y0] z0] t]; [done|].
  apply Exists_cons in Hts as [?|Hts]; [done|].
  destruct (last ((x0, y0, z0) :: t)) as [[[x1 y1] z1]|] eqn:Hlast;
    [|by apply last_None in Hlast].
  rewrite (dump_endpoints_step_returns _ _ ((x0, y0, z0) :: t)
             x0 y0 z0 _ _ _ eq_refl Hlast).
  cbn [mbind outcome_bind].
  rewrite <- (IH Hts (S k)
    (EndpointTable (column_tract res ++ [(k + 0)%nat; (k + 0)%nat])
       (column_x res ++ [x0; x1]) (column_y res ++ [y0; y1])
       (column_z res ++ [z0; z1]))).
  f_equal. apply imap_ext. intros i t' _. cbn. f_equal. lia.
Qed.

Lemma end_rows_lookup (k : nat) (ts : list tract) (i : nat) (t : tract)
    (a b : point) :
  ts !! i = Some t → head t = Some a → last t = Some b →
  end_rows k ts !! (2 * i)%nat = Some ((k + i)%nat, a) ∧
  end_rows k ts !! (2 * i + 1)%nat = Some ((k + i)%nat, b).
Proof.
  revert k i. induction ts as [|t0 ts IH]; intros k i; [done|].
  unfold end_rows. cbn [imap concat]. destruct i as [|i].
  - intros [= ->] Ha Hb.
    change (@head (Qc * Qc * Qc) t = Some a) in Ha.
    change (@last (Qc * Qc * Qc) t = Some b) in Hb.
    rewrite Ha, Hb. by rewrite Nat.add_0_r.
  - cbn [lookup list_lookup]. intros Ht Ha Hb.
    destruct (IH (S k) i Ht Ha Hb) as [H1 H2].
    replace (2 * S i)%nat with (S (S (2 * i))) by lia.
    replace (S (S (2 * i)) + 1)%nat with (S (S (2 * i + 1))) by lia.
    cbn [app lookup list_lookup].
    replace (k + S i)%nat with (S k + i)%nat by lia.
    rewrite <- H1, <- H2. unfold end_rows.
    split; f_equal; f_equal; apply imap_ext; intros j t' _; cbn;
      repeat f_equal; lia.
Qed.

(** X29: the table of endpoints.  A streamline without points makes the
    operation raise [IndexError].  Otherwise the table is returned with
    two rows for each streamline: rows [2 i] and [2 i + 1] bear the number
    [i] and hold the first and the last point of streamline [i], which are
    the same point for a streamline of one point. *)
Theorem tract_dump_endpoints_rows (tracts : list tract) :
  ((∃ t, t ∈ tracts ∧ t = []) →
   tract_dump_endpoints tracts = Raises IndexError) ∧
  ((∀ t, t ∈ tracts → t ≠ []) →
   ∃ res,
     tract_dump_endpoints tracts = Returns res ∧
     length (rows res) = (2 * length tracts)%nat ∧
     ∀ i t a b,
       tracts !! i = Some t → head t = Some a → last t = Some b →
       rows res !! (2 * i)%nat = Some (i, a) ∧
       rows res !! (2 * i + 1)%nat = Some (i, b)).
Proof.
  unfold tract_dump_endpoints. split.
  - intros Hex. apply (dump_endpoints_raises tracts 0).
    by apply Exists_exists.
  - intros Hall.
    destruct (dump_endpoints_loop tracts 0 0 (EndpointTable [] [] [] []))
      as (res & Hres & (H1 & H2 & H3 & H4) & Hrows).
    { by apply Forall_forall. }
    { done. }
    exists res. split; [done|]. split.
    + unfold rows. rewrite !length_zip_with. lia.
    + intros i t a b Ht Ha Hb. rewrite Hrows. cbn [app rows].
      exact (end_rows_lookup 0 tracts i t a b Ht Ha Hb).
Qed.

(** ** The outcome of smoothing *)

Module SmoothingOutcome.
Import Smoothing SmoothingFacts Lengths.
Local Open Scope R_scope.

Section Shape.
Context {bt : BallTree}.

Lemma smooth_tract_short (all_points : list rpoint) (var : R)
    (tract : list rpoint) :
  (length tract < 2)%nat →
  smooth_tract all_points var tract = Raises IndexError.
Proof.
  intros Hlen. unfold smooth_tract, tangents.
  assert (diff tract = []) as ->; [|done].
  apply nil_length_inv. rewrite length_diff. lia.
Qed.

Lemma smooth_tract_long (all_points : list rpoint) (var : R)
    (tract : list rpoint) :
  (2 ≤ length tract)%nat →
  ∃ w, smooth_tract all_points var tract = Returns w ∧
       length w = length tract.
Proof.
  intros Hlen. unfold smooth_tract.
  destruct (tangents_returns tract Hlen) as (ds & -> & Hds & _).
  cbn [mbind outcome_bind]. eexists. split; [reflexivity|].
  rewrite length_zip_with, length_zip, !length_fmap, Hds. lia.
Qed.

Lemma smoothing_loop_returns (all_points : list rpoint) (var : R)
    (refs : list nat) (st : gmap nat (list rpoint)) :
  (∀ l, l ∈ refs → (2 ≤ length (st !!! l))%nat) →
  ∃ st',
    ofoldl (λ (st : gmap nat (list rpoint)) l,
              weighted_points ← smooth_tract all_points var (st !!! l);
              Returns (<[l := weighted_points]> st)) st refs = Returns st' ∧
    ∀ l, length (st' !!! l) = length (st !!! l).
Proof.
  revert st. induction refs as [|l0 refs IH]; intros st Hall; cbn [ofoldl].
  - by exists st.
  - destruct (smooth_tract_long all_points var (st !!! l0)) as (w & -> & Hw).
    { apply Hall. left. }
    cbn [mbind outcome_bind].
    assert (Hlen : ∀ l, length (<[l0 := w]> st !!! l) = length (st !!! l)).
    { intros l. destruct (decide (l = l0)) as [->|Hne].
      - by rewrite lookup_total_insert_eq.
      - by rewrite lookup_total_insert_ne. }
    destruct (IH (<[l0 := w]> st)) as (st' & -> & Hst').
    { intros l Hl. rewrite Hlen. apply Hall. by right. }
    exists st'. split; [done|]. intros l. by rewrite Hst', Hlen.
Qed.

Lemma smoothing_loop_raises (all_points : list rpoint) (var : R)
    (refs : list nat) (st : gmap nat (list rpoint)) :
  (∃ l, l ∈ refs ∧ (length (st !!! l) < 2)%nat) →
  ofoldl (λ (st : gmap nat (list rpoint)) l,
            weighted_points ← smooth_tract all_points var (st !!! l);
            Returns (<[l := weighted_points]> st)) st refs
  = Raises IndexError.
Proof.
  revert st. induction refs as [|l0 refs IH]; intros st (l & Hl & Hshort).
  { by apply elem_of_nil in Hl. }
  cbn [ofoldl].
  destruct (decide (length (st !!! l0) < 2)%nat) as [H0|H0].
  { by rewrite smooth_tract_short. }
  destruct (smooth_tract_long all_points var (st !!! l0)) as (w & -> & Hw);
    [lia|].
  cbn [mbind outcome_bind]. apply IH.
  apply elem_of_cons in Hl as [->|Hl]; [lia|].
  exists l. split; [done|]. destruct (decide (l = l0)) as [->|Hne]; [lia|].
  by rewrite lookup_total_insert_ne.
Qed.

(** X21: a smoothing that is returned kept the number of points of every
    streamline, so that its result fits the arrays it is written into;
    and it was given at least one streamline and only streamlines of two
    points or more. *)
Theorem tract_smooth_point_counts (store store' : gmap nat (list rpoint))
    (original_tracts refs' : list nat) (var : R) :
  tract_smooth store original_tracts var = Returns (store', refs') →
  original_tracts ≠ [] ∧
  (∀ l, l ∈ original_tracts → (2 ≤ length (store !!! l))%nat) ∧
  (∀ l, length (store' !!! l) = length (store !!! l)).
Proof.
  unfold tract_smooth. intros H.
  assert (Hne : original_tracts ≠ []) by (by intros ->).
  split; [done|].
  rewrite vstack_nonempty in H by (by destruct original_tracts).
  cbn [mbind outcome_bind] in H.
  destruct (ball_tree_built _) as [[]|]; cbn [mbind outcome_bind] in H;
    [|discriminate].
  destruct (decide (Forall (λ l, 2 ≤ length (store !!! l))%nat
                      original_tracts)) as [Hall|Hex].
  - rewrite Forall_forall in Hall. split; [done|].
    destruct (smoothing_loop_returns (concat ((λ l, store !!! l)
                 <$> original_tracts)) var original_tracts store Hall)
      as (st' & Hst & Hlen).
    rewrite Hst in H. cbn [mbind outcome_bind] in H. by injection H as <- _.
  - apply not_Forall_Exists in Hex; [|apply _].
    apply Exists_exists in Hex as (l & Hl & Hshort).
    rewrite smoothing_loop_raises in H; [discriminate|].
    exists l. split; [done|]. unfold compose in Hshort. lia.
Qed.

(** X22: the errors of smoothing.  Without any streamline the stacking of
    the points raises [ValueError].  With a lawful tree over at least one
    point, a parameter that is not negative and distinct arrays, a
    streamline of fewer than two points has no segment to take a tangent
    from, and the pass raises [IndexError] when it comes to it. *)
Theorem tract_smooth_errors (store : gmap nat (list rpoint))
    (original_tracts : list nat) (var : R) (l : nat) :
  lawful bt → NoDup original_tracts → 0 <= var →
  concat ((λ l, store !!! l) <$> original_tracts) ≠ [] →
  l ∈ original_tracts → (length (store !!! l) < 2)%nat →
  tract_smooth store [] var = Raises ValueError ∧
  tract_smooth store original_tracts var = Raises IndexError.
Proof.
  intros _ _ _ Hpts Hl Hshort. split; [done|]. unfold tract_smooth.
  rewrite vstack_nonempty
    by (destruct original_tracts; [by apply elem_of_nil in Hl|done]).
  cbn [mbind outcome_bind].
  destruct (concat _) as [|p pts] eqn:Hc; [done|].
  cbn [ball_tree_built mbind outcome_bind].
  rewrite smoothing_loop_raises; [done|]. by exists l.
Qed.

End Shape.

Lemma tract_smooth_point_counts_witness :
  [0%nat] ≠ [] ∧
  (∀ l, l ∈ [0%nat] → (2 ≤ length (straight_store !!! l))%nat) ∧
  (∀ l, length (<[0%nat := straight]> straight_store !!! l)
        = length (straight_store !!! l)).
Proof.
  apply (tract_smooth_point_counts (bt := brute_force) straight_store
           (<[0%nat := straight]> straight_store) [0%nat] [0%nat] 1).
  exact straight_smoothed.
Defined.

Lemma tract_smooth_errors_witness :
  tract_smooth (bt := brute_force) short_store [] 1 = Raises ValueError ∧
  tract_smooth (bt := brute_force) short_store [0%nat; 1%nat] 1
  = Raises IndexError.
Proof.
  apply (tract_smooth_errors (bt := brute_force) short_store
           [0%nat; 1%nat] 1 1%nat).
  - exact brute_force_lawful.
  - apply NoDup_cons. split; [|apply NoDup_singleton].
    by intros ?%list_elem_of_singleton.
  - lra.
  - cbn [fmap list_fmap concat]. unfold short_store.
    rewrite lookup_total_insert_eq. discriminate.
  - right. left.
  - unfold short_store.
    rewrite lookup_total_insert_ne, lookup_total_singleton_eq by done.
    simpl. lia.
Defined.

End SmoothingOutcome.

(** ** Lengths and the operations built on them *)

Module LengthFacts.
Import Smoothing SmoothingFacts Lengths.
Local Open Scope R_scope.

(** *** The length of a streamline *)

Lemma norm_nonneg (v : rpoint) : 0 <= sqrt (sq_norm v).
Proof. apply sqrt_pos. Qed.

Lemma tract_length_cons (p q : rpoint) (rest : list rpoint) :
  tract_length (p :: q :: rest) = dist p q + tract_length (q :: rest).
Proof. reflexivity. Qed.

Lemma tract_length_nonneg (tract : list rpoint) : 0 <= tract_length tract.
Proof.
  induction tract as [|p [|q rest] IH]; [unfold tract_length; simpl; lra..|].
  rewrite tract_length_cons. pose proof (norm_nonneg (vsub q p)).
  unfold dist. lra.
Qed.

Lemma cauchy_schwarz (a b c x y z : R) :
  a * x + b * y + c * z
  <= sqrt (a ^ 2 + b ^ 2 + c ^ 2) * sqrt (x ^ 2 + y ^ 2 + z ^ 2).
Proof.
  rewrite <- sqrt_mult by nra.
  apply Rle_trans with (Rabs (a * x + b * y + c * z)); [apply Rle_abs|].
  rewrite <- sqrt_Rsqr_abs. apply sqrt_le_1_alt. unfold Rsqr.
  pose proof (pow2_ge_0 (a * y - b * x)).
  pose proof (pow2_ge_0 (a * z - c * x)).
  pose proof (pow2_ge_0 (b * z - c * y)). nra.
Qed.

Lemma norm_triangle (u v : rpoint) :
  sqrt (sq_norm (vadd u v)) <= sqrt (sq_norm u) + sqrt (sq_norm v).
Proof.
  destruct u as [[a b] c], v as [[x y] z]. unfold vadd, sq_norm.
  pose proof (cauchy_schwarz a b c x y z) as Hcs.
  pose proof (sqrt_pos (a ^ 2 + b ^ 2 + c ^ 2)) as Hu.
  pose proof (sqrt_pos (x ^ 2 + y ^ 2 + z ^ 2)) as Hv.
  pose proof (sq_norm_nonneg (a, b, c)) as Hu0.
  pose proof (sq_norm_nonneg (x, y, z)) as Hv0.
  pose proof (sq_norm_nonneg (a + x, b + y, c + z)) as Huv0.
  unfold sq_norm in Hu0, Hv0, Huv0.
  apply Rsqr_incr_0_var; [|apply Rplus_le_le_0_compat; apply sqrt_pos].
  rewrite Rsqr_sqrt by done. rewrite Rsqr_plus, !Rsqr_sqrt by done.
  lra.
Qed.

Lemma dist_triangle (p q r : rpoint) : dist p r <= dist p q + dist q r.
Proof.
  unfold dist. replace (vsub r p) with (vadd (vsub q p) (vsub r q)).
  - apply norm_triangle.
  - destruct p as [[??]?], q as [[??]?], r as [[??]?]. unfold vadd, vsub.
    f_equal; [f_equal|]; lra.
Qed.

Lemma tract_length_endpoints (tract : list rpoint) (p q : rpoint) :
  head tract = Some p → last tract = Some q → dist p q <= tract_length tract.
Proof.
  revert p. induction tract as [|p0 [|p1 rest] IH]; intros p; [done|..].
  - intros [= <-] [= <-]. rewrite dist_self. apply tract_length_nonneg.
  - intros [= <-] Hlast. rewrite tract_length_cons.
    specialize (IH p1 eq_refl Hlast).
    pose proof (dist_triangle p0 p1 q). lra.
Qed.

(** X23: the length of a streamline is never negative, it is 0 for a
    streamline of fewer than two points, and it is at least the distance
    between the first and the last point. *)
Theorem tract_length_bounds (tract : list rpoint) :
  0 <= tract_length tract ∧
  ((length tract < 2)%nat → tract_length tract = 0) ∧
  (∀ p q, head tract = Some p → last tract = Some q →
          dist p q <= tract_length tract).
Proof.
  split; [apply tract_length_nonneg|]. split.
  - intros Hlen. destruct tract as [|p [|q rest]]; [done..|].
    cbn [length] in Hlen. lia.
  - intros p q. apply tract_length_endpoints.
Qed.

Lemma dist_sym (p q : rpoint) : dist p q = dist q p.
Proof.
  destruct p as [[??]?], q as [[??]?]. unfold dist, vsub, sq_norm.
  f_equal. ring.
Qed.

Lemma tract_length_app (l1 l2 : list rpoint) (p : rpoint) :
  tract_length (l1 ++ p :: l2)
  = tract_length (l1 ++ [p]) + tract_length (p :: l2).
Proof.
  induction l1 as [|a l1 IH].
  - cbn [app]. unfold tract_length at 2. cbn. lra.
  - destruct l1 as [|b l1].
    + cbn [app]. rewrite !tract_length_cons. unfold tract_length at 2.
      cbn. lra.
    + cbn [app] in *. rewrite !tract_length_cons, IH. lra.
Qed.

(** X24: the length of a streamline does not depend on the direction it
    is run through. *)
Theorem tract_length_reverse (tract : list rpoint) :
  tract_length (reverse tract) = tract_length tract.
Proof.
  induction tract as [|p [|q rest] IH]; [done..|].
  rewrite (reverse_cons _ p), (reverse_cons _ q), <- (assoc_L (++)).
  change ([q] ++ [p]) with (q :: [p]).
  rewrite tract_length_app, <- reverse_cons, IH.
  rewrite (tract_length_cons p q), (tract_length_cons q p), (dist_sym q p).
  unfold tract_length at 2. cbn. lra.
Qed.

(** *** Removing the short streamlines *)

(** Selecting by index what a filter keeps. *)
Lemma omap_index_kept {A B} (P : A → Prop) `{∀ x, Decision (P x)}
    (pre : list B) (l : list A) (m : list B) :
  length m = length l →
  omap (index (pre ++ m))
       (fst <$> filter (λ it, P it.2)
                       (imap (λ i x, ((length pre + i)%nat, x)) l))
  = Returns (snd <$> filter (λ x, P x.1) (zip l m)).
Proof.
  revert pre m. induction l as [|x l IH]; intros pre [|y m] Hlen;
    try done.
  injection Hlen as Hlen. cbn [imap zip zip_with].
  rewrite !filter_cons. cbn [fst snd].
  assert (Hrest :
    omap (index (pre ++ y :: m))
         (fst <$> filter (λ it, P it.2)
            (imap ((λ i x, ((length pre + i)%nat, x)) ∘ S) l))
    = Returns (snd <$> filter (λ x, P x.1) (zip l m))).
  { rewrite <- (IH (pre ++ [y]) m Hlen), <- (assoc_L (++)). cbn [app].
    do 3 f_equal. apply imap_ext. intros i z _. cbn.
    rewrite length_app. cbn. f_equal. lia. }
  destruct (decide (P x)).
  - rewrite fmap_cons. cbn [omap fst]. rewrite Hrest.
    unfold index. rewrite Nat.add_0_r, list_lookup_middle by done.
    reflexivity.
  - exact Hrest.
Qed.

Lemma omap_index_filter {A B} (P : A → Prop) `{∀ x, Decision (P x)}
    (l : list A) (m : list B) :
  length m = length l →
  omap (index m)
       (fst <$> filter (λ it, P it.2) (imap (λ i x, (i, x)) l))
  = Returns (snd <$> filter (λ x, P x.1) (zip l m)).
Proof. intros Hlen. exact (omap_index_kept P [] l m Hlen). Qed.

Lemma filter_zip_diag {A} (P : A → Prop) `{∀ x, Decision (P x)} (l : list A) :
  snd <$> filter (λ x, P x.1) (zip l l) = filter P l.
Proof.
  induction l as [|x l IH]; [done|]. cbn [zip zip_with].
  rewrite !filter_cons. cbn [fst]. case_decide; [|done].
  rewrite fmap_cons. by rewrite IH.
Qed.

Lemma filter_zip_fst {A B} (P : A → Prop) `{∀ x, Decision (P x)}
    (l : list A) (m : list B) :
  length m = length l →
  fst <$> filter (λ x, P x.1) (zip l m) = filter P l.
Proof.
  revert m. induction l as [|x l IH]; intros [|y m] Hlen; try done.
  injection Hlen as Hlen. cbn [zip zip_with].
  rewrite !filter_cons. cbn [fst]. case_decide; [|by apply IH].
  rewrite fmap_cons. by rewrite IH.
Qed.

Section RemoveShort.
Context {K : Type} `{Countable K} {D : Type}.
Implicit Types (tracts : list (list rpoint)) (data : gmap K (list D)).

Lemma tract_ix_to_keep_tracts tracts min_tract_length :
  omap (index tracts) (tract_ix_to_keep tracts min_tract_length)
  = Returns (filter (λ t, min_tract_length < tract_length t) tracts).
Proof.
  unfold tract_ix_to_keep.
  rewrite <- (filter_zip_diag (λ t, min_tract_length < tract_length t)).
  exact (omap_index_filter (λ t, min_tract_length < tract_length t)
           tracts tracts eq_refl).
Qed.

Lemma select_data_kept tracts min_tract_length
    (acc : gmap K (list D)) (key : K) (item : list D) :
  select_data tracts (tract_ix_to_keep tracts min_tract_length) acc (key, item)
  = Returns (<[key := kept_items tracts min_tract_length item]> acc).
Proof.
  unfold select_data, kept_items. case_decide as Hlen; [|done].
  assert (omap (index item) (tract_ix_to_keep tracts min_tract_length)
          = Returns (snd <$> filter (λ x, min_tract_length < tract_length x.1)
                                    (zip tracts item))) as ->; [|done].
  exact (omap_index_filter (λ t, min_tract_length < tract_length t)
           tracts item Hlen).
Qed.

Lemma select_data_loop tracts min_tract_length
    (entries : list (K * list D)) (acc : gmap K (list D)) :
  NoDup entries.*1 →
  ∃ r,
    ofoldl (select_data tracts (tract_ix_to_keep tracts min_tract_length))
           acc entries = Returns r ∧
    ∀ key, r !! key
           = match (list_to_map entries : gmap K (list D)) !! key with
             | Some item => Some (kept_items tracts min_tract_length item)
             | None => acc !! key
             end.
Proof.
  revert acc. induction entries as [|[k0 item0] entries IH]; intros acc Hnd.
  - exists acc. split; [done|]. intros key. cbn [list_to_map foldr].
    by rewrite lookup_empty.
  - rewrite fmap_cons in Hnd. apply NoDup_cons in Hnd as [Hk0 Hnd].
    cbn [ofoldl]. rewrite select_data_kept. cbn [mbind outcome_bind].
    destruct (IH (<[k0 := kept_items tracts min_tract_length item0]> acc) Hnd)
      as (r & -> & Hr).
    exists r. split; [done|]. intros key. rewrite Hr. cbn [list_to_map foldr].
    destruct (decide (key = k0)) as [->|Hne].
    + rewrite (not_elem_of_list_to_map_1 _ _ Hk0).
      by rewrite !lookup_insert_eq.
    + by rewrite !lookup_insert_ne.
Qed.

Lemma remove_short_returns tracts data min_tract_length :
  tract_remove_short_tracts tracts data min_tract_length
  = Returns (filter (λ t, min_tract_length < tract_length t) tracts,
             kept_items tracts min_tract_length <$> data).
Proof.
  unfold tract_remove_short_tracts. rewrite tract_ix_to_keep_tracts.
  cbn [mbind outcome_bind].
  destruct (select_data_loop tracts min_tract_length (map_to_list data) ∅)
    as (r & -> & Hr); [apply NoDup_fst_map_to_list|].
  cbn [mbind outcome_bind]. do 2 f_equal. apply map_eq. intros key.
  rewrite Hr, list_to_map_to_list, lookup_fmap, lookup_empty.
  by destruct (data !! key).
Qed.

End RemoveShort.

Lemma filter_all {A} (P : A → Prop) `{∀ x, Decision (P x)} (l : list A) :
  Forall P l → filter P l = l.
Proof.
  induction 1 as [|x l Hx Hl IH]; [done|].
  by rewrite filter_cons, decide_True, IH.
Qed.

Section RemoveShortFacts.
Context {K : Type} `{Countable K} {D : Type}.
Implicit Types (tracts : list (list rpoint)) (data : gmap K (list D)).

Lemma kept_items_again tracts (min_tract_length : R) (item : list D) :
  kept_items (filter (λ t, min_tract_length < tract_length t) tracts)
             min_tract_length (kept_items tracts min_tract_length item)
  = kept_items tracts min_tract_length item.
Proof.
  set (item' := kept_items tracts min_tract_length item).
  unfold kept_items at 1. case_decide as Hlen; [|done].
  rewrite filter_all.
  - apply snd_zip. by rewrite Hlen.
  - apply Forall_forall. intros [t d] Hin. cbn [fst].
    apply elem_of_zip_l in Hin. by apply list_elem_of_filter in Hin as [? _].
Qed.

(** X25: removing the short streamlines never raises.  The streamlines of
    the result are those of the input longer than the threshold, in the
    order they had, and the data keep their quantities. *)
Theorem remove_short_tracts_kept tracts data (min_tract_length : R) :
  ∃ selected_tracts selected_data,
    tract_remove_short_tracts tracts data min_tract_length
    = Returns (selected_tracts, selected_data) ∧
    selected_tracts `sublist_of` tracts ∧
    (∀ t, t ∈ selected_tracts ↔
          t ∈ tracts ∧ min_tract_length < tract_length t) ∧
    dom selected_data = dom data.
Proof.
  eexists _, _. split; [apply remove_short_returns|].
  split; [apply sublist_filter|]. split.
  - intros t. rewrite list_elem_of_filter. tauto.
  - apply dom_fmap_L.
Qed.

(** X26: the data stay with their streamlines.  For a quantity with one
    item for each streamline, the items of the result are those of the
    streamlines that are kept, in step with them; a quantity with another
    number of items is handed on as it is. *)
Theorem remove_short_data_aligned tracts data (min_tract_length : R)
    (key : K) (item : list D) :
  data !! key = Some item →
  ∃ selected_tracts selected_data selected_items,
    tract_remove_short_tracts tracts data min_tract_length
    = Returns (selected_tracts, selected_data) ∧
    selected_data !! key = Some selected_items ∧
    (length item = length tracts →
     zip selected_tracts selected_items
     = filter (λ x, min_tract_length < tract_length x.1) (zip tracts item)) ∧
    (length item ≠ length tracts → selected_items = item).
Proof.
  intros Hitem. eexists _, _, _. split; [apply remove_short_returns|].
  split; [by rewrite lookup_fmap, Hitem|].
  unfold kept_items. split; intros Hlen.
  - rewrite decide_True by done.
    rewrite <- (filter_zip_fst (λ t, min_tract_length < tract_length t)
                  tracts item Hlen).
    apply zip_fst_snd.
  - by rewrite decide_False.
Qed.

(** X27: removing the short streamlines a second time, with the same
    threshold, changes neither the streamlines nor the data. *)
Theorem remove_short_idempotent tracts data (min_tract_length : R) :
  (r ← tract_remove_short_tracts tracts data min_tract_length;
   tract_remove_short_tracts r.1 r.2 min_tract_length)
  = tract_remove_short_tracts tracts data min_tract_length.
Proof.
  rewrite remove_short_returns. cbn [mbind outcome_bind fst snd].
  rewrite remove_short_returns. do 2 f_equal.
  - apply filter_all, Forall_forall. intros t Ht.
    by apply list_elem_of_filter in Ht as [? _].
  - rewrite <- map_fmap_compose. apply map_fmap_ext. intros key item _.
    apply kept_items_again.
Qed.

End RemoveShortFacts.

Lemma remove_short_data_aligned_witness :
  ∃ selected_tracts selected_data selected_items,
    tract_remove_short_tracts two_tracts two_data 1
    = Returns (selected_tracts, selected_data) ∧
    selected_data !! 0%nat = Some selected_items ∧
    (length [7%nat; 8%nat] = length two_tracts →
     zip selected_tracts selected_items
     = filter (λ x, 1 < tract_length x.1) (zip two_tracts [7%nat; 8%nat])) ∧
    (length [7%nat; 8%nat] ≠ length two_tracts →
     selected_items = [7%nat; 8%nat]).
Proof.
  apply (remove_short_data_aligned two_tracts two_data 1 0%nat).
  apply lookup_singleton_eq.
Defined.

(** The straight streamline of the examples has length 2, so with the
    threshold 1 it is kept with its item and the single point is
    dropped. *)
Example remove_short_example :
  tract_remove_short_tracts two_tracts two_data 1
  = Returns ([straight], {[ 0%nat := [7%nat] ]}).
Proof.
  rewrite remove_short_returns. unfold two_tracts, two_data.
  assert (Hs : 1 < tract_length straight).
  { unfold tract_length, straight. cbn [diff fmap list_fmap rsum foldr].
    unfold vsub, sq_norm.
    replace ((1 - 0) ^ 2 + (0 - 0) ^ 2 + (0 - 0) ^ 2) with 1 by lra.
    replace ((2 - 1) ^ 2 + (0 - 0) ^ 2 + (0 - 0) ^ 2) with 1 by lra.
    rewrite sqrt_1. lra. }
  assert (Hp : ¬ 1 < tract_length [(0, 0, 0)]).
  { unfold tract_length. cbn. lra. }
  rewrite map_fmap_singleton. unfold kept_items.
  rewrite decide_True by done. cbn [zip zip_with].
  rewrite !filter_cons, !filter_nil. cbn [fst].
  destruct (decide (1 < tract_length straight)); [|done].
  destruct (decide (1 < tract_length [(0, 0, 0)])); [done|].
  reflexivity.
Qed.

(** *** The extremes that are printed *)

Lemma foldl_Rmin_spec (l : list R) (x : R) :
  (∀ y, y ∈ x :: l → foldl Rmin x l <= y) ∧ foldl Rmin x l ∈ x :: l.
Proof.
  revert x. induction l as [|z l IH]; intros x; cbn [foldl].
  - split; [|left]. intros y ->%list_elem_of_singleton. lra.
  - destruct (IH (Rmin x z)) as [Hle Hin]. split.
    + intros y [->|Hy]%elem_of_cons.
      * etrans; [apply Hle; left|apply Rmin_l].
      * apply elem_of_cons in Hy as [->|Hy].
        -- etrans; [apply Hle; left|apply Rmin_r].
        -- apply Hle. by right.
    + apply elem_of_cons in Hin as [Hin|Hin]; [|by do 2 right].
      rewrite Hin. unfold Rmin. destruct (Rle_dec x z); [left|right; left].
Qed.

Lemma foldl_Rmax_spec (l : list R) (x : R) :
  (∀ y, y ∈ x :: l → y <= foldl Rmax x l) ∧ foldl Rmax x l ∈ x :: l.
Proof.
  revert x. induction l as [|z l IH]; intros x; cbn [foldl].
  - split; [|left]. intros y ->%list_elem_of_singleton. lra.
  - destruct (IH (Rmax x z)) as [Hle Hin]. split.
    + intros y [->|Hy]%elem_of_cons.
      * etrans; [apply Rmax_l|apply Hle; left].
      * apply elem_of_cons in Hy as [->|Hy].
        -- etrans; [apply Rmax_r|apply Hle; left].
        -- apply Hle. by right.
    + apply elem_of_cons in Hin as [Hin|Hin]; [|by do 2 right].
      rewrite Hin. unfold Rmax. destruct (Rle_dec x z); [right; left|left].
Qed.

(** X30: the two numbers the operation prints are the least and the
    greatest length of a whole streamline: every streamline is at least as
    long as the first and at most as long as the second, and each is the
    length of a streamline.  Without streamlines it raises
    [ValueError]. *)
Theorem distance_min_max_are_lengths (tracts : list (list rpoint)) :
  tract_point_distance_min_max [] = Raises ValueError ∧
  (tracts ≠ [] →
   ∃ mn mx,
     tract_point_distance_min_max tracts = Returns (mn, mx) ∧
     (∀ t, t ∈ tracts → mn <= tract_length t <= mx) ∧
     (∃ t, t ∈ tracts ∧ tract_length t = mn) ∧
     (∃ t, t ∈ tracts ∧ tract_length t = mx)).
Proof.
  split; [done|]. intros Hne. destruct tracts as [|t0 ts]; [done|].
  unfold tract_point_distance_min_max. cbn [fmap list_fmap array_rmin
    array_rmax mbind outcome_bind].
  destruct (foldl_Rmin_spec (tract_length <$> ts) (tract_length t0))
    as [Hmin Hmin_in].
  destruct (foldl_Rmax_spec (tract_length <$> ts) (tract_length t0))
    as [Hmax Hmax_in].
  eexists _, _. split; [reflexivity|].
  rewrite <- fmap_cons in Hmin, Hmax, Hmin_in, Hmax_in.
  split; [|split].
  - intros t Ht. split; [apply Hmin|apply Hmax];
      by apply (list_elem_of_fmap_2 tract_length).
  - apply list_elem_of_fmap in Hmin_in as (t & Ht & Hin). by exists t.
  - apply list_elem_of_fmap in Hmax_in as (t & Ht & Hin). by exists t.
Qed.

End LengthFacts.
